(** * IKTarget: the inverse-kinematics least-squares target of OpenSim

    A shallow embedding of [OpenSim/Tools/IKTarget.cpp].

    Conventions of the embedding.
    - A C++ [double] is a real number of [R]; [sqrt], [abs] and the
      comparisons are the ones of the Standard Library's reals.  Rounding is
      not modelled.  [rdMath::isNAN] is a function of the environment.
    - The dynamics engine, its coordinates and markers, the storage rows and
      LAPACK are external collaborators: they are the fields of the class
      [Engine], and every mutation of the model is an explicit new [Model].
    - [coordinateInfo] objects live in one store, [_coordinateInfos]; the
      arrays [_prescribedQs], [_unprescribedQs] and [_unprescribedWeightedQs]
      hold pointers, that is indices into this store, so that a write through
      one array is seen through the others, as in the source.
    - A C++ exception is the left summand of the result; the state reached
      when it is thrown is returned next to it.
    - Output on [cout] is left out. *)

From Stdlib Require Import Reals Lra Lia ZArith String.
From stdpp Require Import base relations list strings.

Set Default Proof Using "Type".

(** ** Numeric helpers *)

Record Vec3 : Type := mkVec3 { v0 : R; v1 : R; v2 : R }.

(** [v[j]] for [j] in 0..2. *)
Definition vget (v : Vec3) (j : nat) : R :=
  match j with
  | 0 => v0 v
  | 1 => v1 v
  | _ => v2 v
  end.

(** [v[j] = x]. *)
Definition vset (v : Vec3) (j : nat) (x : R) : Vec3 :=
  match j with
  | 0 => mkVec3 x (v1 v) (v2 v)
  | 1 => mkVec3 (v0 v) x (v2 v)
  | _ => mkVec3 (v0 v) (v1 v) x
  end.

(** [x[i]] on a SimTK vector or a C array. *)
Definition vec_get (v : list R) (i : nat) : R := default 0%R (v !! i).

(** The truth value of a [double] used as a condition: [w != 0]. *)
Definition nonzero (w : R) : bool := if Req_dec_T w 0 then false else true.

(** [a > b] on doubles. *)
Definition Rgtb (a b : R) : bool := if Rgt_dec a b then true else false.

(** The two tests above are decided by the order of the reals; they are
    reasoned about through their specifications, never evaluated. *)
Global Arguments nonzero : simpl never.
Global Arguments Rgtb : simpl never.

Definition Rsum (l : list R) : R := foldr Rplus 0%R l.

(** [v.norm()]: the Euclidean norm of a column. *)
Definition norm (v : list R) : R := sqrt (Rsum ((λ x, x * x)%R <$> v)).

(** [for (int i = 0; i < n; i++) body]. *)
Definition for_loop {A : Type} (n : nat) (body : nat → A → A) (a : A) : A :=
  foldl (λ acc i, body i acc) a (seq 0 n).

(** Modelled from the spec: [Array<string>::findIndex] is declared outside
    this file; the spec's [findColumnIndex(name)], index or absent: the first
    index holding the value, or -1. *)
Fixpoint findIndexFrom (i : Z) (l : list string) (s : string) : Z :=
  match l with
  | [] => (-1)%Z
  | x :: r => if String.eqb x s then i else findIndexFrom (i + 1)%Z r s
  end.

Definition findIndex (l : list string) (s : string) : Z := findIndexFrom 0 l s.

(** Modelled from the spec: [Array<string>::rfindIndex], the same search "in
    reverse": the last index holding the value, or -1. *)
Fixpoint rfindIndexFrom (i : Z) (l : list string) (s : string) : Z :=
  match l with
  | [] => (-1)%Z
  | x :: r =>
      let j := rfindIndexFrom (i + 1)%Z r s in
      if (0 <=? j)%Z then j else if String.eqb x s then i else (-1)%Z
  end.

Definition rfindIndex (l : list string) (s : string) : Z := rfindIndexFrom 0 l s.

(** ** Exceptions and tasks *)

Inductive exn : Type :=
| Exception (msg : string)
| InterruptedException.

Inductive ValueType : Type := DefaultValue | ManualValue | FromFile.

(** The heterogeneous task set; [dynamic_cast] is a match on the constructor. *)
Inductive IKTask : Type :=
| IKMarkerTask (name : string) (apply : bool) (weight : R)
| IKCoordinateTask (name : string) (apply : bool) (weight : R)
                   (valueType : ValueType) (value : R).

(** ** External collaborators *)

Class Engine : Type := {
  (** The state of the model behind [_model.getDynamicsEngine()]. *)
  Model : Type;
  (** [CoordinateSet]: the names, in index order. *)
  coordinateNames : Model → list string;
  (** [AbstractCoordinate], addressed by index in the coordinate set. *)
  getValue : Model → nat → R;
  setValue : Model → nat → R → bool → Model;
  getDefaultValue : Model → nat → R;
  getLocked : Model → nat → bool;
  setLocked : Model → nat → bool → Model;
  isConstrained : Model → nat → bool;
  getClamped : Model → nat → bool;
  setClamped : Model → nat → bool → Model;
  (** [MarkerSet::get(name)], [AbstractMarker]. *)
  markerSetGet : Model → string → option nat;
  markerName : Model → nat → string;
  getBody : Model → nat → nat;
  getOffset : Model → nat → Vec3;
  (** [AbstractDynamicsEngine::transformPosition(body, local, global)]. *)
  transformPosition : Model → nat → Vec3 → Vec3;
  (** [Storage::getStateVector(aIndex)] then [getDataValue(column, out)]:
      the new content of [out], given its old content. *)
  StateVector : Type;
  getDataValue : StateVector → Z → R → R;
  (** [rdMath::isNAN]. *)
  isNAN : R → bool;
  (** LAPACK [dgelsy_]: the overwritten right-hand side. *)
  dgelsy : list (list R) → list R → list R;
  (** What [new] leaves in members that no constructor writes. *)
  indeterminate : R;
  indeterminate_flag : bool;
}.

Record Storage `{Engine} : Type := mkStorage {
  getColumnLabels : list string;
  getStateVector : Z → StateVector;
}.

(** ** Data model *)

Record markerToSolve : Type := mkMarker {
  marker : nat;
  body : nat;
  m_experimentalColumn : Z;
  m_weight : R;
  computedPosition : Vec3;
  experimentalPosition : Vec3;
  validExperimentalPosition : bool;
}.

Record coordinateInfo : Type := mkInfo {
  coord : nat;
  prescribed : bool;
  experimentalColumn : Z;
  constantExperimentalValue : R;
  weight : R;
  experimentalValue : R;
}.

Global Instance coordinateInfo_inhabited : Inhabited coordinateInfo :=
  populate (mkInfo 0 false (-1) 0 0 0).

Global Instance markerToSolve_inhabited : Inhabited markerToSolve :=
  populate (mkMarker 0 0 0 0 (mkVec3 0 0 0) (mkVec3 0 0 0) false).

Definition set_computedPosition (mk : markerToSolve) (p : Vec3) : markerToSolve :=
  mkMarker (marker mk) (body mk) (m_experimentalColumn mk) (m_weight mk)
           p (experimentalPosition mk) (validExperimentalPosition mk).

Definition set_experimental (mk : markerToSolve) (p : Vec3) (valid : bool)
  : markerToSolve :=
  mkMarker (marker mk) (body mk) (m_experimentalColumn mk) (m_weight mk)
           (computedPosition mk) p valid.

Definition set_experimentalValue (q : coordinateInfo) (v : R) : coordinateInfo :=
  mkInfo (coord q) (prescribed q) (experimentalColumn q)
         (constantExperimentalValue q) (weight q) v.

Definition set_experimentalColumn (q : coordinateInfo) (c : Z) : coordinateInfo :=
  mkInfo (coord q) (prescribed q) c
         (constantExperimentalValue q) (weight q) (experimentalValue q).

Definition set_constantExperimentalValue (q : coordinateInfo) (v : R)
  : coordinateInfo :=
  mkInfo (coord q) (prescribed q) (experimentalColumn q)
         v (weight q) (experimentalValue q).

Definition set_weight (q : coordinateInfo) (w : R) : coordinateInfo :=
  mkInfo (coord q) (prescribed q) (experimentalColumn q)
         (constantExperimentalValue q) w (experimentalValue q).

Record IKTarget `{Engine} : Type := mkIKTarget {
  _model : Model;
  _experimentalDataStorage : Storage;
  _markers : list markerToSolve;
  _coordinateInfos : list coordinateInfo;
  _prescribedQs : list nat;
  _unprescribedQs : list nat;
  _unprescribedWeightedQs : list nat;
  (** [rdOptimizationTarget]: number of parameters and steps. *)
  _np : nat;
  _dx : list R;
  _interrupted : bool;
  _printPerformanceValues : bool;
  _worstMarkerError : R;
  _nameOfWorstMarker : string;
  _worstCoordinateError : R;
  _nameOfWorstCoordinate : string;
  (** The file-level flag [calcDerivs]. *)
  calcDerivs : bool;
}.

(** [const double IKTarget::_perturbation = 1e-3]. *)
Definition _perturbation : R := 1e-3.

(** [static bool debug = false], never assigned. *)
Definition debug : bool := false.

Section Target.
Context `{E : Engine}.

(** ** Field updates of the target *)

Definition set_model (t : IKTarget) (m : Model) : IKTarget :=
  mkIKTarget E m (_experimentalDataStorage t) (_markers t) (_coordinateInfos t)
    (_prescribedQs t) (_unprescribedQs t) (_unprescribedWeightedQs t)
    (_np t) (_dx t) (_interrupted t) (_printPerformanceValues t)
    (_worstMarkerError t) (_nameOfWorstMarker t)
    (_worstCoordinateError t) (_nameOfWorstCoordinate t) (calcDerivs t).

Definition set_markers (t : IKTarget) (mks : list markerToSolve) : IKTarget :=
  mkIKTarget E (_model t) (_experimentalDataStorage t) mks (_coordinateInfos t)
    (_prescribedQs t) (_unprescribedQs t) (_unprescribedWeightedQs t)
    (_np t) (_dx t) (_interrupted t) (_printPerformanceValues t)
    (_worstMarkerError t) (_nameOfWorstMarker t)
    (_worstCoordinateError t) (_nameOfWorstCoordinate t) (calcDerivs t).

Definition set_coordinateInfos (t : IKTarget) (qs : list coordinateInfo)
  : IKTarget :=
  mkIKTarget E (_model t) (_experimentalDataStorage t) (_markers t) qs
    (_prescribedQs t) (_unprescribedQs t) (_unprescribedWeightedQs t)
    (_np t) (_dx t) (_interrupted t) (_printPerformanceValues t)
    (_worstMarkerError t) (_nameOfWorstMarker t)
    (_worstCoordinateError t) (_nameOfWorstCoordinate t) (calcDerivs t).

Definition set_interrupted (t : IKTarget) (b : bool) : IKTarget :=
  mkIKTarget E (_model t) (_experimentalDataStorage t) (_markers t)
    (_coordinateInfos t)
    (_prescribedQs t) (_unprescribedQs t) (_unprescribedWeightedQs t)
    (_np t) (_dx t) b (_printPerformanceValues t)
    (_worstMarkerError t) (_nameOfWorstMarker t)
    (_worstCoordinateError t) (_nameOfWorstCoordinate t) (calcDerivs t).

Definition set_printPerformanceValues (t : IKTarget) (b : bool) : IKTarget :=
  mkIKTarget E (_model t) (_experimentalDataStorage t) (_markers t)
    (_coordinateInfos t)
    (_prescribedQs t) (_unprescribedQs t) (_unprescribedWeightedQs t)
    (_np t) (_dx t) (_interrupted t) b
    (_worstMarkerError t) (_nameOfWorstMarker t)
    (_worstCoordinateError t) (_nameOfWorstCoordinate t) (calcDerivs t).

Definition set_calcDerivs (t : IKTarget) (b : bool) : IKTarget :=
  mkIKTarget E (_model t) (_experimentalDataStorage t) (_markers t)
    (_coordinateInfos t)
    (_prescribedQs t) (_unprescribedQs t) (_unprescribedWeightedQs t)
    (_np t) (_dx t) (_interrupted t) (_printPerformanceValues t)
    (_worstMarkerError t) (_nameOfWorstMarker t)
    (_worstCoordinateError t) (_nameOfWorstCoordinate t) b.

(** [IKTarget::setErrorReportingQuantities]. *)
Definition setErrorReportingQuantities (t : IKTarget)
    (aMarkerError : R) (aMarkerName : string)
    (aCoordinateError : R) (aCoordinateName : string) : IKTarget :=
  mkIKTarget E (_model t) (_experimentalDataStorage t) (_markers t)
    (_coordinateInfos t)
    (_prescribedQs t) (_unprescribedQs t) (_unprescribedWeightedQs t)
    (_np t) (_dx t) (_interrupted t) (_printPerformanceValues t)
    aMarkerError aMarkerName aCoordinateError aCoordinateName (calcDerivs t).

(** ** Construction *)

(** One pass of the loop of [IKTarget::buildMarkerMap]. *)
Definition buildMarkerStep (m : Model) (aNameArray : list string)
    (mks : list markerToSolve) (task : IKTask) : exn + list markerToSolve :=
  match task with
  | IKMarkerTask markerName true w =>
      match markerSetGet m markerName with
      | None => inl (Exception "marker named in IKMarkerTask not found in model")
      | Some modelMarker =>
          if nonzero w then
            let j := findIndex aNameArray (markerName +:+ "_tx") in
            if (j <? 0)%Z
            then inl (Exception "experimental data for marker not found in trc file")
            else inr (mks ++ [mkMarker modelMarker (getBody m modelMarker)
                                (j - 1) w
                                (mkVec3 indeterminate indeterminate indeterminate)
                                (mkVec3 indeterminate indeterminate indeterminate)
                                indeterminate_flag])
          else inr mks
      end
  | _ => inr mks
  end.

Definition buildMarkerMap (m : Model) (tasks : list IKTask)
    (aNameArray : list string) : exn + list markerToSolve :=
  foldl (λ acc task,
           match acc with
           | inl e => inl e
           | inr mks => buildMarkerStep m aNameArray mks task
           end) (inr []) tasks.

(** The first loop of [IKTarget::buildCoordinateMap]: one info per model
    coordinate, as if it had no task. *)
Definition initialInfo (m : Model) (i : nat) : coordinateInfo :=
  mkInfo i (getLocked m i || isConstrained m i) (-1) (getDefaultValue m i) 0
         indeterminate.

Definition allCoordinates0 (m : Model) : list coordinateInfo :=
  initialInfo m <$> seq 0 (length (coordinateNames m)).

(** One pass of the second loop: a user-specified [IKCoordinateTask]. *)
Definition coordinateTaskStep (m : Model) (aNameArray : list string)
    (allCoordinates : list coordinateInfo) (task : IKTask)
  : exn + list coordinateInfo :=
  match task with
  | IKCoordinateTask coordName true w vt v =>
      let coordIndex := findIndex (coordinateNames m) coordName in
      if (coordIndex <? 0)%Z
      then inl (Exception "coordinate named in IKCoordinateTask not found in model")
      else
        let p := Z.to_nat coordIndex in
        let info := allCoordinates !!! p in
        match vt with
        | FromFile =>
            let j := rfindIndex aNameArray coordName in
            if (j <? 0)%Z
            then inl (Exception "coordinate task specifies from_file but no column found")
            else inr (<[p := set_weight (set_experimentalColumn info (j - 1)) w]>
                        allCoordinates)
        | ManualValue =>
            inr (<[p := set_weight (set_constantExperimentalValue info v) w]>
                   allCoordinates)
        | DefaultValue =>
            inr (<[p := set_weight info w]> allCoordinates)
        end
  | _ => inr allCoordinates
  end.

Definition coordinateTaskLoop (m : Model) (aNameArray : list string)
    (tasks : list IKTask) (allCoordinates : list coordinateInfo)
  : exn + list coordinateInfo :=
  foldl (λ acc task,
           match acc with
           | inl e => inl e
           | inr infos => coordinateTaskStep m aNameArray infos task
           end) (inr allCoordinates) tasks.

(** The three arrays of pointers filled by the last loop. *)
Record QSets : Type := mkQSets {
  qs_prescribed : list nat;
  qs_unprescribed : list nat;
  qs_unprescribedWeighted : list nat;
}.

(** One pass of the last loop of [IKTarget::buildCoordinateMap]. *)
Definition filterStep (allCoordinates : list coordinateInfo) (i : nat)
    (s : QSets) : QSets :=
  if prescribed (allCoordinates !!! i)
  then mkQSets (qs_prescribed s ++ [i]) (qs_unprescribed s)
               (qs_unprescribedWeighted s)
  else
    mkQSets (qs_prescribed s) (qs_unprescribed s ++ [i])
            (if nonzero (weight (allCoordinates !!! i))
             then qs_unprescribedWeighted s ++ [i]
             else qs_unprescribedWeighted s).

Definition filterLoop (allCoordinates : list coordinateInfo) : QSets :=
  for_loop (length allCoordinates) (filterStep allCoordinates)
           (mkQSets [] [] []).

Definition buildCoordinateMap (m : Model) (tasks : list IKTask)
    (aNameArray : list string) : exn + (list coordinateInfo * QSets) :=
  match coordinateTaskLoop m aNameArray tasks (allCoordinates0 m) with
  | inl e => inl e
  | inr allCoordinates => inr (allCoordinates, filterLoop allCoordinates)
  end.

(** [IKTarget::IKTarget]. *)
Definition newIKTarget (aModel : Model) (aIKTaskSet : list IKTask)
    (aExperimentalDataStorage : Storage) : exn + IKTarget :=
  match buildMarkerMap aModel aIKTaskSet
          (getColumnLabels aExperimentalDataStorage) with
  | inl e => inl e
  | inr mks =>
      match buildCoordinateMap aModel aIKTaskSet
              (getColumnLabels aExperimentalDataStorage) with
      | inl e => inl e
      | inr (infos, s) =>
          let np := length (qs_unprescribed s) in
          inr (mkIKTarget E aModel aExperimentalDataStorage mks infos
                 (qs_prescribed s) (qs_unprescribed s)
                 (qs_unprescribedWeighted s)
                 np
                 (for_loop np (λ i dx, <[i := _perturbation]> dx)
                    (replicate np indeterminate))
                 false false
                 indeterminate EmptyString indeterminate EmptyString true)
      end
  end.

(** [IKTarget::interrupt], the setter of the cancellation flag. *)
Definition interrupt (t : IKTarget) : IKTarget := set_interrupted t true.

(** ** Binding a frame *)

(** The first loop of [IKTarget::prepareToSolve]: prescribed coordinates.
    [value] is an uninitialised local until [getDataValue] writes it; the
    one-argument [setValue] realizes the model. *)
Definition prescribedStep (t : IKTarget) (dataRow : StateVector) (i : nat)
    (m : Model) : Model :=
  let info := _coordinateInfos t !!! (_prescribedQs t !!! i) in
  let value :=
    if (0 <=? experimentalColumn info)%Z
    then getDataValue dataRow (experimentalColumn info) indeterminate
    else constantExperimentalValue info in
  let lockedState := getLocked m (coord info) in
  setLocked (setValue (setLocked m (coord info) false) (coord info) value true)
            (coord info) lockedState.

(** The second loop: initial guess and target of unprescribed coordinates. *)
Definition unprescribedStep (t : IKTarget) (m : Model) (dataRow : StateVector)
    (i : nat) (st : list coordinateInfo * list R)
  : list coordinateInfo * list R :=
  let '(infos, qGuess) := st in
  let p := _unprescribedQs t !!! i in
  let info := infos !!! p in
  let qGuess' :=
    if (0 <=? experimentalColumn info)%Z
    then <[i := getDataValue dataRow (experimentalColumn info) (vec_get qGuess i)]>
           qGuess
    else <[i := getValue m (coord info)]> qGuess in
  let infos' :=
    if nonzero (weight info)
    then <[p := set_experimentalValue info
                  (if (0 <=? experimentalColumn info)%Z
                   then vec_get qGuess' i
                   else constantExperimentalValue info)]> infos
    else infos in
  (infos', qGuess').

(** The third loop: experimental marker positions of the frame. *)
Definition markerBindStep (dataRow : StateVector) (i : nat)
    (mks : list markerToSolve) : list markerToSolve :=
  let mk := mks !!! i in
  let c := m_experimentalColumn mk in
  let e := experimentalPosition mk in
  let e0 := getDataValue dataRow c (v0 e) in
  let e1 := getDataValue dataRow (c + 1) (v1 e) in
  let e2 := getDataValue dataRow (c + 2) (v2 e) in
  <[i := set_experimental mk (mkVec3 e0 e1 e2)
           (negb (isNAN e0 || isNAN e1 || isNAN e2))]> mks.

(** [IKTarget::prepareToSolve(aIndex, qGuess)]; [qGuess] is the caller's
    buffer, with one slot per parameter. *)
Definition prepareToSolve (t : IKTarget) (aIndex : Z) (qGuess : list R)
  : IKTarget * list R :=
  let dataRow := getStateVector (_experimentalDataStorage t) aIndex in
  let m := for_loop (length (_prescribedQs t)) (prescribedStep t dataRow)
                    (_model t) in
  let '(infos, qGuess') :=
    for_loop (length (_unprescribedQs t)) (unprescribedStep t m dataRow)
             (_coordinateInfos t, qGuess) in
  let mks := for_loop (length (_markers t)) (markerBindStep dataRow)
                      (_markers t) in
  (set_markers (set_coordinateInfos (set_model t m) infos) mks, qGuess').

(** ** The objective function *)

(** "Assemble model in new configuration": parameter [i] goes to the [i]-th
    unprescribed coordinate; only the last call asks for a realization. *)
Definition setParameters (t : IKTarget) (x : nat → R) (m : Model) : Model :=
  for_loop (_np t)
    (λ i m, setValue m (coord (_coordinateInfos t !!! (_unprescribedQs t !!! i)))
                     (x i) (Nat.eqb i (_np t - 1)))
    m.

(** The local tallies of [objectiveFunc] and [iterativeOptimization]. *)
Record Tally : Type := mkTally {
  totalWeightedSquaredErrors : R;
  totalMarkerSquaredErrors : R;
  totalCoordinateSquaredErrors : R;
  maxMarkerError : R;
  maxCoordinateError : R;
  worstMarker : Z;
  worstCoordinate : Z;
}.

Definition tally0 : Tally := mkTally 0 0 0 0 0 (-1) (-1).

(** [markerError] after the loop over the three components. *)
Definition markerSquaredError (mk : markerToSolve) : R :=
  for_loop 3
    (λ j markerError,
       let err := vget (experimentalPosition mk) j - vget (computedPosition mk) j in
       markerError + err * err)%R
    0%R.

Definition tallyMarker (i : nat) (mk : markerToSolve) (a : Tally) : Tally :=
  let markerError := markerSquaredError mk in
  let worse := Rgtb markerError (maxMarkerError a) in
  mkTally (totalWeightedSquaredErrors a + m_weight mk * markerError)
          (totalMarkerSquaredErrors a + markerError)
          (totalCoordinateSquaredErrors a)
          (if worse then markerError else maxMarkerError a)
          (maxCoordinateError a)
          (if worse then Z.of_nat i else worstMarker a)
          (worstCoordinate a).

(** [de.transformPosition] of the body-frame offset of the marker. *)
Definition markerGlobalPos (m : Model) (mk : markerToSolve) : Vec3 :=
  transformPosition m (body mk) (getOffset m (marker mk)).

(** One pass of the marker loop of [objectiveFunc]. *)
Definition objectiveMarkerStep (m : Model) (i : nat)
    (st : list markerToSolve * Tally) : list markerToSolve * Tally :=
  let '(mks, a) := st in
  let mk := mks !!! i in
  if negb (validExperimentalPosition mk) then st
  else
    let mk' := set_computedPosition mk (markerGlobalPos m mk) in
    (<[i := mk']> mks, tallyMarker i mk' a).

(** One pass of the loop over [_unprescribedWeightedQs]. *)
Definition tallyCoordinate (t : IKTarget) (m : Model) (i : nat) (a : Tally)
  : Tally :=
  let info := _coordinateInfos t !!! (_unprescribedWeightedQs t !!! i) in
  let err := (experimentalValue info - getValue m (coord info))%R in
  let coordinateError := (err * err)%R in
  let worse := Rgtb coordinateError (maxCoordinateError a) in
  mkTally (totalWeightedSquaredErrors a + weight info * coordinateError)
          (totalMarkerSquaredErrors a)
          (totalCoordinateSquaredErrors a + coordinateError)
          (maxMarkerError a)
          (if worse then coordinateError else maxCoordinateError a)
          (worstMarker a)
          (if worse then Z.of_nat i else worstCoordinate a).

(** The reporting block shared by [objectiveFunc] and
    [iterativeOptimization]. *)
Definition reportErrors (t : IKTarget) (a : Tally) : IKTarget :=
  if _printPerformanceValues t || (negb (calcDerivs t) && debug)
  then
    setErrorReportingQuantities t
      (maxMarkerError a)
      (if (worstMarker a <? 0)%Z then EmptyString
       else markerName (_model t)
              (marker (_markers t !!! Z.to_nat (worstMarker a))))
      (maxCoordinateError a)
      (if (worstCoordinate a <? 0)%Z then EmptyString
       else List.nth (coord (_coordinateInfos t !!!
                               (_unprescribedWeightedQs t !!!
                                  Z.to_nat (worstCoordinate a))))
                     (coordinateNames (_model t)) EmptyString)
  else t.

(** [IKTarget::objectiveFunc(x, new_parameters, f)]: the state reached, and
    either the exception thrown or the status with the value left in [f]. *)
Definition objectiveFunc (t : IKTarget) (x : list R)
  : IKTarget * (exn + (Z * R)) :=
  if _interrupted t then (t, inl InterruptedException)
  else
    let m := setParameters t (vec_get x) (_model t) in
    let '(mks, a) :=
      for_loop (length (_markers t)) (objectiveMarkerStep m)
               (_markers t, tally0) in
    let a' := for_loop (length (_unprescribedWeightedQs t))
                       (tallyCoordinate t m) a in
    let t' := reportErrors (set_markers (set_model t m) mks) a' in
    (t', inr (0%Z, totalWeightedSquaredErrors a')).

(** [IKTarget::printPerformance]. *)
Definition printPerformance (t : IKTarget) (x : list R) : IKTarget * option exn :=
  match objectiveFunc (set_printPerformanceValues t true) x with
  | (t', inl e) => (t', Some e)
  | (t', inr _) => (set_printPerformanceValues t' false, None)
  end.

(** ** The gradient function *)

(** One parameter of the differencing loop: perturb forward, evaluate,
    difference against the value at [x], restore. *)
Definition differenceStep (dx x : list R) (p : R) (i : nat)
    (st : IKTarget * (exn + list R)) : IKTarget * (exn + list R) :=
  match st with
  | (t, inl e) => (t, inl e)
  | (t, inr dpdx) =>
      let xp := <[i := (vec_get x i + vec_get dx i)%R]> x in
      match objectiveFunc t xp with
      | (t', inl e) => (t', inl e)
      | (t', inr (_, pf)) =>
          (t', inr (<[i := ((pf - p) / vec_get dx i)%R]> dpdx))
      end
  end.

(** Modelled from the spec: the body of
    [rdOptimizationTarget::CentralDifferences(target, dx, x, dpdx)], which
    [gradientFunc] calls, is not part of [IKTarget.cpp]; only the call is.
    The spec describes the gradient as "running forward finite differences of
    the objective itself ... reusing the same per-parameter step", and this
    definition follows those words: one evaluation at [x], one at each
    forward-perturbed point. *)
Definition CentralDifferences (t : IKTarget) (dx x dpdx : list R)
  : IKTarget * (exn + (Z * list R)) :=
  match objectiveFunc t x with
  | (t0, inl e) => (t0, inl e)
  | (t0, inr (_, p)) =>
      match for_loop (_np t) (differenceStep dx x p) (t0, inr dpdx) with
      | (t', inl e) => (t', inl e)
      | (t', inr g) => (t', inr (0%Z, g))
      end
  end.

(** [IKTarget::gradientFunc(x, new_parameters, dpdx)]. *)
Definition gradientFunc (t : IKTarget) (x dpdx : list R)
  : IKTarget * (exn + (Z * list R)) :=
  match CentralDifferences (set_calcDerivs t true) (_dx t) x dpdx with
  | (t', inl e) => (t', inl e)
  | (t', inr (status, g)) => (set_calcDerivs t' false, inr (status, g))
  end.

(** ** Residual evaluation of the iterative solver *)

(** The loop over the three components of a valid marker: the computed
    position is recorded and the row [i*3+r] of [dError] is written. *)
Definition residualComponentStep (i : nat) (globalPos : Vec3) (r : nat)
    (st : markerToSolve * list R) : markerToSolve * list R :=
  let '(mk, dError) := st in
  let mk' := set_computedPosition mk (vset (computedPosition mk) r (vget globalPos r)) in
  (mk', <[i * 3 + r :=
           (sqrt (m_weight mk') *
            (vget (experimentalPosition mk') r - vget (computedPosition mk') r))%R]>
        dError).

Definition residualMarkerStep (m : Model) (i : nat)
    (st : list markerToSolve * list R) : list markerToSolve * list R :=
  let '(mks, dError) := st in
  let mk := mks !!! i in
  if negb (validExperimentalPosition mk) then st
  else
    let '(mk', dError') :=
      for_loop 3 (residualComponentStep i (markerGlobalPos m mk)) (mk, dError) in
    (<[i := mk']> mks, dError').

(** "Q ERRORS": one row per parameter whose coordinate has a weight. *)
Definition residualCoordinateStep (t : IKTarget) (m : Model) (i : nat)
    (st : nat * list R) : nat * list R :=
  let '(row, dError) := st in
  let info := _coordinateInfos t !!! (_unprescribedQs t !!! i) in
  if nonzero (weight info)
  then (S row,
        <[row := (sqrt (weight info) *
                  (experimentalValue info - getValue m (coord info)))%R]> dError)
  else st.

(** The block that [iterativeOptimization] runs three times (first [dError],
    trial step, halved step): apply the parameters [q], then fill [dError]. *)
Definition residualPass (t : IKTarget) (q : nat → R) (dError : list R)
  : IKTarget * list R :=
  let m := setParameters t q (_model t) in
  let '(mks, d1) :=
    for_loop (length (_markers t)) (residualMarkerStep m) (_markers t, dError) in
  let '(_, d2) :=
    for_loop (_np t) (residualCoordinateStep t m) (3 * length (_markers t), d1) in
  (set_markers (set_model t m) mks, d2).

(** ** The Jacobian *)

(** Number of rows of [J] and [dError]. *)
Definition numRows (t : IKTarget) : nat :=
  3 * length (_markers t) + length (_unprescribedWeightedQs t).

Definition markerWeightsStep (t : IKTarget) (k : nat) (w : list R) : list R :=
  if negb (validExperimentalPosition (_markers t !!! k)) then w
  else <[k := sqrt (m_weight (_markers t !!! k))]> w.

Definition markerWeights (t : IKTarget) : list R :=
  for_loop (length (_markers t)) (markerWeightsStep t)
           (replicate (length (_markers t)) 0%R).

(** The marker loop of one column: rows of [pf]. *)
Definition jacobianMarkerStep (t : IKTarget) (w : list R) (m : Model) (k : nat)
    (pf : list R) : list R :=
  let mk := _markers t !!! k in
  if negb (validExperimentalPosition mk) then pf
  else
    let globalPos := markerGlobalPos m mk in
    for_loop 3
      (λ r pf, <[k * 3 + r :=
                  (vec_get w k * (vget globalPos r - vget (computedPosition mk) r))%R]>
               pf)
      pf.

(** The local state of [createJacobian] across its loop over controls. *)
Record JacobianState : Type := mkJacobianState {
  j_model : Model;
  j_xp : list R;
  j_pf : list R;
  j_J : list (list R);
  j_row : nat;
}.

(** One pass of "LOOP OVER CONTROLS".  [J] is held by columns. *)
Definition jacobianStep (t : IKTarget) (jointQs : list R) (w : list R) (i : nat)
    (s : JacobianState) : JacobianState :=
  let info := _coordinateInfos t !!! (_unprescribedQs t !!! i) in
  let c := coord info in
  let clampedState := getClamped (j_model s) c in
  let m1 := setClamped (j_model s) c false in
  let xp1 := <[i := (vec_get jointQs i + vec_get (_dx t) i)%R]> (j_xp s) in
  let m2 := setValue m1 c (vec_get xp1 i) true in
  let pf := for_loop (length (_markers t)) (jacobianMarkerStep t w m2) (j_pf s) in
  let rdx := (1 / vec_get (_dx t) i)%R in
  let J1 := <[i := (λ v, rdx * v)%R <$> pf]> (j_J s) in
  let xp2 := <[i := vec_get jointQs i]> xp1 in
  let m3 := setValue m2 c (vec_get xp2 i) false in
  let m4 := setClamped m3 c clampedState in
  if nonzero (weight info)
  then mkJacobianState m4 xp2 pf
         (<[i := <[j_row s := sqrt (weight info)]> (J1 !!! i)]> J1)
         (S (j_row s))
  else mkJacobianState m4 xp2 pf J1 (j_row s).

(** The locals before the loop: [xp] is a copy of [jointQs], [pf] is zero,
    [row] is the first row after the markers. *)
Definition jacobianInit (t : IKTarget) (jointQs : list R) (J : list (list R))
  : JacobianState :=
  mkJacobianState (_model t) jointQs (replicate (numRows t) 0%R) J
                  (3 * length (_markers t)).

Definition jacobianLoop (t : IKTarget) (jointQs : list R) (J : list (list R))
  : JacobianState :=
  for_loop (_np t) (jacobianStep t jointQs (markerWeights t))
    (jacobianInit t jointQs J).

(** [IKTarget::createJacobian(jointQs, J)]. *)
Definition createJacobian (t : IKTarget) (jointQs : list R) (J : list (list R))
  : IKTarget * list (list R) :=
  let s := jacobianLoop t jointQs J in
  (set_model t (j_model s), j_J s).

(** ** The iterative solver *)

Definition errorTol : R := 1e-4.
Definition maxIter : nat := 1000.

(** The locals of [iterativeOptimization] that its loops read and write. *)
Record SolverState : Type := mkSolverState {
  s_target : IKTarget;
  s_results : list R;
  s_J : list (list R);
  s_dQ : list R;
  s_dError : list R;
  previousDErrorNorm : R;
  currentDErrorNorm : R;
  tempDErrorNorm : R;
  deltaDErrorNorm : R;
  iter : nat;
}.

(** [results[i] + dQ(i, 0)]. *)
Definition trialPoint (results dQ : list R) (i : nat) : R :=
  (vec_get results i + vec_get dQ i)%R.

(** Everything before the [while]: zeroed buffers, first [dError]. *)
Definition solverInit (t : IKTarget) (results : list R) : SolverState :=
  let '(t', dError) :=
    residualPass t (vec_get results) (replicate (numRows t) 0%R) in
  mkSolverState t' results
    (replicate (_np t) (replicate (numRows t) 0%R))
    (replicate (_np t) 0%R)
    dError
    0 (norm dError) 0 100 0.

(** From the top of the loop body to the first [tempDErrorNorm]: Jacobian,
    least-squares solve, trial step. *)
Definition solveStep (s : SolverState) : SolverState :=
  let previous := currentDErrorNorm s in
  let '(t1, J) := createJacobian (s_target s) (s_results s) (s_J s) in
  let sol := dgelsy J (s_dError s) in
  let dQ := vec_get sol <$> seq 0 (_np t1) in
  let '(t2, dError) := residualPass t1 (trialPoint (s_results s) dQ) (s_dError s) in
  mkSolverState t2 (s_results s) J dQ dError
    previous (currentDErrorNorm s) (norm dError) (deltaDErrorNorm s) (iter s).

(** The body of the inner [while]: halve [dQ] and evaluate again. *)
Definition halveStep (s : SolverState) : SolverState :=
  let dQ := (λ v, v * 0.5)%R <$> s_dQ s in
  let '(t', dError) :=
    residualPass (s_target s) (trialPoint (s_results s) dQ) (s_dError s) in
  mkSolverState t' (s_results s) (s_J s) dQ dError
    (previousDErrorNorm s) (currentDErrorNorm s) (norm dError)
    (deltaDErrorNorm s) (iter s).

(** [while (tempDErrorNorm > previousDErrorNorm)]; [None] when [fuel] passes
    of the loop did not end it. *)
Fixpoint backtrack (fuel : nat) (s : SolverState) : option SolverState :=
  if Rgtb (tempDErrorNorm s) (previousDErrorNorm s)
  then match fuel with
       | 0 => None
       | S fuel' => backtrack fuel' (halveStep s)
       end
  else Some s.

(** "Update error records", "Make the change in configuration", [iter++]. *)
Definition acceptStep (s : SolverState) : SolverState :=
  let current := norm (s_dError s) in
  mkSolverState (s_target s)
    ((λ i, trialPoint (s_results s) (s_dQ s) i) <$> seq 0 (length (s_results s)))
    (s_J s) (s_dQ s) (s_dError s)
    (previousDErrorNorm s) current (tempDErrorNorm s)
    (Rabs (current - previousDErrorNorm s)) (S (iter s)).

(** One pass of the outer [while]. *)
Definition iteration (fuel : nat) (s : SolverState) : option SolverState :=
  acceptStep <$> backtrack fuel (solveStep s).

(** [deltaDErrorNorm > errorTol && iter < maxIter]. *)
Definition continues (s : SolverState) : bool :=
  Rgtb (deltaDErrorNorm s) errorTol && (iter s <? maxIter).

(** The outer [while]; [gas] bounds the number of passes for the recursion,
    [fuel] each inner loop. *)
Fixpoint solverLoop (fuel gas : nat) (s : SolverState) : option SolverState :=
  if continues s
  then match gas with
       | 0 => None
       | S gas' =>
           match iteration fuel s with
           | None => None
           | Some s' => solverLoop fuel gas' s'
           end
       end
  else Some s.

(** One pass of the marker loop after the solve: the stored computed
    position is read, not written. *)
Definition finalMarkerStep (t : IKTarget) (i : nat) (a : Tally) : Tally :=
  let mk := _markers t !!! i in
  if negb (validExperimentalPosition mk) then a else tallyMarker i mk a.

(** Everything after the [while]: the parameters are applied to the model,
    the error report is built, 0 is returned. *)
Definition solverFinish (s : SolverState) : IKTarget * list R * Z :=
  let t := s_target s in
  let m := setParameters t (vec_get (s_results s)) (_model t) in
  let t1 := set_model t m in
  let a := for_loop (length (_markers t1)) (finalMarkerStep t1) tally0 in
  let a' := for_loop (length (_unprescribedWeightedQs t1)) (tallyCoordinate t1 m) a in
  (reportErrors t1 a', s_results s, 0%Z).

(** [IKTarget::iterativeOptimization(results)]: the target, the updated
    [results] and the returned status. *)
Definition iterativeOptimization (fuel : nat) (t : IKTarget) (results : list R)
  : option (IKTarget * list R * Z) :=
  solverFinish <$> solverLoop fuel maxIter (solverInit t results).

(** ** Reporting *)

(** [IKTarget::getComputedMarkerLocations]. *)
Definition getComputedMarkerLocations (t : IKTarget) : list R :=
  for_loop (length (_markers t))
    (λ i a, let p := computedPosition (_markers t !!! i) in
            a ++ [v0 p; v1 p; v2 p])
    [].

(** [IKTarget::getExperimentalMarkerLocations]. *)
Definition getExperimentalMarkerLocations (t : IKTarget) : list R :=
  for_loop (length (_markers t))
    (λ i a, let p := experimentalPosition (_markers t !!! i) in
            a ++ [v0 p; v1 p; v2 p])
    [].


(** [Array<T>::setSize(n)] on the caller's array [a], whose default value is
    [d]: the array is cut to [n] entries, or filled up to [n] with [d]. *)
Definition setSize {A : Type} (n : nat) (d : A) (a : list A) : list A :=
  take n a ++ replicate (n - length a) d.

(** [coord->getName()] of the coordinate behind pointer [p]. *)
Definition coordinateName (t : IKTarget) (p : nat) : string :=
  List.nth (coord (_coordinateInfos t !!! p)) (coordinateNames (_model t))
           EmptyString.

(** [IKTarget::getPrescribedCoordinateValues]; [aQValues] is the caller's
    array and [d] its default value. *)
Definition getPrescribedCoordinateValues (t : IKTarget) (d : R)
    (aQValues : list R) : list R :=
  for_loop (length (_prescribedQs t))
    (λ i a, <[i := getValue (_model t)
                     (coord (_coordinateInfos t !!! (_prescribedQs t !!! i)))]> a)
    (setSize (length (_prescribedQs t)) d aQValues).

(** [IKTarget::getUnprescribedCoordinateNames]. *)
Definition getUnprescribedCoordinateNames (t : IKTarget) (d : string)
    (aNameArray : list string) : list string :=
  for_loop (length (_unprescribedQs t))
    (λ i a, <[i := coordinateName t (_unprescribedQs t !!! i)]> a)
    (setSize (length (_unprescribedQs t)) d aNameArray).

(** [IKTarget::getPrescribedCoordinateNames]. *)
Definition getPrescribedCoordinateNames (t : IKTarget) (d : string)
    (aNameArray : list string) : list string :=
  for_loop (length (_prescribedQs t))
    (λ i a, <[i := coordinateName t (_prescribedQs t !!! i)]> a)
    (setSize (length (_prescribedQs t)) d aNameArray).

(** [IKTarget::getOutputMarkerNames]. *)
Definition getOutputMarkerNames (t : IKTarget) (d : string)
    (aNameArray : list string) : list string :=
  for_loop (length (_markers t))
    (λ i a, <[i := markerName (_model t) (marker (_markers t !!! i))]> a)
    (setSize (length (_markers t)) d aNameArray).

End Target.

(** ** Invariants and reachable states (specification side) *)

Section Invariants.
Context `{E : Engine}.

(** The fields of a [coordinateInfo] that only the constructor writes. *)
Definition info_static (q : coordinateInfo) : nat * bool * Z * R * R :=
  (coord q, prescribed q, experimentalColumn q, constantExperimentalValue q,
   weight q).

(** The fields of a [markerToSolve] that no residual evaluation writes. *)
Definition marker_bound (mk : markerToSolve) : nat * nat * Z * R * Vec3 * bool :=
  (marker mk, body mk, m_experimentalColumn mk, m_weight mk,
   experimentalPosition mk, validExperimentalPosition mk).

(** What construction establishes about the three arrays of pointers. *)
Record well_formed (t : IKTarget) : Prop := mkWellFormed {
  wf_np : _np t = length (_unprescribedQs t);
  wf_coord : ∀ p, p < length (_coordinateInfos t) →
                  coord (_coordinateInfos t !!! p) = p;
  wf_prescribed : _prescribedQs t =
     filter (λ p, prescribed (_coordinateInfos t !!! p) = true)
            (seq 0 (length (_coordinateInfos t)));
  wf_unprescribed : _unprescribedQs t =
     filter (λ p, prescribed (_coordinateInfos t !!! p) = false)
            (seq 0 (length (_coordinateInfos t)));
  wf_weighted : _unprescribedWeightedQs t =
     filter (λ p, nonzero (weight (_coordinateInfos t !!! p)) = true)
            (_unprescribedQs t);
}.

(** One call of a public method, or a change of the shared model made by
    the caller between two calls. *)
Inductive method_call : IKTarget → IKTarget → Prop :=
| call_prepareToSolve t aIndex qGuess :
    method_call t (prepareToSolve t aIndex qGuess).1
| call_objectiveFunc t x :
    method_call t (objectiveFunc t x).1
| call_gradientFunc t x dpdx :
    method_call t (gradientFunc t x dpdx).1
| call_createJacobian t jointQs J :
    method_call t (createJacobian t jointQs J).1
| call_iterativeOptimization fuel t results r :
    iterativeOptimization fuel t results = Some r →
    method_call t r.1.1
| call_printPerformance t x :
    method_call t (printPerformance t x).1
| call_interrupt t :
    method_call t (interrupt t)
| call_external t m :
    method_call t (set_model t m).

(** The control points of [iterativeOptimization]. *)
Inductive phase : Type := LoopHead | Backtracking.

(** [Reached t results ph s]: the run of [iterativeOptimization] on [t] and
    [results] passes through state [s], at the head of the outer loop or
    right after a trial evaluation. *)
Inductive Reached (t : IKTarget) (results : list R)
  : phase → SolverState → Prop :=
| reach_init :
    Reached t results LoopHead (solverInit t results)
| reach_solve s :
    Reached t results LoopHead s → continues s = true →
    Reached t results Backtracking (solveStep s)
| reach_halve s :
    Reached t results Backtracking s →
    Rgtb (tempDErrorNorm s) (previousDErrorNorm s) = true →
    Reached t results Backtracking (halveStep s)
| reach_accept s :
    Reached t results Backtracking s →
    Rgtb (tempDErrorNorm s) (previousDErrorNorm s) = false →
    Reached t results LoopHead (acceptStep s).

(** The state after [n] passes of the outer loop, when the loop makes that
    many: each pass starts from a state in which the loop test holds. *)
Fixpoint passes (fuel n : nat) (s : SolverState) : option SolverState :=
  match n with
  | 0 => Some s
  | S n' =>
      match passes fuel n' s with
      | Some s' => if continues s' then iteration fuel s' else None
      | None => None
      end
  end.

(** The rows that a residual evaluation leaves in [dError]. *)
Record ResidualRows (t : IKTarget) (dError : list R) : Prop := mkResidualRows {
  rr_length :
    length dError =
    3 * length (_markers t) + length (_unprescribedWeightedQs t);
  rr_valid : ∀ i mk r,
    _markers t !! i = Some mk → validExperimentalPosition mk = true → r < 3 →
    dError !! (3 * i + r) =
    Some (sqrt (m_weight mk) *
          (vget (experimentalPosition mk) r - vget (computedPosition mk) r))%R;
  rr_invalid : ∀ i mk r,
    _markers t !! i = Some mk → validExperimentalPosition mk = false → r < 3 →
    dError !! (3 * i + r) = Some 0%R;
  rr_coordinates : ∀ k p,
    _unprescribedWeightedQs t !! k = Some p →
    dError !! (3 * length (_markers t) + k) =
    Some (sqrt (weight (_coordinateInfos t !!! p)) *
          (experimentalValue (_coordinateInfos t !!! p) -
           getValue (_model t) (coord (_coordinateInfos t !!! p))))%R;
}.

(** The model in which column [i] of the Jacobian transforms the markers:
    after the passes for the controls before [i], control [i] unclamped and
    perturbed forward. *)
Definition perturbedModel (t : IKTarget) (jointQs : list R) (J : list (list R))
    (i : nat) : Model :=
  let s := for_loop i (jacobianStep t jointQs (markerWeights t))
             (jacobianInit t jointQs J) in
  let c := coord (_coordinateInfos t !!! (_unprescribedQs t !!! i)) in
  setValue (setClamped (j_model s) c false) c
           (vec_get jointQs i + vec_get (_dx t) i)%R true.

(** The weighted squared error of one marker, for the computed position [g]. *)
Definition markerTerm (mk : markerToSolve) (g : Vec3) : R :=
  (m_weight mk *
   ((vget (experimentalPosition mk) 0 - vget g 0) *
    (vget (experimentalPosition mk) 0 - vget g 0) +
    (vget (experimentalPosition mk) 1 - vget g 1) *
    (vget (experimentalPosition mk) 1 - vget g 1) +
    (vget (experimentalPosition mk) 2 - vget g 2) *
    (vget (experimentalPosition mk) 2 - vget g 2)))%R.

(** The weighted squared error of the coordinate behind pointer [p]. *)
Definition coordinateTerm (t : IKTarget) (m : Model) (p : nat) : R :=
  let info := _coordinateInfos t !!! p in
  (weight info *
   ((experimentalValue info - getValue m (coord info)) *
    (experimentalValue info - getValue m (coord info))))%R.

(** A marker after a residual evaluation in model [m]: a valid marker holds
    its transformed position, an invalid one is skipped. *)
Definition evaluated (m : Model) (mk : markerToSolve) : markerToSolve :=
  if validExperimentalPosition mk
  then set_computedPosition mk (markerGlobalPos m mk)
  else mk.

(** What a residual evaluation leaves untouched in the target. *)
Record eval_frame (t t' : IKTarget) : Prop := mkEvalFrame {
  ef_infos : _coordinateInfos t' = _coordinateInfos t;
  ef_prescribed : _prescribedQs t' = _prescribedQs t;
  ef_unprescribed : _unprescribedQs t' = _unprescribedQs t;
  ef_weighted : _unprescribedWeightedQs t' = _unprescribedWeightedQs t;
  ef_np : _np t' = _np t;
  ef_dx : _dx t' = _dx t;
  ef_interrupted : _interrupted t' = _interrupted t;
  ef_markers : marker_bound <$> _markers t' = marker_bound <$> _markers t;
}.

(** The classification of the coordinates held by a target. *)
Definition classification (t : IKTarget)
  : list nat * list nat * list nat * list (nat * bool * Z * R * R) :=
  (_prescribedQs t, _unprescribedQs t, _unprescribedWeightedQs t,
   info_static <$> _coordinateInfos t).

(** [dError] has its fixed length and holds zero in the rows of the markers
    without a valid experimental position. *)
Record ZeroRows (t : IKTarget) (dError : list R) : Prop := mkZeroRows {
  zr_length :
    length dError =
    3 * length (_markers t) + length (_unprescribedWeightedQs t);
  zr_invalid : ∀ i mk r,
    _markers t !! i = Some mk → validExperimentalPosition mk = false → r < 3 →
    dError !! (3 * i + r) = Some 0%R;
}.

(** The row of [dError] for component [r] of a valid marker, in model [m]. *)
Definition markerRow (m : Model) (mk : markerToSolve) (r : nat) : R :=
  (sqrt (m_weight mk) *
   (vget (experimentalPosition mk) r - vget (markerGlobalPos m mk) r))%R.

(** The row of [dError] for the coordinate behind pointer [p]. *)
Definition coordinateRow (t : IKTarget) (m : Model) (p : nat) : R :=
  let info := _coordinateInfos t !!! p in
  (sqrt (weight info) * (experimentalValue info - getValue m (coord info)))%R.

(** The pointers of [qs] whose coordinate has a nonzero weight. *)
Definition weightedOf (t : IKTarget) (qs : list nat) : list nat :=
  filter (λ p, nonzero (weight (_coordinateInfos t !!! p)) = true) qs.

(** The markers without a valid experimental position are the same objects,
    field by field, in [mks'] as in [mks]. *)
Definition keeps_invalid (mks mks' : list markerToSolve) : Prop :=
  ∀ i mk, mks !! i = Some mk → validExperimentalPosition mk = false →
          mks' !! i = Some mk.

(** The row of the trailing block that belongs to parameter [i]: the
    number of weighted coordinates among the parameters before it. *)
Definition weightedRank (t : IKTarget) (i : nat) : nat :=
  length (weightedOf t (take i (_unprescribedQs t))).

(** What [createJacobian] leaves in column [i] of [J]. *)
Record JacobianColumn (t : IKTarget) (jointQs : list R) (J : list (list R))
    (i : nat) (col : list R) : Prop := mkJacobianColumn {
  jc_length : length col = numRows t;
  jc_valid : ∀ k mk r,
    _markers t !! k = Some mk → validExperimentalPosition mk = true → r < 3 →
    col !! (3 * k + r) =
    Some (sqrt (m_weight mk) *
          (vget (markerGlobalPos (perturbedModel t jointQs J i) mk) r -
           vget (computedPosition mk) r) / vec_get (_dx t) i)%R;
  jc_invalid : ∀ k mk r,
    _markers t !! k = Some mk → validExperimentalPosition mk = false → r < 3 →
    col !! (3 * k + r) = Some 0%R;
  jc_diagonal :
    nonzero (weight (_coordinateInfos t !!! (_unprescribedQs t !!! i))) = true →
    _unprescribedWeightedQs t !! weightedRank t i
      = Some (_unprescribedQs t !!! i) ∧
    col !! (3 * length (_markers t) + weightedRank t i) =
    Some (sqrt (weight (_coordinateInfos t !!! (_unprescribedQs t !!! i))));
  jc_off_diagonal : ∀ j,
    3 * length (_markers t) ≤ j → j < numRows t →
    (nonzero (weight (_coordinateInfos t !!! (_unprescribedQs t !!! i))) = true →
     j ≠ 3 * length (_markers t) + weightedRank t i) →
    col !! j = Some 0%R;
}.

(** The value that [objectiveFunc] leaves in [f]. *)
Definition objectiveValue (t : IKTarget) (x : list R) : R :=
  match (objectiveFunc t x).2 with
  | inr (_, f) => f
  | inl _ => 0%R
  end.

(** [x] with parameter [i] perturbed forward by the step [dx[i]]. *)
Definition perturbed (dx x : list R) (i : nat) : list R :=
  <[i := (vec_get x i + vec_get dx i)%R]> x.

(** The target on which [gradientFunc] evaluates the objective for
    parameter [i]: the evaluation at [x] and those for the parameters
    before [i] have been made. *)
Definition gradientState (t : IKTarget) (x : list R) (i : nat) : IKTarget :=
  for_loop i (λ j t', (objectiveFunc t' (perturbed (_dx t) x j)).1)
           (objectiveFunc (set_calcDerivs t true) x).1.

(** The condition under which [buildMarkerMap] goes past a task without
    throwing: an applied marker task names a marker of the model and, if its
    weight is not zero, has its [_tx] column among the labels. *)
Definition markerTaskAccepted (m : Model) (aNameArray : list string)
    (task : IKTask) : Prop :=
  match task with
  | IKMarkerTask markerName true w =>
      is_Some (markerSetGet m markerName) ∧
      (w ≠ 0%R → (0 <= findIndex aNameArray (markerName +:+ "_tx"))%Z)
  | _ => True
  end.

(** The same for [buildCoordinateMap]: an applied coordinate task names a
    coordinate of the model and, if its value comes from the file, has its
    column among the labels. *)
Definition coordinateTaskAccepted (m : Model) (aNameArray : list string)
    (task : IKTask) : Prop :=
  match task with
  | IKCoordinateTask coordName true w vt v =>
      (0 <= findIndex (coordinateNames m) coordName)%Z ∧
      (vt = FromFile → (0 <= rfindIndex aNameArray coordName)%Z)
  | _ => True
  end.

(** The marker that an applied marker task of nonzero weight gives, as
    (marker, body, column, weight); nothing for any other task. *)
Definition markerOfTask (m : Model) (aNameArray : list string) (task : IKTask)
  : option (nat * nat * Z * R) :=
  match task with
  | IKMarkerTask markerName true w =>
      if nonzero w
      then match markerSetGet m markerName with
           | Some modelMarker =>
               Some (modelMarker, getBody m modelMarker,
                     (findIndex aNameArray (markerName +:+ "_tx") - 1)%Z, w)
           | None => None
           end
      else None
  | _ => None
  end.

(** The fields of a [markerToSolve] that only the constructor writes. *)
Definition marker_static (mk : markerToSolve) : nat * nat * Z * R :=
  (marker mk, body mk, m_experimentalColumn mk, m_weight mk).

(** The coordinate that a task addresses, if it is an applied coordinate
    task. *)
Definition coordinateOfTask (m : Model) (task : IKTask) : option nat :=
  match task with
  | IKCoordinateTask coordName true _ _ _ =>
      Some (Z.to_nat (findIndex (coordinateNames m) coordName))
  | _ => None
  end.

(** A marker once the frame of [dataRow] is bound: its experimental position
    is read from its three columns and is valid unless a component is
    not-a-number. *)
Definition boundMarker (dataRow : StateVector) (mk : markerToSolve)
  : markerToSolve :=
  let c := m_experimentalColumn mk in
  let e0 := getDataValue dataRow c (v0 (experimentalPosition mk)) in
  let e1 := getDataValue dataRow (c + 1) (v1 (experimentalPosition mk)) in
  let e2 := getDataValue dataRow (c + 2) (v2 (experimentalPosition mk)) in
  set_experimental mk (mkVec3 e0 e1 e2)
    (negb (isNAN e0 || isNAN e1 || isNAN e2)).

(** The initial guess that [prepareToSolve] leaves for parameter [i], in the
    model [m] reached after the prescribed coordinates are set. *)
Definition guessOf (t : IKTarget) (m : Model) (dataRow : StateVector)
    (qGuess : list R) (i : nat) : R :=
  let info := _coordinateInfos t !!! (_unprescribedQs t !!! i) in
  if (0 <=? experimentalColumn info)%Z
  then getDataValue dataRow (experimentalColumn info) (vec_get qGuess i)
  else getValue m (coord info).


(** ** The error report (specification side) *)

(** [mx] and index [w] are what a scan of the first [n] errors leaves in a
    running maximum that starts at 0 with index -1 and is replaced on a
    strictly larger error only. *)
Definition worst_at (valid : nat → bool) (err : nat → R) (n : nat)
    (mx : R) (w : Z) : Prop :=
  (∀ k, k < n → valid k = true → (err k <= mx)%R) ∧
  ((mx = 0%R ∧ w = (-1)%Z) ∨
   ∃ k, k < n ∧ w = Z.of_nat k ∧ valid k = true ∧ err k = mx ∧ (0 < mx)%R ∧
        ∀ j, j < k → valid j = true → (err j < mx)%R).

(** The reported pair: [mx] bounds every error; it is 0 with an empty name
    when no error is positive, and otherwise the error of the first entry
    that attains it, reported under the name of that entry. *)
Definition is_worst (valid : nat → bool) (err : nat → R) (name : nat → string)
    (n : nat) (mx : R) (nm : string) : Prop :=
  (∀ k, k < n → valid k = true → (err k <= mx)%R) ∧
  ((mx = 0%R ∧ nm = EmptyString) ∨
   ∃ k, k < n ∧ valid k = true ∧ err k = mx ∧ (0 < mx)%R ∧ nm = name k ∧
        ∀ j, j < k → valid j = true → (err j < mx)%R).

(** The squared error of the [k]-th weighted coordinate in model [m]. *)
Definition coordinateSquaredError (t : IKTarget) (m : Model) (k : nat) : R :=
  let info := _coordinateInfos t !!! (_unprescribedWeightedQs t !!! k) in
  ((experimentalValue info - getValue m (coord info)) *
   (experimentalValue info - getValue m (coord info)))%R.

(** The error report of [t] describes the markers and coordinates of [t]:
    the worst squared marker error over the stored computed positions, and
    the worst squared coordinate error in the model of [t]. *)
Definition worst_reported (t : IKTarget) : Prop :=
  is_worst (λ k, validExperimentalPosition (_markers t !!! k))
           (λ k, markerSquaredError (_markers t !!! k))
           (λ k, markerName (_model t) (marker (_markers t !!! k)))
           (length (_markers t))
           (_worstMarkerError t) (_nameOfWorstMarker t) ∧
  is_worst (λ _, true)
           (coordinateSquaredError t (_model t))
           (λ k, List.nth (coord (_coordinateInfos t !!!
                                    (_unprescribedWeightedQs t !!! k)))
                          (coordinateNames (_model t)) EmptyString)
           (length (_unprescribedWeightedQs t))
           (_worstCoordinateError t) (_nameOfWorstCoordinate t).

(** The four quantities written by [setErrorReportingQuantities]. *)
Definition errorReport (t : IKTarget) : R * string * R * string :=
  (_worstMarkerError t, _nameOfWorstMarker t,
   _worstCoordinateError t, _nameOfWorstCoordinate t).


(** ** The residual vector (specification side) *)

(** The three rows of a marker in the residual vector, over the computed
    position it stores. *)
Definition residualVec (mk : markerToSolve) : Vec3 :=
  if validExperimentalPosition mk
  then mkVec3
         (sqrt (m_weight mk) *
          (vget (experimentalPosition mk) 0 - vget (computedPosition mk) 0))
         (sqrt (m_weight mk) *
          (vget (experimentalPosition mk) 1 - vget (computedPosition mk) 1))
         (sqrt (m_weight mk) *
          (vget (experimentalPosition mk) 2 - vget (computedPosition mk) 2))
  else mkVec3 0 0 0.

(** The residual vector of a target: the rows of the markers, then those of
    the weighted coordinates in the model of the target. *)
Definition residualVector (t : IKTarget) : list R :=
  (_markers t ≫=
     (λ mk, [v0 (residualVec mk); v1 (residualVec mk); v2 (residualVec mk)]))
  ++ (coordinateRow t (_model t) <$> _unprescribedWeightedQs t).

(** The weighted sum of squared errors of a target as it stands: over the
    stored computed positions and the current coordinate values. *)
Definition storedObjective (t : IKTarget) : R :=
  (Rsum ((λ mk, markerTerm mk (computedPosition mk)) <$>
         filter (λ mk, validExperimentalPosition mk = true) (_markers t)) +
   Rsum (coordinateTerm t (_model t) <$> _unprescribedWeightedQs t))%R.

End Invariants.

(** ** A small concrete model

    One sliding coordinate [q] and one marker [M] fixed to the ground, so
    that the marker does not move with [q] and every column of the Jacobian
    is zero; the least-squares routine then hands back the minimum-norm
    solution, zero.  The data file has the columns
    [time, M_tx, M_ty, M_tz, q]. *)

Definition groundEngine : Engine := {|
  Model := list R;
  coordinateNames := λ _, ["q"%string];
  getValue := λ m i, vec_get m i;
  setValue := λ m i v _, <[i := v]> m;
  getDefaultValue := λ _ _, 0%R;
  getLocked := λ _ _, false;
  setLocked := λ m _ _, m;
  isConstrained := λ _ _, false;
  getClamped := λ _ _, false;
  setClamped := λ m _ _, m;
  markerSetGet := λ _ s, if String.eqb s "M" then Some 0 else None;
  markerName := λ _ _, "M"%string;
  getBody := λ _ _, 0;
  getOffset := λ _ _, mkVec3 0 0 0;
  transformPosition := λ _ _ p, p;
  StateVector := list R;
  getDataValue := λ row c old,
    if (c <? 0)%Z then old else default old (row !! Z.to_nat c);
  isNAN := λ _, false;
  dgelsy := λ _ b, (λ _, 0%R) <$> b;
  indeterminate := 0%R;
  indeterminate_flag := false;
|}.

Definition groundTasks : list IKTask :=
  [IKMarkerTask "M" true 1; IKCoordinateTask "q" true 0 FromFile 0].

Definition groundStorage : @Storage groundEngine :=
  @mkStorage groundEngine
    ["time"; "M_tx"; "M_ty"; "M_tz"; "q"]%string
    (λ _, [1; 0; 0; 5]%R).

(** The target as the constructor leaves it. *)
Definition groundTarget0 : @IKTarget groundEngine :=
  @mkIKTarget groundEngine [0%R] groundStorage
    [mkMarker 0 0 0 1 (mkVec3 0 0 0) (mkVec3 0 0 0) false]
    [mkInfo 0 false 3 0 0 0]
    [] [0] []
    1 [_perturbation]
    false false 0 EmptyString 0 EmptyString true.

(** The target once frame 0 is bound: [M] is expected at (1, 0, 0).  The
    coordinate of the model holds [q]; [b] is the cancellation flag. *)
Definition groundAt (q : R) (b : bool) : @IKTarget groundEngine :=
  @mkIKTarget groundEngine [q] groundStorage
    [mkMarker 0 0 0 1 (mkVec3 0 0 0) (mkVec3 1 0 0) true]
    [mkInfo 0 false 3 0 0 0]
    [] [0] []
    1 [_perturbation]
    b false 0 EmptyString 0 EmptyString true.

Definition groundTarget : @IKTarget groundEngine := groundAt 0 false.

(** The same target after a call of [interrupt]. *)
Definition groundInterrupted : @IKTarget groundEngine :=
  @interrupt groundEngine groundTarget.

(** The residual of the ground target: [M] is one unit away along x,
    wherever the coordinate is. *)
Definition groundResidual : list R :=
  [(sqrt 1 * (1 - 0))%R; (sqrt 1 * (0 - 0))%R; (sqrt 1 * (0 - 0))%R].

(** The states of the solver on the ground target started at [q = 5]:
    before the loop, after the trial step, and after the step is accepted. *)
Definition groundState0 (b : bool) : @SolverState groundEngine :=
  @mkSolverState groundEngine (groundAt 5 b) [5%R] [[0; 0; 0]%R] [0%R]
    groundResidual 0 (norm groundResidual) 0 100 0.

Definition groundState1 (b : bool) : @SolverState groundEngine :=
  @mkSolverState groundEngine (groundAt (5 + 0) b) [5%R]
    [[(1 / _perturbation * (sqrt 1 * (0 - 0)))%R;
      (1 / _perturbation * (sqrt 1 * (0 - 0)))%R;
      (1 / _perturbation * (sqrt 1 * (0 - 0)))%R]]
    [0%R]
    groundResidual (norm groundResidual) (norm groundResidual)
    (norm groundResidual) 100 0.

Definition groundState2 (b : bool) : @SolverState groundEngine :=
  @mkSolverState groundEngine (groundAt (5 + 0) b)
    [(5 + 0)%R]
    [[(1 / _perturbation * (sqrt 1 * (0 - 0)))%R;
      (1 / _perturbation * (sqrt 1 * (0 - 0)))%R;
      (1 / _perturbation * (sqrt 1 * (0 - 0)))%R]]
    [0%R]
    groundResidual (norm groundResidual) (norm groundResidual)
    (norm groundResidual)
    (Rabs (norm groundResidual - norm groundResidual)) 1.


(** The target that the constructor leaves when only the marker task is
    given: the coordinate keeps the defaults. *)
Definition groundTargetM : @IKTarget groundEngine :=
  @mkIKTarget groundEngine [0%R] groundStorage
    [mkMarker 0 0 0 1 (mkVec3 0 0 0) (mkVec3 0 0 0) false]
    [mkInfo 0 false (-1) 0 0 0]
    [] [0] []
    1 [_perturbation]
    false false 0 EmptyString 0 EmptyString true.

(** The bound target with [_printPerformanceValues] set, and the states of
    the solver on it. *)
Definition groundPrinting (q : R) : @IKTarget groundEngine :=
  @set_printPerformanceValues groundEngine (groundAt q false) true.

Definition groundPrinting0 : @SolverState groundEngine :=
  @mkSolverState groundEngine (groundPrinting 5) [5%R] [[0; 0; 0]%R] [0%R]
    groundResidual 0 (norm groundResidual) 0 100 0.

Definition groundPrinting1 : @SolverState groundEngine :=
  @mkSolverState groundEngine (groundPrinting (5 + 0)) [5%R]
    [[(1 / _perturbation * (sqrt 1 * (0 - 0)))%R;
      (1 / _perturbation * (sqrt 1 * (0 - 0)))%R;
      (1 / _perturbation * (sqrt 1 * (0 - 0)))%R]]
    [0%R]
    groundResidual (norm groundResidual) (norm groundResidual)
    (norm groundResidual) 100 0.

Definition groundPrinting2 : @SolverState groundEngine :=
  @mkSolverState groundEngine (groundPrinting (5 + 0))
    [(5 + 0)%R]
    [[(1 / _perturbation * (sqrt 1 * (0 - 0)))%R;
      (1 / _perturbation * (sqrt 1 * (0 - 0)))%R;
      (1 / _perturbation * (sqrt 1 * (0 - 0)))%R]]
    [0%R]
    groundResidual (norm groundResidual) (norm groundResidual)
    (norm groundResidual)
    (Rabs (norm groundResidual - norm groundResidual)) 1.

(** * Properties *)

(** ** Loops and comparisons *)

Lemma for_loop_0 {A : Type} (body : nat → A → A) (a : A) :
  for_loop 0 body a = a.
Proof. reflexivity. Qed.

Lemma for_loop_S {A : Type} (n : nat) (body : nat → A → A) (a : A) :
  for_loop (S n) body a = body n (for_loop n body a).
Proof.
  unfold for_loop. rewrite seq_S, foldl_app. reflexivity.
Qed.

(** The invariant rule of a counted loop. *)
Lemma for_loop_ind {A : Type} (P : nat → A → Prop) (n : nat)
    (body : nat → A → A) (a : A) :
  P 0 a →
  (∀ i acc, i < n → P i acc → P (S i) (body i acc)) →
  P n (for_loop n body a).
Proof.
  intros H0 Hstep.
  assert (∀ k, k ≤ n → P k (for_loop k body a)) as Hall.
  { induction k as [|k IH]; intros Hk.
    - exact H0.
    - rewrite for_loop_S. apply Hstep; [lia|]. apply IH. lia. }
  apply Hall. lia.
Qed.

Lemma Rgtb_true (a b : R) : (a > b)%R → Rgtb a b = true.
Proof. intros H. unfold Rgtb. destruct (Rgt_dec a b); [reflexivity|contradiction]. Qed.

Lemma Rgtb_false (a b : R) : (a <= b)%R → Rgtb a b = false.
Proof. intros H. unfold Rgtb. destruct (Rgt_dec a b); [lra|reflexivity]. Qed.

Lemma Rgtb_false_le (a b : R) : Rgtb a b = false → (a <= b)%R.
Proof. unfold Rgtb. destruct (Rgt_dec a b); [discriminate|intros _; lra]. Qed.

Lemma Rgtb_true_gt (a b : R) : Rgtb a b = true → (a > b)%R.
Proof. unfold Rgtb. destruct (Rgt_dec a b); [intros _; assumption|discriminate]. Qed.

Lemma nonzero_0 : nonzero 0 = false.
Proof. unfold nonzero. destruct (Req_dec_T 0 0); [reflexivity|contradiction]. Qed.

Lemma nonzero_false (w : R) : nonzero w = false ↔ w = 0%R.
Proof.
  unfold nonzero. destruct (Req_dec_T w 0) as [Hw|Hw]; split; intros H.
  - exact Hw.
  - reflexivity.
  - discriminate H.
  - contradiction.
Qed.

Lemma nonzero_true (w : R) : nonzero w = true ↔ w ≠ 0%R.
Proof.
  unfold nonzero. destruct (Req_dec_T w 0) as [Hw|Hw]; split; intros H.
  - discriminate H.
  - contradiction.
  - exact Hw.
  - reflexivity.
Qed.

Lemma Rsum_app (l1 l2 : list R) : Rsum (l1 ++ l2) = (Rsum l1 + Rsum l2)%R.
Proof.
  unfold Rsum. induction l1 as [|x l1 IH]; simpl; [lra|]. rewrite IH. lra.
Qed.

Lemma norm_nonneg (v : list R) : (0 <= norm v)%R.
Proof. unfold norm. apply sqrt_pos. Qed.

Section Properties.
Context `{E : Engine}.

(** ** Cancellation *)

(** C2 (as amended): when [_interrupted] is set, [objectiveFunc] throws
    [InterruptedException] at once: no parameter has been applied to the
    model, and neither the computed positions nor the error report have been
    written, since the whole target is as it was. *)
Theorem objectiveFunc_interrupted (t : IKTarget) (x : list R) :
  _interrupted t = true →
  objectiveFunc t x = (t, inl InterruptedException).
Proof.
  intros H. unfold objectiveFunc. rewrite H. reflexivity.
Qed.

(** ** What the evaluations leave untouched *)

Lemma eval_frame_refl (t : IKTarget) : eval_frame t t.
Proof. split; reflexivity. Qed.

Lemma eval_frame_trans (t1 t2 t3 : IKTarget) :
  eval_frame t1 t2 → eval_frame t2 t3 → eval_frame t1 t3.
Proof.
  intros [] []. split; congruence.
Qed.

Lemma eval_frame_set_model (t : IKTarget) (m : Model) :
  eval_frame t (set_model t m).
Proof. split; reflexivity. Qed.

Lemma eval_frame_reportErrors (t : IKTarget) (a : Tally) :
  eval_frame t (reportErrors t a).
Proof.
  unfold reportErrors.
  destruct (_printPerformanceValues t || negb (calcDerivs t) && debug);
    split; reflexivity.
Qed.

Lemma reportErrors_markers (t : IKTarget) (a : Tally) :
  _markers (reportErrors t a) = _markers t.
Proof.
  unfold reportErrors.
  destruct (_printPerformanceValues t || negb (calcDerivs t) && debug);
    reflexivity.
Qed.

Lemma reportErrors_model (t : IKTarget) (a : Tally) :
  _model (reportErrors t a) = _model t.
Proof.
  unfold reportErrors.
  destruct (_printPerformanceValues t || negb (calcDerivs t) && debug);
    reflexivity.
Qed.

Lemma well_formed_frame (t t' : IKTarget) :
  eval_frame t t' → well_formed t → well_formed t'.
Proof.
  intros [Hi Hp Hu Hw Hn _ _ _] [w1 w2 w3 w4 w5].
  split; rewrite ?Hi, ?Hp, ?Hu, ?Hw, ?Hn; assumption.
Qed.

Lemma evaluated_bound (m : Model) (mk : markerToSolve) :
  marker_bound (evaluated m mk) = marker_bound mk.
Proof. unfold evaluated. destruct (validExperimentalPosition mk); reflexivity. Qed.

Lemma evaluated_invalid (m : Model) (mk : markerToSolve) :
  validExperimentalPosition mk = false → evaluated m mk = mk.
Proof. intros H. unfold evaluated. rewrite H. reflexivity. Qed.

Lemma evaluated_valid (m : Model) (mk : markerToSolve) :
  validExperimentalPosition mk = true →
  evaluated m mk = set_computedPosition mk (markerGlobalPos m mk).
Proof. intros H. unfold evaluated. rewrite H. reflexivity. Qed.

(** Passing position [i] of a list that is evaluated up to [i]. *)
Lemma evaluated_prefix_step (m : Model) (mks0 : list markerToSolve) (i : nat)
    (mk : markerToSolve) :
  mks0 !! i = Some mk →
  <[i := evaluated m mk]> ((evaluated m <$> take i mks0) ++ drop i mks0)
  = (evaluated m <$> take (S i) mks0) ++ drop (S i) mks0.
Proof.
  intros Hi.
  assert (i < length mks0) as Hlt by (eapply lookup_lt_Some; eassumption).
  assert (length (evaluated m <$> take i mks0) = i) as Hlen.
  { rewrite length_fmap, length_take. lia. }
  rewrite (take_S_r _ _ _ Hi), fmap_app, <- assoc_L by apply _.
  rewrite (drop_S _ _ _ Hi).
  replace i with (length (evaluated m <$> take i mks0) + 0) at 1 by lia.
  rewrite insert_app_r. reflexivity.
Qed.

Lemma evaluated_prefix_lookup (m : Model) (mks0 : list markerToSolve) (i : nat) :
  i < length mks0 →
  ((evaluated m <$> take i mks0) ++ drop i mks0) !!! i = mks0 !!! i.
Proof.
  intros Hlt.
  destruct (lookup_lt_is_Some_2 mks0 i Hlt) as [mk Hmk].
  rewrite (list_lookup_total_correct _ _ _ Hmk).
  apply list_lookup_total_correct.
  rewrite lookup_app_r; rewrite length_fmap, length_take; [|lia].
  replace (i - i `min` length mks0) with 0 by lia.
  rewrite (drop_S _ _ _ Hmk). reflexivity.
Qed.

(** ** The marker loop of the objective *)

Lemma markerSquaredError_term (mk : markerToSolve) :
  (m_weight mk * markerSquaredError mk)%R = markerTerm mk (computedPosition mk).
Proof.
  unfold markerSquaredError, markerTerm, for_loop. simpl. ring.
Qed.

Lemma objective_marker_loop (m : Model) (mks0 : list markerToSolve)
    (a0 : Tally) (n : nat) :
  n ≤ length mks0 →
  let st := for_loop n (objectiveMarkerStep m) (mks0, a0) in
  st.1 = (evaluated m <$> take n mks0) ++ drop n mks0 ∧
  totalWeightedSquaredErrors st.2 =
    (totalWeightedSquaredErrors a0 +
     Rsum ((λ mk, markerTerm mk (markerGlobalPos m mk)) <$>
           filter (λ mk, validExperimentalPosition mk = true) (take n mks0)))%R.
Proof.
  intros Hn. simpl.
  apply (for_loop_ind (λ i st,
    i ≤ length mks0 →
    st.1 = (evaluated m <$> take i mks0) ++ drop i mks0 ∧
    totalWeightedSquaredErrors st.2 =
      (totalWeightedSquaredErrors a0 +
       Rsum ((λ mk, markerTerm mk (markerGlobalPos m mk)) <$>
             filter (λ mk, validExperimentalPosition mk = true) (take i mks0)))%R));
    [| |exact Hn].
  - intros _. simpl. split; [reflexivity|].
    unfold Rsum. simpl. lra.
  - intros i [mks a] Hi IH Hle. simpl in IH.
    destruct IH as [Hmks Ha]; [lia|]. subst mks.
    assert (i < length mks0) as Hlt by lia.
    destruct (lookup_lt_is_Some_2 mks0 i Hlt) as [mk Hmk].
    assert (Rsum ((λ mk, markerTerm mk (markerGlobalPos m mk)) <$>
              filter (λ mk, validExperimentalPosition mk = true) (take (S i) mks0))
            = (Rsum ((λ mk, markerTerm mk (markerGlobalPos m mk)) <$>
                 filter (λ mk, validExperimentalPosition mk = true) (take i mks0))
               + (if validExperimentalPosition mk
                  then markerTerm mk (markerGlobalPos m mk) else 0))%R) as Hsum.
    { rewrite (take_S_r _ _ _ Hmk), filter_app, fmap_app, Rsum_app.
      f_equal. destruct (validExperimentalPosition mk) eqn:Hv.
      - rewrite filter_cons_True by exact Hv. rewrite filter_nil.
        unfold Rsum. simpl. lra.
      - rewrite filter_cons_False by (rewrite Hv; discriminate).
        rewrite filter_nil. reflexivity. }
    rewrite Hsum. clear Hsum.
    rewrite <- (evaluated_prefix_step m mks0 i mk Hmk).
    unfold objectiveMarkerStep.
    rewrite (evaluated_prefix_lookup m mks0 i Hlt).
    rewrite (list_lookup_total_correct _ _ _ Hmk).
    destruct (validExperimentalPosition mk) eqn:Hv; simpl.
    + rewrite (evaluated_valid m mk Hv). split; [reflexivity|].
      rewrite Ha.
      change (m_weight mk) with (m_weight (set_computedPosition mk (markerGlobalPos m mk))) at 1.
      rewrite markerSquaredError_term. unfold markerTerm. simpl. lra.
    + rewrite (evaluated_invalid m mk Hv). split.
      * symmetry. apply list_insert_id.
        rewrite lookup_app_r; rewrite length_fmap, length_take; [|lia].
        replace (i - i `min` length mks0) with 0 by lia.
        rewrite (drop_S _ _ _ Hmk). reflexivity.
      * rewrite Ha. lra.
Qed.

Lemma objective_markers (m : Model) (mks0 : list markerToSolve) (a0 : Tally) :
  let st := for_loop (length mks0) (objectiveMarkerStep m) (mks0, a0) in
  st.1 = evaluated m <$> mks0 ∧
  totalWeightedSquaredErrors st.2 =
    (totalWeightedSquaredErrors a0 +
     Rsum ((λ mk, markerTerm mk (markerGlobalPos m mk)) <$>
           filter (λ mk, validExperimentalPosition mk = true) mks0))%R.
Proof.
  pose proof (objective_marker_loop m mks0 a0 (length mks0) (le_n _)) as H.
  simpl in *. rewrite firstn_all, drop_all, app_nil_r in H. exact H.
Qed.

(** ** The coordinate loop of the objective *)

Lemma tallyCoordinate_loop (t : IKTarget) (m : Model) (a0 : Tally) (n : nat) :
  n ≤ length (_unprescribedWeightedQs t) →
  totalWeightedSquaredErrors (for_loop n (tallyCoordinate t m) a0) =
    (totalWeightedSquaredErrors a0 +
     Rsum (coordinateTerm t m <$> take n (_unprescribedWeightedQs t)))%R.
Proof.
  intros Hn.
  apply (for_loop_ind (λ i a,
    i ≤ length (_unprescribedWeightedQs t) →
    totalWeightedSquaredErrors a =
      (totalWeightedSquaredErrors a0 +
       Rsum (coordinateTerm t m <$> take i (_unprescribedWeightedQs t)))%R));
    [| |exact Hn].
  - intros _. unfold Rsum. simpl. lra.
  - intros i a Hi IH Hle.
    assert (i < length (_unprescribedWeightedQs t)) as Hlt by lia.
    destruct (lookup_lt_is_Some_2 _ i Hlt) as [p Hp].
    rewrite (take_S_r _ _ _ Hp), fmap_app, Rsum_app.
    unfold tallyCoordinate. simpl.
    rewrite (list_lookup_total_correct _ _ _ Hp).
    rewrite IH by lia. unfold coordinateTerm, Rsum. simpl. lra.
Qed.

(** ** The objective *)

Lemma objectiveFunc_eval (t : IKTarget) (x : list R) :
  _interrupted t = false →
  let m := setParameters t (vec_get x) (_model t) in
  ∃ t',
    objectiveFunc t x =
      (t', inr (0%Z,
                (Rsum ((λ mk, markerTerm mk (markerGlobalPos m mk)) <$>
                       filter (λ mk, validExperimentalPosition mk = true)
                              (_markers t)) +
                 Rsum (coordinateTerm t m <$> _unprescribedWeightedQs t))%R)) ∧
    _model t' = m ∧
    _markers t' = evaluated m <$> _markers t.
Proof.
  intros Hint m. unfold objectiveFunc. rewrite Hint. fold m.
  pose proof (objective_markers m (_markers t) tally0) as [Hmks Hsum].
  destruct (for_loop (length (_markers t)) (objectiveMarkerStep m)
              (_markers t, tally0)) as [mks a] eqn:Hloop.
  simpl in Hmks, Hsum.
  eexists. split; [|split].
  - f_equal. f_equal. f_equal.
    rewrite tallyCoordinate_loop by reflexivity.
    rewrite firstn_all, Hsum. simpl. lra.
  - rewrite reportErrors_model. reflexivity.
  - rewrite reportErrors_markers. simpl. exact Hmks.
Qed.

(** C3: when the target is not interrupted, [objectiveFunc] returns status 0
    and leaves in [f] the sum, over the markers with a valid experimental
    position, of weight times the squared componentwise error against the
    position transformed in the model at [x], plus the sum, over the
    weighted unprescribed coordinates, of weight times the squared error of
    the coordinate value; markers without a valid position add nothing and
    keep their stored position. *)
Theorem objectiveFunc_value (t : IKTarget) (x : list R) :
  _interrupted t = false →
  let m := setParameters t (vec_get x) (_model t) in
  ∃ t',
    objectiveFunc t x =
      (t', inr (0%Z,
                (Rsum ((λ mk, markerTerm mk (markerGlobalPos m mk)) <$>
                       filter (λ mk, validExperimentalPosition mk = true)
                              (_markers t)) +
                 Rsum (coordinateTerm t m <$> _unprescribedWeightedQs t))%R)) ∧
    _model t' = m ∧
    _markers t' = evaluated m <$> _markers t.
Proof. exact (objectiveFunc_eval t x). Qed.

(** ** The loops of a residual evaluation *)

Lemma vset_all (c g : Vec3) :
  vset (vset (vset c 0 (vget g 0)) 1 (vget g 1)) 2 (vget g 2) = g.
Proof. destruct c, g. reflexivity. Qed.

Lemma residual_component_loop (i : nat) (g : Vec3) (mk : markerToSolve)
    (d : list R) :
  for_loop 3 (residualComponentStep i g) (mk, d) =
  (set_computedPosition mk g,
   <[i * 3 + 2 := (sqrt (m_weight mk) * (vget (experimentalPosition mk) 2 - vget g 2))%R]>
     (<[i * 3 + 1 := (sqrt (m_weight mk) * (vget (experimentalPosition mk) 1 - vget g 1))%R]>
        (<[i * 3 + 0 := (sqrt (m_weight mk) * (vget (experimentalPosition mk) 0 - vget g 0))%R]>
           d))).
Proof.
  unfold for_loop. simpl. unfold set_computedPosition. simpl.
  destruct g as [g0 g1 g2], (computedPosition mk) as [c0 c1 c2]. reflexivity.
Qed.

Lemma residual_marker_loop (m : Model) (mks0 : list markerToSolve)
    (d0 : list R) (n : nat) :
  n ≤ length mks0 →
  let st := for_loop n (residualMarkerStep m) (mks0, d0) in
  st.1 = (evaluated m <$> take n mks0) ++ drop n mks0 ∧
  length st.2 = length d0 ∧
  (∀ k mk r, 3 * length mks0 ≤ length d0 → k < n → mks0 !! k = Some mk →
             validExperimentalPosition mk = true → r < 3 →
             st.2 !! (3 * k + r) = Some (markerRow m mk r)) ∧
  (∀ j, (∀ k mk r, k < n → mks0 !! k = Some mk →
                   validExperimentalPosition mk = true → r < 3 →
                   j ≠ 3 * k + r) →
        st.2 !! j = d0 !! j).
Proof.
  intros Hn. simpl.
  apply (for_loop_ind (λ i st,
    i ≤ length mks0 →
    st.1 = (evaluated m <$> take i mks0) ++ drop i mks0 ∧
    length st.2 = length d0 ∧
    (∀ k mk r, 3 * length mks0 ≤ length d0 → k < i → mks0 !! k = Some mk →
               validExperimentalPosition mk = true → r < 3 →
               st.2 !! (3 * k + r) = Some (markerRow m mk r)) ∧
    (∀ j, (∀ k mk r, k < i → mks0 !! k = Some mk →
                     validExperimentalPosition mk = true → r < 3 →
                     j ≠ 3 * k + r) →
          st.2 !! j = d0 !! j))); [| |exact Hn].
  - intros _. simpl. repeat split; try reflexivity. intros; lia.
  - intros i [mks d] Hi IH Hle. simpl in IH.
    destruct IH as (Hmks & Hlen & Hrows & Hrest); [lia|]. subst mks.
    assert (i < length mks0) as Hlt by lia.
    destruct (lookup_lt_is_Some_2 mks0 i Hlt) as [mk Hmk].
    rewrite <- (evaluated_prefix_step m mks0 i mk Hmk).
    unfold residualMarkerStep. 
    rewrite (evaluated_prefix_lookup m mks0 i Hlt).
    rewrite (list_lookup_total_correct _ _ _ Hmk).
    destruct (validExperimentalPosition mk) eqn:Hv; cbn [negb].
    + rewrite residual_component_loop. cbn [fst snd].
      rewrite (evaluated_valid m mk Hv).
      split; [reflexivity|]. split; [rewrite !length_insert; exact Hlen|].
      split.
      * intros k mk' r Hd Hk Hmk' Hv' Hr.
        destruct (decide (k = i)) as [->|Hne].
        -- rewrite Hmk in Hmk'. injection Hmk' as <-.
           unfold markerRow. replace (3 * i + r) with (i * 3 + r) by lia.
           destruct r as [|[|[|r]]]; [| | |lia].
           ++ rewrite list_lookup_insert_ne by lia.
              rewrite list_lookup_insert_ne by lia.
              rewrite list_lookup_insert_eq by lia. reflexivity.
           ++ rewrite list_lookup_insert_ne by lia.
              rewrite list_lookup_insert_eq by (rewrite length_insert; lia).
              reflexivity.
           ++ rewrite list_lookup_insert_eq by (rewrite !length_insert; lia).
              reflexivity.
        -- rewrite !list_lookup_insert_ne by lia.
           apply Hrows; [assumption|lia|assumption..].
      * intros j Hj.
        assert (j ≠ 3 * i + 0 ∧ j ≠ 3 * i + 1 ∧ j ≠ 3 * i + 2) as (J0 & J1 & J2).
        { repeat split; apply (Hj i mk); auto; lia. }
        rewrite !list_lookup_insert_ne by lia.
        apply Hrest. intros k mk' r Hk. apply Hj. lia.
    + cbn [fst snd]. rewrite (evaluated_invalid m mk Hv). split; [|split; [exact Hlen|split]].
      * symmetry. apply list_insert_id.
        rewrite lookup_app_r; rewrite length_fmap, length_take; [|lia].
        replace (i - i `min` length mks0) with 0 by lia.
        rewrite (drop_S _ _ _ Hmk). reflexivity.
      * intros k mk' r Hd Hk Hmk' Hv' Hr.
        destruct (decide (k = i)) as [->|Hne].
        -- rewrite Hmk in Hmk'. injection Hmk' as <-. congruence.
        -- apply Hrows; [assumption|lia|assumption..].
      * intros j Hj. apply Hrest. intros k mk' r Hk. apply Hj. lia.
Qed.

Lemma weightedOf_app (t : IKTarget) (l1 l2 : list nat) :
  weightedOf t (l1 ++ l2) = weightedOf t l1 ++ weightedOf t l2.
Proof. unfold weightedOf. apply filter_app. Qed.

Lemma weightedOf_take_le (t : IKTarget) (l : list nat) (n : nat) :
  length (weightedOf t (take n l)) ≤ length (weightedOf t l).
Proof.
  rewrite <- (take_drop n l) at 2. rewrite weightedOf_app, length_app. lia.
Qed.

Lemma weightedOf_singleton (t : IKTarget) (p : nat) :
  weightedOf t [p] =
  if nonzero (weight (_coordinateInfos t !!! p)) then [p] else [].
Proof.
  unfold weightedOf.
  destruct (nonzero (weight (_coordinateInfos t !!! p))) eqn:Hw.
  - rewrite filter_cons_True by exact Hw. reflexivity.
  - rewrite filter_cons_False by (rewrite Hw; discriminate). reflexivity.
Qed.

Lemma residual_coordinate_loop (t : IKTarget) (m : Model) (row0 : nat)
    (d0 : list R) (n : nat) :
  n ≤ length (_unprescribedQs t) →
  row0 + length (weightedOf t (_unprescribedQs t)) ≤ length d0 →
  let st := for_loop n (residualCoordinateStep t m) (row0, d0) in
  st.1 = row0 + length (weightedOf t (take n (_unprescribedQs t))) ∧
  length st.2 = length d0 ∧
  (∀ k p, weightedOf t (take n (_unprescribedQs t)) !! k = Some p →
          st.2 !! (row0 + k) = Some (coordinateRow t m p)) ∧
  (∀ j, j < row0 ∨ st.1 ≤ j → st.2 !! j = d0 !! j).
Proof.
  intros Hn Hd. simpl.
  apply (for_loop_ind (λ i st,
    i ≤ length (_unprescribedQs t) →
    st.1 = row0 + length (weightedOf t (take i (_unprescribedQs t))) ∧
    length st.2 = length d0 ∧
    (∀ k p, weightedOf t (take i (_unprescribedQs t)) !! k = Some p →
            st.2 !! (row0 + k) = Some (coordinateRow t m p)) ∧
    (∀ j, j < row0 ∨ st.1 ≤ j → st.2 !! j = d0 !! j))); [| |exact Hn].
  - intros _. simpl. repeat split; try reflexivity; try lia.
    intros k p Hk. discriminate Hk.
  - intros i [row d] Hi IH Hle. simpl in IH.
    destruct IH as (Hrow & Hlen & Hrows & Hrest); [lia|]. subst row.
    assert (i < length (_unprescribedQs t)) as Hlt by lia.
    destruct (lookup_lt_is_Some_2 _ i Hlt) as [p Hp].
    pose proof (weightedOf_take_le t (_unprescribedQs t) (S i)) as Hbound.
    rewrite (take_S_r _ _ _ Hp), weightedOf_app, weightedOf_singleton in *.
    unfold residualCoordinateStep.
    rewrite (list_lookup_total_correct _ _ _ Hp).
    destruct (nonzero (weight (_coordinateInfos t !!! p))) eqn:Hw;
      cbn [fst snd].
    + rewrite length_app in *. simpl in *.
      split; [lia|]. split; [rewrite length_insert; exact Hlen|]. split.
      * intros k q Hk.
        destruct (decide (k < length (weightedOf t (take i (_unprescribedQs t)))))
          as [Hlt'|Hge].
        -- rewrite lookup_app_l in Hk by exact Hlt'.
           rewrite list_lookup_insert_ne by lia. apply Hrows. exact Hk.
        -- rewrite lookup_app_r in Hk by lia.
           destruct (k - length (weightedOf t (take i (_unprescribedQs t))))
             as [|k'] eqn:Hk'; [|discriminate].
           injection Hk as <-.
           replace (row0 + k)
             with (row0 + length (weightedOf t (take i (_unprescribedQs t))))
             by lia.
           rewrite list_lookup_insert_eq by lia. reflexivity.
      * intros j Hj. rewrite list_lookup_insert_ne by lia. apply Hrest. lia.
    + rewrite app_nil_r in *. repeat split; auto.
Qed.

(** ** A residual evaluation as a whole *)

Lemma evaluated_validity (m : Model) (mk : markerToSolve) :
  validExperimentalPosition (evaluated m mk) = validExperimentalPosition mk.
Proof.
  unfold evaluated. destruct (validExperimentalPosition mk) eqn:Hv; simpl; auto.
Qed.

Lemma residualPass_target (t : IKTarget) (q : nat → R) (d : list R) :
  (residualPass t q d).1 =
  set_markers (set_model t (setParameters t q (_model t)))
              (evaluated (setParameters t q (_model t)) <$> _markers t).
Proof.
  unfold residualPass.
  pose proof (residual_marker_loop (setParameters t q (_model t)) (_markers t) d
                (length (_markers t)) (le_n _)) as (Hmks & _).
  destruct (for_loop (length (_markers t)) _ (_markers t, d)) as [mks d1].
  destruct (for_loop (_np t) _ (3 * length (_markers t), d1)) as [row d2].
  simpl in *. rewrite firstn_all, drop_all, app_nil_r in Hmks.
  rewrite Hmks. reflexivity.
Qed.

Lemma residualPass_frame (t : IKTarget) (q : nat → R) (d : list R) :
  eval_frame t (residualPass t q d).1.
Proof.
  rewrite residualPass_target. split; try reflexivity.
  simpl. rewrite <- list_fmap_compose. apply list_fmap_ext.
  intros i mk _. apply evaluated_bound.
Qed.

Lemma keeps_invalid_evaluated (m : Model) (mks : list markerToSolve) :
  keeps_invalid mks (evaluated m <$> mks).
Proof.
  intros i mk Hi Hv. rewrite list_lookup_fmap, Hi. simpl.
  rewrite (evaluated_invalid m mk Hv). reflexivity.
Qed.

Lemma keeps_invalid_refl (mks : list markerToSolve) : keeps_invalid mks mks.
Proof. intros i mk Hi _. exact Hi. Qed.

Lemma keeps_invalid_trans (l1 l2 l3 : list markerToSolve) :
  keeps_invalid l1 l2 → keeps_invalid l2 l3 → keeps_invalid l1 l3.
Proof.
  intros H12 H23 i mk Hi Hv. apply H23; [|exact Hv]. apply H12; assumption.
Qed.

Lemma residualPass_keeps_invalid (t : IKTarget) (q : nat → R) (d : list R) :
  keeps_invalid (_markers t) (_markers (residualPass t q d).1).
Proof. rewrite residualPass_target. apply keeps_invalid_evaluated. Qed.

Lemma residualPass_rows (t : IKTarget) (q : nat → R) (d : list R) :
  well_formed t → ZeroRows t d →
  ResidualRows (residualPass t q d).1 (residualPass t q d).2.
Proof.
  intros Hwf [Hlen Hzero].
  rewrite residualPass_target. unfold residualPass.
  set (m := setParameters t q (_model t)).
  pose proof (residual_marker_loop m (_markers t) d (length (_markers t))
                (le_n _)) as (_ & Hlen1 & Hrows1 & Hrest1).
  destruct (for_loop (length (_markers t)) _ (_markers t, d)) as [mks d1].
  cbn [fst snd] in Hlen1, Hrows1, Hrest1.
  assert (_unprescribedWeightedQs t = weightedOf t (_unprescribedQs t)) as HW
    by (apply (wf_weighted t Hwf)).
  assert (_np t ≤ length (_unprescribedQs t)) as Hnp
    by (rewrite (wf_np t Hwf); lia).
  assert (3 * length (_markers t) + length (weightedOf t (_unprescribedQs t))
          ≤ length d1) as Hd1 by (rewrite <- HW; lia).
  pose proof (residual_coordinate_loop t m (3 * length (_markers t)) d1 (_np t)
                Hnp Hd1) as (Hrow & Hlen2 & Hrows2 & Hrest2).
  destruct (for_loop (_np t) _ (3 * length (_markers t), d1)) as [row d2].
  cbn [fst snd] in *.
  rewrite (wf_np t Hwf), firstn_all, <- HW in Hrow, Hrows2.
  split;
    cbn [_markers _coordinateInfos _unprescribedWeightedQs _model set_markers
         set_model].
  - rewrite length_fmap. lia.
  - intros i mk' r Hi Hv Hr.
    rewrite list_lookup_fmap in Hi.
    destruct (_markers t !! i) as [mk|] eqn:Hmk; [|discriminate].
    simpl in Hi. injection Hi as <-.
    assert (i < length (_markers t)) as Hlt by (eapply lookup_lt_Some; eassumption).
    assert (validExperimentalPosition mk = true) as Hv0.
    { rewrite <- (evaluated_validity m mk). exact Hv. }
    rewrite Hrest2 by lia.
    rewrite (Hrows1 i mk r) by (assumption || lia).
    rewrite (evaluated_valid m mk Hv0). reflexivity.
  - intros i mk' r Hi Hv Hr.
    rewrite list_lookup_fmap in Hi.
    destruct (_markers t !! i) as [mk|] eqn:Hmk; [|discriminate].
    simpl in Hi. injection Hi as <-.
    assert (i < length (_markers t)) as Hlt by (eapply lookup_lt_Some; eassumption).
    assert (validExperimentalPosition mk = false) as Hv0.
    { rewrite <- (evaluated_validity m mk). exact Hv. }
    rewrite Hrest2 by lia.
    rewrite Hrest1.
    + apply (Hzero i mk r); assumption.
    + intros k mk2 r2 Hk Hmk2 Hv2 Hr2 Heq.
      assert (k = i) as -> by lia. congruence.
  - intros k p Hk. rewrite length_fmap. apply Hrows2. exact Hk.
Qed.

Lemma ResidualRows_zero (t : IKTarget) (d : list R) :
  ResidualRows t d → ZeroRows t d.
Proof. intros [H1 _ H3 _]. split; assumption. Qed.

Lemma ZeroRows_frame (t t' : IKTarget) (d : list R) :
  eval_frame t t' → ZeroRows t d → ZeroRows t' d.
Proof.
  intros Hf [Hlen Hzero].
  pose proof (ef_markers t t' Hf) as Hm.
  assert (length (_markers t') = length (_markers t)) as Hl.
  { rewrite <- (length_fmap marker_bound (_markers t')), Hm, length_fmap.
    reflexivity. }
  split.
  - rewrite Hl, (ef_weighted t t' Hf). exact Hlen.
  - intros i mk' r Hi Hv Hr.
    assert ((marker_bound <$> _markers t) !! i = Some (marker_bound mk')) as Hb.
    { rewrite <- Hm, list_lookup_fmap, Hi. reflexivity. }
    rewrite list_lookup_fmap in Hb.
    destruct (_markers t !! i) as [mk|] eqn:Hmk; [|discriminate].
    simpl in Hb. injection Hb as Hb.
    apply (Hzero i mk r); [exact Hmk| |exact Hr].
    unfold marker_bound in Hb. congruence.
Qed.

Lemma ZeroRows_replicate (t : IKTarget) :
  ZeroRows t (replicate (numRows t) 0%R).
Proof.
  split.
  - rewrite length_replicate. reflexivity.
  - intros i mk r Hi _ Hr. apply lookup_replicate_2.
    apply lookup_lt_Some in Hi. unfold numRows. lia.
Qed.

(** ** The steps of the solver *)

Lemma createJacobian_target (t : IKTarget) (jointQs : list R) (J : list (list R)) :
  (createJacobian t jointQs J).1 =
  set_model t (j_model (jacobianLoop t jointQs J)).
Proof. reflexivity. Qed.

Lemma solverInit_eval (t : IKTarget) (results : list R) :
  let p := residualPass t (vec_get results) (replicate (numRows t) 0%R) in
  s_target (solverInit t results) = p.1 ∧
  s_dError (solverInit t results) = p.2 ∧
  s_results (solverInit t results) = results ∧
  currentDErrorNorm (solverInit t results) = norm p.2 ∧
  deltaDErrorNorm (solverInit t results) = 100%R ∧
  iter (solverInit t results) = 0.
Proof.
  unfold solverInit.
  destruct (residualPass t (vec_get results) (replicate (numRows t) 0%R)).
  simpl. repeat split; reflexivity.
Qed.

Lemma solveStep_eval (s : SolverState) :
  ∃ (m : Model) (q : nat → R),
    let p := residualPass (set_model (s_target s) m) q (s_dError s) in
    s_target (solveStep s) = p.1 ∧
    s_dError (solveStep s) = p.2 ∧
    tempDErrorNorm (solveStep s) = norm p.2 ∧
    previousDErrorNorm (solveStep s) = currentDErrorNorm s ∧
    currentDErrorNorm (solveStep s) = currentDErrorNorm s ∧
    s_results (solveStep s) = s_results s ∧
    iter (solveStep s) = iter s.
Proof.
  unfold solveStep. rewrite (surjective_pairing (createJacobian _ _ _)).
  rewrite createJacobian_target.
  match goal with
  | |- context [residualPass ?t ?q ?d] =>
      exists (_model t), q; destruct (residualPass t q d) as [t2 d2] eqn:Hp
  end.
  simpl in *. rewrite Hp. simpl. repeat split; reflexivity.
Qed.

Lemma halveStep_eval (s : SolverState) :
  ∃ (q : nat → R),
    let p := residualPass (s_target s) q (s_dError s) in
    s_target (halveStep s) = p.1 ∧
    s_dError (halveStep s) = p.2 ∧
    tempDErrorNorm (halveStep s) = norm p.2 ∧
    previousDErrorNorm (halveStep s) = previousDErrorNorm s ∧
    currentDErrorNorm (halveStep s) = currentDErrorNorm s ∧
    s_results (halveStep s) = s_results s ∧
    iter (halveStep s) = iter s.
Proof.
  unfold halveStep.
  match goal with
  | |- context [residualPass ?t ?q ?d] =>
      exists q; destruct (residualPass t q d) as [t2 d2] eqn:Hp
  end.
  simpl. repeat split; reflexivity.
Qed.

Lemma solveStep_temp (s : SolverState) :
  tempDErrorNorm (solveStep s) = norm (s_dError (solveStep s)).
Proof.
  destruct (solveStep_eval s) as (m & q & H). simpl in H.
  destruct H as (_ & -> & -> & _). reflexivity.
Qed.

Lemma halveStep_temp (s : SolverState) :
  tempDErrorNorm (halveStep s) = norm (s_dError (halveStep s)).
Proof.
  destruct (halveStep_eval s) as (q & H). simpl in H.
  destruct H as (_ & -> & -> & _). reflexivity.
Qed.

Lemma halveStep_previous (s : SolverState) :
  previousDErrorNorm (halveStep s) = previousDErrorNorm s.
Proof. destruct (halveStep_eval s) as (q & H). simpl in H. tauto. Qed.

Lemma solveStep_previous (s : SolverState) :
  previousDErrorNorm (solveStep s) = currentDErrorNorm s.
Proof. destruct (solveStep_eval s) as (m & q & H). simpl in H. tauto. Qed.

Lemma solveStep_iter (s : SolverState) : iter (solveStep s) = iter s.
Proof. destruct (solveStep_eval s) as (m & q & H). simpl in H. tauto. Qed.

Lemma halveStep_iter (s : SolverState) : iter (halveStep s) = iter s.
Proof. destruct (halveStep_eval s) as (q & H). simpl in H. tauto. Qed.

(** The inner loop, when it ends, ends after some number [k] of halvings,
    each of them made because the trial norm exceeded the previous norm. *)
Lemma backtrack_spec (fuel : nat) (s s' : SolverState) :
  backtrack fuel s = Some s' →
  ∃ k, k ≤ fuel ∧ s' = Nat.iter k halveStep s ∧
       (∀ j, j < k →
             Rgtb (tempDErrorNorm (Nat.iter j halveStep s))
                  (previousDErrorNorm s) = true) ∧
       Rgtb (tempDErrorNorm s') (previousDErrorNorm s) = false ∧
       previousDErrorNorm s' = previousDErrorNorm s.
Proof.
  revert s. induction fuel as [|fuel IH]; intros s Hb; simpl in Hb.
  - destruct (Rgtb (tempDErrorNorm s) (previousDErrorNorm s)) eqn:Hgt;
      [discriminate|]. injection Hb as <-.
    exists 0. simpl. repeat split; auto. intros; lia.
  - destruct (Rgtb (tempDErrorNorm s) (previousDErrorNorm s)) eqn:Hgt.
    + destruct (IH _ Hb) as (k & Hk & Hs' & Hall & Hlast & Hprev).
      rewrite halveStep_previous in *.
      exists (S k). rewrite Nat.iter_succ_r.
      repeat split; auto; try lia.
      intros [|j] Hj; simpl; [exact Hgt|].
      rewrite <- Nat.iter_swap. apply Hall. lia.
    + injection Hb as <-. exists 0. simpl. repeat split; auto; try lia.
Qed.

Lemma backtrack_mono (fuel fuel' : nat) (s s' : SolverState) :
  backtrack fuel s = Some s' → fuel ≤ fuel' → backtrack fuel' s = Some s'.
Proof.
  revert fuel' s. induction fuel as [|fuel IH]; intros fuel' s Hb Hle;
    simpl in Hb.
  - destruct fuel'; simpl;
      destruct (Rgtb (tempDErrorNorm s) (previousDErrorNorm s));
      try discriminate; exact Hb.
  - destruct fuel' as [|fuel']; [lia|]. simpl.
    destruct (Rgtb (tempDErrorNorm s) (previousDErrorNorm s)); [|exact Hb].
    apply IH; [exact Hb|lia].
Qed.

Lemma iteration_mono (fuel fuel' : nat) (s s' : SolverState) :
  iteration fuel s = Some s' → fuel ≤ fuel' → iteration fuel' s = Some s'.
Proof.
  unfold iteration. intros Hi Hle.
  destruct (backtrack fuel (solveStep s)) as [b|] eqn:Hb; [|discriminate].
  rewrite (backtrack_mono _ _ _ _ Hb Hle). exact Hi.
Qed.


Lemma solverLoop_mono (fuel fuel' gas : nat) (s s' : SolverState) :
  solverLoop fuel gas s = Some s' → fuel ≤ fuel' →
  solverLoop fuel' gas s = Some s'.
Proof.
  revert s. induction gas as [|gas IH]; intros s Hl Hle; simpl in *.
  - exact Hl.
  - destruct (continues s); [|exact Hl].
    destruct (iteration fuel s) as [s1|] eqn:H1; [|discriminate].
    rewrite (iteration_mono _ _ _ _ H1 Hle). apply IH; assumption.
Qed.

Lemma acceptStep_iter (s : SolverState) : iter (acceptStep s) = S (iter s).
Proof. reflexivity. Qed.

Lemma iteration_iter (fuel : nat) (s s' : SolverState) :
  iteration fuel s = Some s' → iter s' = S (iter s).
Proof.
  unfold iteration. intros Hi.
  destruct (backtrack fuel (solveStep s)) as [b|] eqn:Hb; [|discriminate].
  injection Hi as <-.
  destruct (backtrack_spec _ _ _ Hb) as (k & _ & -> & _).
  rewrite acceptStep_iter. f_equal.
  clear Hb. induction k as [|k IH]; simpl.
  - apply solveStep_iter.
  - rewrite halveStep_iter. exact IH.
Qed.

(** ** Backtracking *)

Lemma iteration_accepts (fuel : nat) (s s' : SolverState) :
  iteration fuel s = Some s' →
  ∃ k, k ≤ fuel ∧
       s' = acceptStep (Nat.iter k halveStep (solveStep s)) ∧
       (∀ j, j < k →
             (tempDErrorNorm (Nat.iter j halveStep (solveStep s))
              > currentDErrorNorm s)%R) ∧
       previousDErrorNorm s' = currentDErrorNorm s ∧
       (currentDErrorNorm s' <= currentDErrorNorm s)%R.
Proof.
  unfold iteration. intros Hi.
  destruct (backtrack fuel (solveStep s)) as [b|] eqn:Hb; [|discriminate].
  injection Hi as <-.
  destruct (backtrack_spec _ _ _ Hb) as (k & Hk & Hs' & Hall & Hlast & Hprev).
  rewrite solveStep_previous in *.
  exists k. split; [exact Hk|]. split; [rewrite Hs'; reflexivity|].
  split; [|split].
  - intros j Hj. apply Rgtb_true_gt. apply Hall. exact Hj.
  - simpl. exact Hprev.
  - apply Rgtb_false_le in Hlast. simpl.
    assert (tempDErrorNorm b = norm (s_dError b)) as Htemp.
    { rewrite Hs'. destruct k as [|k]; simpl.
      - apply solveStep_temp.
      - apply halveStep_temp. }
    rewrite <- Htemp. exact Hlast.
Qed.

Lemma passes_norm (fuel n : nat) (s s' : SolverState) :
  passes fuel n s = Some s' →
  (currentDErrorNorm s' <= currentDErrorNorm s)%R.
Proof.
  revert s'. induction n as [|n IH]; intros s' Hp; simpl in Hp.
  - injection Hp as <-. apply Rle_refl.
  - destruct (passes fuel n s) as [s1|] eqn:H1; [|discriminate].
    destruct (continues s1); [|discriminate].
    destruct (iteration_accepts _ _ _ Hp) as (_ & _ & _ & _ & _ & Hle).
    eapply Rle_trans; [exact Hle|]. apply IH. reflexivity.
Qed.

(** C5: in one pass of the outer loop that comes to its end, [dQ] has been
    halved [k] times, each time because the trial norm exceeded the previous
    accepted norm; the norm accepted at the end of the pass is at most the
    norm accepted by the pass before, which this pass holds in
    [previousDErrorNorm]; and so, after any number of further passes, the
    accepted norm is still at most that one. *)
Theorem accepted_norm_nonincreasing (fuel : nat) (s s' : SolverState) :
  iteration fuel s = Some s' →
  (∃ k, k ≤ fuel ∧
        s' = acceptStep (Nat.iter k halveStep (solveStep s)) ∧
        (∀ j, j < k →
              (tempDErrorNorm (Nat.iter j halveStep (solveStep s))
               > currentDErrorNorm s)%R) ∧
        previousDErrorNorm s' = currentDErrorNorm s ∧
        (currentDErrorNorm s' <= currentDErrorNorm s)%R) ∧
  (∀ n s'', passes fuel n s' = Some s'' →
            (currentDErrorNorm s'' <= currentDErrorNorm s)%R).
Proof.
  intros Hi. pose proof (iteration_accepts fuel s s' Hi) as Hacc.
  split; [exact Hacc|].
  intros n s'' Hp. destruct Hacc as (_ & _ & _ & _ & _ & Hle).
  eapply Rle_trans; [|exact Hle]. eapply passes_norm. exact Hp.
Qed.

(** ** Invariants of the run of the solver *)

Lemma reached_invariant (t : IKTarget) (results : list R) (ph : phase)
    (s : SolverState) :
  well_formed t → Reached t results ph s →
  eval_frame t (s_target s) ∧
  keeps_invalid (_markers t) (_markers (s_target s)) ∧
  ResidualRows (s_target s) (s_dError s).
Proof.
  intros Hwf Hr. induction Hr as [|s Hr IH Hc|s Hr IH Hgt|s Hr IH Hle].
  - destruct (solverInit_eval t results) as (Ht & Hd & _). simpl in Ht, Hd.
    rewrite Ht, Hd. split; [|split].
    + apply residualPass_frame.
    + apply residualPass_keeps_invalid.
    + apply residualPass_rows; [exact Hwf|apply ZeroRows_replicate].
  - destruct IH as (Hf & Hk & Hrows).
    destruct (solveStep_eval s) as (m & q & H). simpl in H.
    destruct H as (Ht & Hd & _). rewrite Ht, Hd.
    assert (eval_frame t (set_model (s_target s) m)) as Hf1.
    { eapply eval_frame_trans; [exact Hf|apply eval_frame_set_model]. }
    split; [|split].
    + eapply eval_frame_trans; [exact Hf1|apply residualPass_frame].
    + eapply keeps_invalid_trans; [exact Hk|].
      apply (residualPass_keeps_invalid (set_model (s_target s) m)).
    + apply residualPass_rows.
      * eapply well_formed_frame; eassumption.
      * apply (ZeroRows_frame (s_target s)); [apply eval_frame_set_model|].
        apply ResidualRows_zero. exact Hrows.
  - destruct IH as (Hf & Hk & Hrows).
    destruct (halveStep_eval s) as (q & H). simpl in H.
    destruct H as (Ht & Hd & _). rewrite Ht, Hd.
    split; [|split].
    + eapply eval_frame_trans; [exact Hf|apply residualPass_frame].
    + eapply keeps_invalid_trans; [exact Hk|].
      apply residualPass_keeps_invalid.
    + apply residualPass_rows.
      * eapply well_formed_frame; eassumption.
      * apply ResidualRows_zero. exact Hrows.
  - exact IH.
Qed.

(** The parameters are applied through the arrays of pointers, which no
    residual evaluation changes. *)
Lemma setParameters_frame (t t' : IKTarget) (q : nat → R) (m : Model) :
  eval_frame t t' → setParameters t' q m = setParameters t q m.
Proof.
  intros Hf. unfold setParameters.
  rewrite (ef_np _ _ Hf), (ef_infos _ _ Hf), (ef_unprescribed _ _ Hf).
  reflexivity.
Qed.

(** The trial evaluation of a pass is made at [results + dQ], for the [dQ]
    that the pass has just solved for. *)
Lemma solveStep_point (s : SolverState) :
  ∃ (m : Model) (d : list R),
    s_target (solveStep s) =
    (residualPass (set_model (s_target s) m)
       (trialPoint (s_results (solveStep s)) (s_dQ (solveStep s))) d).1.
Proof.
  unfold solveStep. rewrite (surjective_pairing (createJacobian _ _ _)).
  rewrite createJacobian_target.
  match goal with
  | |- context [residualPass ?t ?q ?d] =>
      exists (_model t), d; destruct (residualPass t q d) as [t2 d2] eqn:Hp
  end.
  simpl in *. rewrite Hp. reflexivity.
Qed.

(** So is the evaluation after a halving, for the halved [dQ]. *)
Lemma halveStep_point (s : SolverState) :
  ∃ (d : list R),
    s_target (halveStep s) =
    (residualPass (s_target s)
       (trialPoint (s_results (halveStep s)) (s_dQ (halveStep s))) d).1.
Proof.
  unfold halveStep.
  match goal with
  | |- context [residualPass ?t ?q ?d] =>
      exists d; destruct (residualPass t q d) as [t2 d2] eqn:Hp
  end.
  simpl. rewrite Hp. reflexivity.
Qed.

(** The point at which the residual held at a control point was evaluated:
    the trial point while backtracking, [results] at the head of the loop. *)
Lemma reached_evaluation (t : IKTarget) (results : list R) (ph : phase)
    (s : SolverState) :
  well_formed t → Reached t results ph s →
  length (s_results s) = length results ∧
  ∃ (t0 : IKTarget) (q : nat → R) (d : list R),
    eval_frame t t0 ∧
    s_target s = (residualPass t0 q d).1 ∧
    ∀ i, i < length results →
         q i = match ph with
               | LoopHead => vec_get (s_results s) i
               | Backtracking => trialPoint (s_results s) (s_dQ s) i
               end.
Proof.
  intros Hwf Hr. induction Hr as [|s Hr IH Hc|s Hr IH Hgt|s Hr IH Hle].
  - destruct (solverInit_eval t results) as (Ht & _ & Hres & _).
    cbn zeta in Ht. split; [rewrite Hres; reflexivity|].
    exists t, (vec_get results), (replicate (numRows t) 0%R).
    split; [apply eval_frame_refl|]. split; [exact Ht|].
    intros i _. rewrite Hres. reflexivity.
  - destruct IH as (Hlen & _).
    destruct (reached_invariant t results _ s Hwf Hr) as (Hf & _).
    destruct (solveStep_eval s) as (m' & q' & H). cbn zeta in H.
    destruct H as (_ & _ & _ & _ & _ & Hres & _).
    destruct (solveStep_point s) as (m & d & Ht).
    split; [rewrite Hres; exact Hlen|].
    exists (set_model (s_target s) m),
           (trialPoint (s_results (solveStep s)) (s_dQ (solveStep s))), d.
    split; [eapply eval_frame_trans; [exact Hf|apply eval_frame_set_model]|].
    split; [exact Ht|]. intros i _. reflexivity.
  - destruct IH as (Hlen & _).
    destruct (reached_invariant t results _ s Hwf Hr) as (Hf & _).
    destruct (halveStep_eval s) as (q' & H). cbn zeta in H.
    destruct H as (_ & _ & _ & _ & _ & Hres & _).
    destruct (halveStep_point s) as (d & Ht).
    split; [rewrite Hres; exact Hlen|].
    exists (s_target s),
           (trialPoint (s_results (halveStep s)) (s_dQ (halveStep s))), d.
    split; [exact Hf|]. split; [exact Ht|]. intros i _. reflexivity.
  - destruct IH as (Hlen & t0 & q & d & Hf & Ht & Hq).
    unfold acceptStep. cbn [s_results s_target].
    split; [rewrite length_fmap, length_seq; exact Hlen|].
    exists t0, q, d. split; [exact Hf|]. split; [exact Ht|].
    intros i Hi. rewrite (Hq i Hi). symmetry. unfold vec_get at 1.
    rewrite list_lookup_fmap, lookup_seq_lt by lia. reflexivity.
Qed.

(** A marker with a valid experimental position, once evaluated in [m],
    stores its position transformed in [m]. *)
Lemma evaluated_stores (m : Model) (mk : markerToSolve) :
  validExperimentalPosition (evaluated m mk) = true →
  computedPosition (evaluated m mk) = markerGlobalPos m (evaluated m mk).
Proof.
  unfold evaluated. destruct (validExperimentalPosition mk) eqn:Hv.
  - intros _. reflexivity.
  - rewrite Hv. discriminate.
Qed.

(** C4: at every residual evaluation of the iterative solver (the first
    one, each trial step and each halved step), [dError] has the fixed
    length 3*|markers| + |weighted unprescribed coordinates|.  The
    evaluation applies its point to the model (the trial point
    [results + dQ] while backtracking, [results] at the head of the loop)
    and transforms every marker with a valid experimental position in that
    model: the marker stores the transformed position, and its three rows
    hold sqrt(weight)*(experimental - transformed).  The three rows of a
    marker without a valid position hold zero; and the trailing rows hold,
    one per weighted unprescribed coordinate in parameter order,
    sqrt(weight)*(experimentalValue - value of the coordinate in that
    model). *)
Theorem residual_vector_rows (t : IKTarget) (results : list R) (ph : phase)
    (s : SolverState) :
  well_formed t → Reached t results ph s →
  ResidualRows (s_target s) (s_dError s) ∧
  length (s_dError s) =
    3 * length (_markers t) + length (_unprescribedWeightedQs t) ∧
  _unprescribedWeightedQs (s_target s) = weightedOf t (_unprescribedQs t) ∧
  (∃ (m0 : Model) (q : nat → R),
     _model (s_target s) = setParameters t q m0 ∧
     ∀ i, i < length results →
          q i = match ph with
                | LoopHead => vec_get (s_results s) i
                | Backtracking => trialPoint (s_results s) (s_dQ s) i
                end) ∧
  (∀ i mk, _markers (s_target s) !! i = Some mk →
           validExperimentalPosition mk = true →
           let m := _model (s_target s) in
           let globalPos := transformPosition m (body mk)
                              (getOffset m (marker mk)) in
           computedPosition mk = globalPos ∧
           ∀ r, r < 3 →
                s_dError s !! (3 * i + r) =
                Some (sqrt (m_weight mk) *
                      (vget (experimentalPosition mk) r - vget globalPos r))%R).
Proof.
  intros Hwf Hr.
  destruct (reached_invariant t results ph s Hwf Hr) as (Hf & _ & Hrows).
  destruct (reached_evaluation t results ph s Hwf Hr)
    as (_ & t0 & q & d & Hf0 & Ht & Hq).
  assert (_model (s_target s) = setParameters t0 q (_model t0) ∧
          _markers (s_target s) =
            evaluated (setParameters t0 q (_model t0)) <$> _markers t0)
    as [Hmodel Hmks].
  { rewrite Ht, residualPass_target. split; reflexivity. }
  split; [exact Hrows|]. split; [|split; [|split]].
  - rewrite (rr_length _ _ Hrows), (ef_weighted _ _ Hf).
    pose proof (ef_markers _ _ Hf) as Hm.
    apply (f_equal length) in Hm. rewrite !length_fmap in Hm. lia.
  - rewrite (ef_weighted _ _ Hf). apply (wf_weighted t Hwf).
  - exists (_model t0), q. split; [|exact Hq].
    rewrite Hmodel. apply setParameters_frame. exact Hf0.
  - intros i mk Hi Hv. cbn zeta.
    assert (computedPosition mk = markerGlobalPos (_model (s_target s)) mk)
      as Hstored.
    { rewrite Hmks, list_lookup_fmap in Hi.
      destruct (_markers t0 !! i) as [mk0|]; [|discriminate].
      injection Hi as <-. rewrite Hmodel. apply evaluated_stores. exact Hv. }
    unfold markerGlobalPos in Hstored.
    split; [exact Hstored|]. intros r Hr3.
    rewrite (rr_valid _ _ Hrows i mk r Hi Hv Hr3).
    rewrite <- Hstored. reflexivity.
Qed.

(** Every state that the loop function passes through is a reached state. *)
Lemma backtrack_reached (t : IKTarget) (results : list R) (fuel : nat)
    (s s' : SolverState) :
  Reached t results Backtracking s → backtrack fuel s = Some s' →
  Reached t results Backtracking s' ∧
  Rgtb (tempDErrorNorm s') (previousDErrorNorm s') = false.
Proof.
  revert s. induction fuel as [|fuel IH]; intros s Hr Hb; simpl in Hb;
    destruct (Rgtb (tempDErrorNorm s) (previousDErrorNorm s)) eqn:Hgt;
    try discriminate.
  - injection Hb as <-. auto.
  - apply (IH (halveStep s)); [|exact Hb]. apply reach_halve; assumption.
  - injection Hb as <-. auto.
Qed.

Lemma iteration_reached (t : IKTarget) (results : list R) (fuel : nat)
    (s s' : SolverState) :
  Reached t results LoopHead s → continues s = true →
  iteration fuel s = Some s' → Reached t results LoopHead s'.
Proof.
  unfold iteration. intros Hr Hc Hi.
  destruct (backtrack fuel (solveStep s)) as [b|] eqn:Hb; [|discriminate].
  injection Hi as <-.
  destruct (backtrack_reached t results fuel (solveStep s) b) as [Hb1 Hb2];
    [apply reach_solve; assumption|exact Hb|].
  apply reach_accept; assumption.
Qed.

Lemma solverLoop_reached (t : IKTarget) (results : list R) (fuel gas : nat)
    (s s' : SolverState) :
  Reached t results LoopHead s → solverLoop fuel gas s = Some s' →
  Reached t results LoopHead s' ∧ continues s' = false.
Proof.
  revert s. induction gas as [|gas IH]; intros s Hr Hl; simpl in Hl;
    destruct (continues s) eqn:Hc; try discriminate.
  - injection Hl as <-. auto.
  - destruct (iteration fuel s) as [s1|] eqn:Hi; [|discriminate].
    apply (IH s1); [|exact Hl]. eapply iteration_reached; eassumption.
  - injection Hl as <-. auto.
Qed.

(** ** Termination of the solver *)

Lemma continues_false_iff (s : SolverState) :
  continues s = false ↔ (deltaDErrorNorm s <= errorTol)%R ∨ maxIter ≤ iter s.
Proof.
  unfold continues. rewrite andb_false_iff, Nat.ltb_ge. split.
  - intros [H|H]; [left; apply Rgtb_false_le; exact H|right; exact H].
  - intros [H|H]; [left; apply Rgtb_false; exact H|right; exact H].
Qed.

Lemma continues_true_iff (s : SolverState) :
  continues s = true ↔ (deltaDErrorNorm s > errorTol)%R ∧ iter s < maxIter.
Proof.
  unfold continues. rewrite andb_true_iff, Nat.ltb_lt. split.
  - intros [H1 H2]. split; [apply Rgtb_true_gt; exact H1|exact H2].
  - intros [H1 H2]. split; [apply Rgtb_true; exact H1|exact H2].
Qed.



(** ** The Jacobian *)

Lemma vec_get_lookup (v : list R) (i : nat) (x : R) :
  v !! i = Some x → vec_get v i = x.
Proof. intros H. unfold vec_get. rewrite H. reflexivity. Qed.

Lemma markerWeights_spec (t : IKTarget) (k : nat) (mk : markerToSolve) :
  _markers t !! k = Some mk →
  vec_get (markerWeights t) k =
  if validExperimentalPosition mk then sqrt (m_weight mk) else 0%R.
Proof.
  intros Hk. unfold markerWeights.
  assert (k < length (_markers t)) as Hlt by (eapply lookup_lt_Some; eassumption).
  enough (∀ n, n ≤ length (_markers t) →
            let w := for_loop n (markerWeightsStep t)
                       (replicate (length (_markers t)) 0%R) in
            length w = length (_markers t) ∧
            (∀ j mkj, _markers t !! j = Some mkj →
                      vec_get w j =
                      if (j <? n) && validExperimentalPosition mkj
                      then sqrt (m_weight mkj) else 0%R)) as Hall.
  { destruct (Hall (length (_markers t)) (le_n _)) as [_ H].
    rewrite (H k mk Hk).
    destruct (Nat.ltb_spec k (length (_markers t))); [reflexivity|lia]. }
  intros n Hn. simpl.
  apply (for_loop_ind (λ i w,
    i ≤ length (_markers t) →
    length w = length (_markers t) ∧
    (∀ j mkj, _markers t !! j = Some mkj →
              vec_get w j =
              if (j <? i) && validExperimentalPosition mkj
              then sqrt (m_weight mkj) else 0%R))); [| |exact Hn].
  - intros _. split; [apply length_replicate|].
    intros j mkj Hj. simpl. apply vec_get_lookup, lookup_replicate_2.
    eapply lookup_lt_Some; eassumption.
  - intros i w Hi IH Hle. destruct IH as [Hlen Hw]; [lia|].
    assert (i < length (_markers t)) as Hilt by lia.
    destruct (lookup_lt_is_Some_2 _ i Hilt) as [mki Hmki].
    unfold markerWeightsStep.
    rewrite (list_lookup_total_correct _ _ _ Hmki).
    destruct (validExperimentalPosition mki) eqn:Hv; cbn [negb].
    + split; [rewrite length_insert; exact Hlen|].
      intros j mkj Hj. destruct (decide (j = i)) as [->|Hne].
      * rewrite Hmki in Hj. injection Hj as <-.
        rewrite (vec_get_lookup _ _ (sqrt (m_weight mki)))
          by (apply list_lookup_insert_eq; lia).
        rewrite Hv. destruct (Nat.ltb_spec i (S i)); [reflexivity|lia].
      * unfold vec_get. rewrite list_lookup_insert_ne by auto.
        fold (vec_get w j). rewrite (Hw j mkj Hj).
        destruct (Nat.ltb_spec j i), (Nat.ltb_spec j (S i)); try lia;
          reflexivity.
    + split; [exact Hlen|].
      intros j mkj Hj. rewrite (Hw j mkj Hj).
      destruct (decide (j = i)) as [->|Hne].
      * rewrite Hmki in Hj. injection Hj as <-. rewrite Hv, !andb_false_r.
        reflexivity.
      * destruct (Nat.ltb_spec j i), (Nat.ltb_spec j (S i)); try lia;
          reflexivity.
Qed.

Lemma jacobian_marker_loop (t : IKTarget) (w : list R) (m : Model)
    (pf0 : list R) (n : nat) :
  n ≤ length (_markers t) → 3 * length (_markers t) ≤ length pf0 →
  let pf := for_loop n (jacobianMarkerStep t w m) pf0 in
  length pf = length pf0 ∧
  (∀ k mk r, k < n → _markers t !! k = Some mk →
             validExperimentalPosition mk = true → r < 3 →
             pf !! (3 * k + r) =
             Some (vec_get w k *
                   (vget (markerGlobalPos m mk) r - vget (computedPosition mk) r))%R) ∧
  (∀ j, (∀ k mk r, k < n → _markers t !! k = Some mk →
                   validExperimentalPosition mk = true → r < 3 →
                   j ≠ 3 * k + r) →
        pf !! j = pf0 !! j).
Proof.
  intros Hn Hd. simpl.
  apply (for_loop_ind (λ i pf,
    i ≤ length (_markers t) →
    length pf = length pf0 ∧
    (∀ k mk r, k < i → _markers t !! k = Some mk →
               validExperimentalPosition mk = true → r < 3 →
               pf !! (3 * k + r) =
               Some (vec_get w k *
                     (vget (markerGlobalPos m mk) r - vget (computedPosition mk) r))%R) ∧
    (∀ j, (∀ k mk r, k < i → _markers t !! k = Some mk →
                     validExperimentalPosition mk = true → r < 3 →
                     j ≠ 3 * k + r) →
          pf !! j = pf0 !! j))); [| |exact Hn].
  - intros _. repeat split; try reflexivity. intros; lia.
  - intros i pf Hi IH Hle.
    destruct IH as (Hlen & Hrows & Hrest); [lia|].
    assert (i < length (_markers t)) as Hlt by lia.
    destruct (lookup_lt_is_Some_2 _ i Hlt) as [mk Hmk].
    unfold jacobianMarkerStep.
    rewrite (list_lookup_total_correct _ _ _ Hmk).
    destruct (validExperimentalPosition mk) eqn:Hv; cbn [negb].
    + unfold for_loop. cbn [seq foldl].
      split; [rewrite !length_insert; exact Hlen|]. split.
      * intros k mk' r Hk Hmk' Hv' Hr.
        destruct (decide (k = i)) as [->|Hne].
        -- rewrite Hmk in Hmk'. injection Hmk' as <-.
           replace (3 * i + r) with (i * 3 + r) by lia.
           destruct r as [|[|[|r]]]; [| | |lia].
           ++ rewrite list_lookup_insert_ne by lia.
              rewrite list_lookup_insert_ne by lia.
              rewrite list_lookup_insert_eq by lia. reflexivity.
           ++ rewrite list_lookup_insert_ne by lia.
              rewrite list_lookup_insert_eq by (rewrite length_insert; lia).
              reflexivity.
           ++ rewrite list_lookup_insert_eq by (rewrite !length_insert; lia).
              reflexivity.
        -- rewrite !list_lookup_insert_ne by lia.
           apply Hrows; [lia|assumption..].
      * intros j Hj.
        assert (j ≠ 3 * i + 0 ∧ j ≠ 3 * i + 1 ∧ j ≠ 3 * i + 2) as (J0 & J1 & J2).
        { repeat split; apply (Hj i mk); auto; lia. }
        rewrite !list_lookup_insert_ne by lia.
        apply Hrest. intros k mk' r Hk. apply Hj. lia.
    + split; [exact Hlen|]. split.
      * intros k mk' r Hk Hmk' Hv' Hr.
        destruct (decide (k = i)) as [->|Hne].
        -- rewrite Hmk in Hmk'. injection Hmk' as <-. congruence.
        -- apply Hrows; [lia|assumption..].
      * intros j Hj. apply Hrest. intros k mk' r Hk. apply Hj. lia.
Qed.

Lemma weightedRank_S (t : IKTarget) (i : nat) (p : nat) :
  _unprescribedQs t !! i = Some p →
  weightedRank t (S i) =
  weightedRank t i +
  (if nonzero (weight (_coordinateInfos t !!! p)) then 1 else 0).
Proof.
  intros Hp. unfold weightedRank.
  rewrite (take_S_r _ _ _ Hp), weightedOf_app, length_app, weightedOf_singleton.
  destruct (nonzero (weight (_coordinateInfos t !!! p))); reflexivity.
Qed.

Lemma weightedRank_lookup (t : IKTarget) (i : nat) (p : nat) :
  _unprescribedQs t !! i = Some p →
  nonzero (weight (_coordinateInfos t !!! p)) = true →
  weightedOf t (_unprescribedQs t) !! weightedRank t i = Some p.
Proof.
  intros Hp Hw. unfold weightedRank.
  assert (weightedOf t (_unprescribedQs t) =
          weightedOf t (take i (_unprescribedQs t)) ++
          ([p] ++ weightedOf t (drop (S i) (_unprescribedQs t)))) as ->.
  { rewrite <- (take_drop i (_unprescribedQs t)) at 1.
    rewrite weightedOf_app, (drop_S _ _ _ Hp). f_equal.
    change (p :: drop (S i) (_unprescribedQs t))
      with ([p] ++ drop (S i) (_unprescribedQs t)).
    rewrite weightedOf_app, weightedOf_singleton, Hw. reflexivity. }
  rewrite lookup_app_r by lia. rewrite Nat.sub_diag. reflexivity.
Qed.

Lemma jacobianLoop_invariant (t : IKTarget) (jointQs : list R)
    (J : list (list R)) (n : nat) :
  well_formed t → length jointQs = _np t → length J = _np t → n ≤ _np t →
  let s := for_loop n (jacobianStep t jointQs (markerWeights t))
             (jacobianInit t jointQs J) in
  length (j_J s) = length J ∧
  length (j_xp s) = length jointQs ∧
  j_row s = 3 * length (_markers t) + weightedRank t n ∧
  length (j_pf s) = numRows t ∧
  (∀ k mk r, _markers t !! k = Some mk →
             validExperimentalPosition mk = false → r < 3 →
             j_pf s !! (3 * k + r) = Some 0%R) ∧
  (∀ j, 3 * length (_markers t) ≤ j → j < numRows t →
        j_pf s !! j = Some 0%R) ∧
  (∀ c, c < n → ∃ col, j_J s !! c = Some col ∧ JacobianColumn t jointQs J c col).
Proof.
  intros Hwf Hq HJ Hn. simpl.
  assert (_unprescribedWeightedQs t = weightedOf t (_unprescribedQs t)) as HW
    by (apply (wf_weighted t Hwf)).
  pose proof (wf_np t Hwf) as Hnp.
  apply (for_loop_ind (λ i s,
    i ≤ _np t →
    s = for_loop i (jacobianStep t jointQs (markerWeights t))
          (jacobianInit t jointQs J) ∧
    length (j_J s) = length J ∧
    length (j_xp s) = length jointQs ∧
    j_row s = 3 * length (_markers t) + weightedRank t i ∧
    length (j_pf s) = numRows t ∧
    (∀ k mk r, _markers t !! k = Some mk →
               validExperimentalPosition mk = false → r < 3 →
               j_pf s !! (3 * k + r) = Some 0%R) ∧
    (∀ j, 3 * length (_markers t) ≤ j → j < numRows t →
          j_pf s !! j = Some 0%R) ∧
    (∀ c, c < i → ∃ col, j_J s !! c = Some col ∧
                         JacobianColumn t jointQs J c col))).
  - intros _. split; [reflexivity|]. cbn [jacobianInit j_J j_xp j_row j_pf].
    assert (weightedRank t 0 = 0) as -> by reflexivity.
    split; [reflexivity|]. split; [reflexivity|]. split; [lia|].
    split; [apply length_replicate|]. split; [|split].
    + intros k mk r Hk _ Hr. apply lookup_replicate_2.
      apply lookup_lt_Some in Hk. unfold numRows. lia.
    + intros j _ Hj. apply lookup_replicate_2. exact Hj.
    + intros c Hc. lia.
  - intros i s Hi IH Hle.
    destruct IH as (Hs & HlenJ & Hlenxp & Hrow & Hlenpf & Hinv & Htrail & Hcols);
      [lia|].
    split; [rewrite for_loop_S, <- Hs; reflexivity|].
    assert (i < length (_unprescribedQs t)) as Hlt by lia.
    destruct (lookup_lt_is_Some_2 _ i Hlt) as [p Hp].
    pose proof (list_lookup_total_correct _ _ _ Hp) as Hp'.
    (* the model in which the markers of this column are transformed *)
    assert (setValue
              (setClamped (j_model s)
                 (coord (_coordinateInfos t !!! (_unprescribedQs t !!! i))) false)
              (coord (_coordinateInfos t !!! (_unprescribedQs t !!! i)))
              (vec_get (<[i := (vec_get jointQs i + vec_get (_dx t) i)%R]> (j_xp s)) i)
              true
            = perturbedModel t jointQs J i) as Hm2.
    { unfold perturbedModel. fold (jacobianInit t jointQs J). rewrite <- Hs.
      f_equal. apply vec_get_lookup, list_lookup_insert_eq. lia. }
    pose proof (jacobian_marker_loop t (markerWeights t)
                  (perturbedModel t jointQs J i) (j_pf s)
                  (length (_markers t)) (le_n _)) as Hloop.
    destruct Hloop as (Hlen' & Hrows' & Hrest');
      [rewrite Hlenpf; unfold numRows; lia|].
    cbn zeta in Hlen', Hrows', Hrest'.
    set (pf := for_loop (length (_markers t))
                 (jacobianMarkerStep t (markerWeights t)
                    (perturbedModel t jointQs J i)) (j_pf s)) in *.
    assert (∀ k mk r, _markers t !! k = Some mk →
                      validExperimentalPosition mk = false → r < 3 →
                      pf !! (3 * k + r) = Some 0%R) as Hinv'.
    { intros k mk r Hk Hv Hr. rewrite Hrest'; [eapply Hinv; eassumption|].
      intros k' mk' r' _ Hk' Hv' Hr' Heq.
      assert (k' = k) as -> by lia. congruence. }
    assert (∀ j, 3 * length (_markers t) ≤ j → j < numRows t →
                 pf !! j = Some 0%R) as Htrail'.
    { intros j Hj1 Hj2. rewrite Hrest'; [apply Htrail; assumption|].
      intros k' mk' r' Hk' _ _ Hr'. lia. }
    set (rdx := (1 / vec_get (_dx t) i)%R).
    set (col0 := (λ v, rdx * v)%R <$> pf).
    assert (∀ k mk r, _markers t !! k = Some mk →
                      validExperimentalPosition mk = true → r < 3 →
                      col0 !! (3 * k + r) =
                      Some (sqrt (m_weight mk) *
                            (vget (markerGlobalPos (perturbedModel t jointQs J i) mk) r -
                             vget (computedPosition mk) r) / vec_get (_dx t) i)%R)
      as Hvalid0.
    { intros k mk r Hk Hv Hr. unfold col0.
      rewrite list_lookup_fmap.
      rewrite (Hrows' k mk r) by (assumption || (eapply lookup_lt_Some; eassumption)).
      rewrite (markerWeights_spec t k mk Hk), Hv. simpl. f_equal.
      unfold rdx, Rdiv. ring. }
    assert (∀ j, pf !! j = Some 0%R → col0 !! j = Some 0%R) as Hzero0.
    { intros j Hj. unfold col0. rewrite list_lookup_fmap, Hj. simpl. f_equal.
      ring. }
    assert (length col0 = numRows t) as Hlen0.
    { unfold col0. rewrite length_fmap. lia. }
    pose proof (weightedRank_S t i p Hp) as HrankS.
    unfold jacobianStep. rewrite Hm2. fold pf. fold rdx. fold col0.
    rewrite Hp' in *.
    destruct (nonzero (weight (_coordinateInfos t !!! p))) eqn:Hw;
      cbn [j_J j_xp j_row j_pf].
    + pose proof (weightedRank_lookup t i p Hp Hw) as Hlook.
      assert (weightedRank t i < length (_unprescribedWeightedQs t)) as Hrk.
      { rewrite HW. eapply lookup_lt_Some; eassumption. }
      rewrite list_lookup_total_insert_eq by lia.
      rewrite list_insert_insert_eq.
      split; [rewrite length_insert; exact HlenJ|].
      split; [rewrite !length_insert; exact Hlenxp|].
      split; [lia|]. split; [lia|]. split; [exact Hinv'|].
      split; [exact Htrail'|].
      intros c Hc. destruct (decide (c = i)) as [->|Hne].
      * eexists. split; [apply list_lookup_insert_eq; lia|].
        rewrite Hrow. split.
        -- rewrite length_insert. exact Hlen0.
        -- intros k mk r Hk Hv Hr.
           rewrite list_lookup_insert_ne
             by (apply lookup_lt_Some in Hk; lia).
           apply Hvalid0; assumption.
        -- intros k mk r Hk Hv Hr.
           rewrite list_lookup_insert_ne
             by (apply lookup_lt_Some in Hk; lia).
           apply Hzero0. eapply Hinv'; eassumption.
        -- rewrite Hp'. intros _. split; [rewrite HW; exact Hlook|].
           apply list_lookup_insert_eq. rewrite Hlen0. unfold numRows. lia.
        -- rewrite Hp'. intros j Hj1 Hj2 Hj3.
           rewrite list_lookup_insert_ne by (specialize (Hj3 Hw); lia).
           apply Hzero0, Htrail'; assumption.
      * rewrite list_lookup_insert_ne by auto. apply Hcols. lia.
    + split; [rewrite length_insert; exact HlenJ|].
      split; [rewrite !length_insert; exact Hlenxp|].
      split; [lia|]. split; [lia|]. split; [exact Hinv'|].
      split; [exact Htrail'|].
      intros c Hc. destruct (decide (c = i)) as [->|Hne].
      * eexists. split; [apply list_lookup_insert_eq; lia|].
        split.
        -- exact Hlen0.
        -- exact Hvalid0.
        -- intros k mk r Hk Hv Hr. apply Hzero0. eapply Hinv'; eassumption.
        -- rewrite Hp', Hw. discriminate.
        -- intros j Hj1 Hj2 _. apply Hzero0, Htrail'; assumption.
      * rewrite list_lookup_insert_ne by auto. apply Hcols. lia.
  - exact Hn.
Qed.

(** C7: [createJacobian], called with one value and one column per
    parameter, leaves a matrix with |parameters| columns of
    3*|markers| + |weighted unprescribed coordinates| rows.  In column [i],
    a row of a marker with a valid experimental position holds the forward
    difference sqrt(weight)*(perturbed - baseline)/[_dx[i]], the baseline
    being the stored computed position; a row of a marker without one holds
    zero; and if the coordinate of parameter [i] has a nonzero weight, its
    row in the trailing block holds sqrt(weight), whatever the step, the
    rest of the trailing block being zero. *)
Theorem createJacobian_columns (t : IKTarget) (jointQs : list R)
    (J : list (list R)) :
  well_formed t → length jointQs = _np t → length J = _np t →
  length (createJacobian t jointQs J).2 = _np t ∧
  ∀ i, i < _np t →
       ∃ col, (createJacobian t jointQs J).2 !! i = Some col ∧
              JacobianColumn t jointQs J i col.
Proof.
  intros Hwf Hq HJ.
  pose proof (jacobianLoop_invariant t jointQs J (_np t) Hwf Hq HJ (le_n _))
    as (HlenJ & _ & _ & _ & _ & _ & Hcols).
  unfold createJacobian, jacobianLoop. cbn [snd].
  fold (jacobianInit t jointQs J).
  split; [rewrite HlenJ; exact HJ|exact Hcols].
Qed.

(** ** The objective and the gradient as evaluations *)

Lemma objectiveFunc_state (t : IKTarget) (x : list R) :
  (objectiveFunc t x).1 = t ∨
  ∃ a, (objectiveFunc t x).1 =
       reportErrors
         (set_markers (set_model t (setParameters t (vec_get x) (_model t)))
            (evaluated (setParameters t (vec_get x) (_model t)) <$> _markers t))
         a.
Proof.
  unfold objectiveFunc. destruct (_interrupted t); [left; reflexivity|].
  right.
  pose proof (objective_markers (setParameters t (vec_get x) (_model t))
                (_markers t) tally0) as [Hmks _].
  destruct (for_loop (length (_markers t)) _ (_markers t, tally0)) as [mks a].
  simpl in Hmks. subst mks. eexists. reflexivity.
Qed.

Lemma fmap_evaluated_bound (m : Model) (mks : list markerToSolve) :
  marker_bound <$> (evaluated m <$> mks) = marker_bound <$> mks.
Proof.
  rewrite <- list_fmap_compose. apply list_fmap_ext.
  intros i mk _. apply evaluated_bound.
Qed.

Lemma objectiveFunc_frame (t : IKTarget) (x : list R) :
  eval_frame t (objectiveFunc t x).1.
Proof.
  destruct (objectiveFunc_state t x) as [->|[a ->]].
  - apply eval_frame_refl.
  - eapply eval_frame_trans; [|apply eval_frame_reportErrors].
    split; try reflexivity. apply fmap_evaluated_bound.
Qed.

Lemma objectiveFunc_keeps_invalid (t : IKTarget) (x : list R) :
  keeps_invalid (_markers t) (_markers (objectiveFunc t x).1).
Proof.
  destruct (objectiveFunc_state t x) as [->|[a ->]].
  - apply keeps_invalid_refl.
  - rewrite reportErrors_markers. apply keeps_invalid_evaluated.
Qed.

Lemma objectiveFunc_result (t : IKTarget) (x : list R) :
  _interrupted t = false →
  (objectiveFunc t x).2 = inr (0%Z, objectiveValue t x).
Proof.
  intros Hint. unfold objectiveValue.
  destruct (objectiveFunc_eval t x Hint) as (t' & -> & _). reflexivity.
Qed.

Lemma eval_frame_set_calcDerivs (t : IKTarget) (b : bool) :
  eval_frame t (set_calcDerivs t b).
Proof. split; reflexivity. Qed.

(** The differencing loop on a target that is not interrupted. *)
Lemma difference_loop (t0 : IKTarget) (dx x : list R) (p : R)
    (dpdx : list R) (n : nat) :
  _interrupted t0 = false →
  let tj := λ j, for_loop j (λ j t', (objectiveFunc t' (perturbed dx x j)).1) t0 in
  ∃ g, for_loop n (differenceStep dx x p) (t0, inr dpdx) = (tj n, inr g) ∧
       length g = length dpdx ∧
       (∀ i, i < n → i < length dpdx →
             g !! i = Some ((objectiveValue (tj i) (perturbed dx x i) - p)
                            / vec_get dx i)%R) ∧
       (∀ i, n ≤ i → g !! i = dpdx !! i).
Proof.
  intros Hint. simpl.
  assert (∀ j, eval_frame t0
                 (for_loop j (λ j t', (objectiveFunc t' (perturbed dx x j)).1) t0))
    as Hframe.
  { induction j as [|j IH]; [apply eval_frame_refl|].
    rewrite for_loop_S. eapply eval_frame_trans; [exact IH|].
    apply objectiveFunc_frame. }
  induction n as [|n IH].
  - exists dpdx. repeat split; auto. intros; lia.
  - destruct IH as (g & Hloop & Hlen & Hrows & Hrest).
    rewrite for_loop_S, Hloop. unfold differenceStep.
    fold (perturbed dx x n).
    set (tn := for_loop n (λ j t', (objectiveFunc t' (perturbed dx x j)).1) t0)
      in *.
    assert (_interrupted tn = false) as Hintn.
    { unfold tn. rewrite (ef_interrupted _ _ (Hframe n)). exact Hint. }
    pose proof (objectiveFunc_result tn (perturbed dx x n) Hintn) as Hres.
    rewrite (surjective_pairing (objectiveFunc tn (perturbed dx x n))), Hres.
    eexists. split; [rewrite for_loop_S; reflexivity|].
    split; [rewrite length_insert; exact Hlen|]. split.
    + intros i Hi Hi'. destruct (decide (i = n)) as [->|Hne].
      * rewrite list_lookup_insert_eq by lia. reflexivity.
      * rewrite list_lookup_insert_ne by auto. apply Hrows; lia.
    + intros i Hi. rewrite list_lookup_insert_ne by lia. apply Hrest. lia.
Qed.

(** C1: on a target that is not interrupted, [gradientFunc] returns
    status 0 and, for each parameter [i], writes into slot [i] of the
    gradient the one-sided forward difference of the scalar objective with
    the fixed step [_dx[i]]: the objective at [x] with [x_i] increased by
    [_dx[i]], minus the objective at [x], divided by [_dx[i]].  The
    differencing routine that [gradientFunc] delegates to is the one
    modelled from the spec. *)
Theorem gradientFunc_forward_difference (t : IKTarget) (x dpdx : list R) :
  _interrupted t = false →
  ∃ t' g,
    gradientFunc t x dpdx = (t', inr (0%Z, g)) ∧
    length g = length dpdx ∧
    ∀ i, i < _np t → i < length dpdx →
         g !! i =
         Some ((objectiveValue (gradientState t x i) (perturbed (_dx t) x i) -
                objectiveValue (set_calcDerivs t true) x)
               / vec_get (_dx t) i)%R.
Proof.
  intros Hint. unfold gradientFunc, CentralDifferences.
  assert (_interrupted (set_calcDerivs t true) = false) as Hint1 by exact Hint.
  pose proof (objectiveFunc_result _ x Hint1) as Hres.
  rewrite (surjective_pairing (objectiveFunc (set_calcDerivs t true) x)), Hres.
  set (t0 := (objectiveFunc (set_calcDerivs t true) x).1).
  assert (_interrupted t0 = false) as Hint0.
  { unfold t0. rewrite (ef_interrupted _ _ (objectiveFunc_frame _ x)).
    exact Hint1. }
  destruct (difference_loop t0 (_dx t) x
              (objectiveValue (set_calcDerivs t true) x) dpdx (_np t) Hint0)
    as (g & Hloop & Hlen & Hrows & _).
  change (_np (set_calcDerivs t true)) with (_np t).
  change (_dx (set_calcDerivs t true)) with (_dx t).
  rewrite Hloop. eexists _, g. split; [reflexivity|]. split; [exact Hlen|].
  intros i Hi Hi'. apply Hrows; assumption.
Qed.

Lemma differenceStep_frame (dx x : list R) (p : R) (i : nat)
    (st : IKTarget * (exn + list R)) :
  eval_frame st.1 (differenceStep dx x p i st).1.
Proof.
  destruct st as [t [e|d]]; simpl; [apply eval_frame_refl|].
  pose proof (objectiveFunc_frame t
                (<[i := (vec_get x i + vec_get dx i)%R]> x)) as Hf.
  destruct (objectiveFunc t _) as [t' [e|[st f]]]; exact Hf.
Qed.

Lemma gradientFunc_frame (t : IKTarget) (x dpdx : list R) :
  eval_frame t (gradientFunc t x dpdx).1.
Proof.
  unfold gradientFunc, CentralDifferences.
  pose proof (objectiveFunc_frame (set_calcDerivs t true) x) as Hf0.
  destruct (objectiveFunc (set_calcDerivs t true) x) as [t0 [e|[st p]]];
    simpl in Hf0.
  - simpl. eapply eval_frame_trans; [apply eval_frame_set_calcDerivs|exact Hf0].
  - assert (∀ n r, eval_frame t0
              (for_loop n (differenceStep (_dx t) x p) (t0, r)).1) as Hloop.
    { induction n as [|n IH]; intros r; [apply eval_frame_refl|].
      rewrite for_loop_S. eapply eval_frame_trans; [apply IH|].
      apply differenceStep_frame. }
    specialize (Hloop (_np t) (inr dpdx)).
    change (_np (set_calcDerivs t true)) with (_np t).
    change (_dx (set_calcDerivs t true)) with (_dx t).
    destruct (for_loop (_np t) _ (t0, inr dpdx)) as [t' [e|g]]; simpl in *.
    + eapply eval_frame_trans; [apply eval_frame_set_calcDerivs|].
      eapply eval_frame_trans; eassumption.
    + eapply eval_frame_trans; [apply eval_frame_set_calcDerivs|].
      eapply eval_frame_trans; [exact Hf0|].
      eapply eval_frame_trans; [exact Hloop|].
      apply eval_frame_set_calcDerivs.
Qed.

Lemma printPerformance_frame (t : IKTarget) (x : list R) :
  eval_frame t (printPerformance t x).1.
Proof.
  unfold printPerformance.
  pose proof (objectiveFunc_frame (set_printPerformanceValues t true) x) as Hf.
  assert (eval_frame t (set_printPerformanceValues t true)) as H0
    by (split; reflexivity).
  destruct (objectiveFunc _ x) as [t' [e|r]]; simpl in *.
  - eapply eval_frame_trans; eassumption.
  - eapply eval_frame_trans; [exact H0|].
    eapply eval_frame_trans; [exact Hf|]. split; reflexivity.
Qed.

(** ** What the solver leaves untouched *)

Lemma reached_frame (t : IKTarget) (results : list R) (ph : phase)
    (s : SolverState) :
  Reached t results ph s →
  eval_frame t (s_target s) ∧
  keeps_invalid (_markers t) (_markers (s_target s)).
Proof.
  intros Hr. induction Hr as [|s Hr IH Hc|s Hr IH Hgt|s Hr IH Hle].
  - destruct (solverInit_eval t results) as (Ht & _). simpl in Ht.
    rewrite Ht. split.
    + apply residualPass_frame.
    + apply residualPass_keeps_invalid.
  - destruct IH as (Hf & Hk).
    destruct (solveStep_eval s) as (m & q & H). simpl in H.
    destruct H as (Ht & _). rewrite Ht. split.
    + eapply eval_frame_trans; [exact Hf|].
      eapply eval_frame_trans; [apply (eval_frame_set_model _ m)|].
      apply residualPass_frame.
    + eapply keeps_invalid_trans; [exact Hk|].
      apply (residualPass_keeps_invalid (set_model (s_target s) m)).
  - destruct IH as (Hf & Hk).
    destruct (halveStep_eval s) as (q & H). simpl in H.
    destruct H as (Ht & _). rewrite Ht. split.
    + eapply eval_frame_trans; [exact Hf|apply residualPass_frame].
    + eapply keeps_invalid_trans; [exact Hk|].
      apply residualPass_keeps_invalid.
  - exact IH.
Qed.

Lemma solverFinish_target (s : SolverState) :
  eval_frame (s_target s) (solverFinish s).1.1 ∧
  _markers (solverFinish s).1.1 = _markers (s_target s).
Proof.
  unfold solverFinish. cbn [fst]. split.
  - eapply eval_frame_trans; [|apply eval_frame_reportErrors].
    apply eval_frame_set_model.
  - rewrite reportErrors_markers. reflexivity.
Qed.

Lemma iterativeOptimization_frame (fuel : nat) (t : IKTarget)
    (results : list R) (r : IKTarget * list R * Z) :
  iterativeOptimization fuel t results = Some r →
  eval_frame t r.1.1 ∧ keeps_invalid (_markers t) (_markers r.1.1).
Proof.
  unfold iterativeOptimization. intros Hr.
  destruct (solverLoop fuel maxIter (solverInit t results)) as [s|] eqn:Hl;
    [|discriminate].
  injection Hr as <-.
  destruct (solverLoop_reached t results fuel maxIter _ s
              (reach_init t results) Hl) as [Hreach _].
  destruct (reached_frame t results LoopHead s Hreach) as [Hf Hk].
  destruct (solverFinish_target s) as [Hf' Hm'].
  split.
  - eapply eval_frame_trans; eassumption.
  - rewrite Hm'. exact Hk.
Qed.

(** ** Stale computed positions *)

Lemma getComputedMarkerLocations_bind (t : IKTarget) :
  getComputedMarkerLocations t =
  _markers t ≫= (λ mk, [v0 (computedPosition mk); v1 (computedPosition mk);
                        v2 (computedPosition mk)]).
Proof.
  unfold getComputedMarkerLocations.
  enough (∀ n, n ≤ length (_markers t) →
            for_loop n
              (λ i a, let p := computedPosition (_markers t !!! i) in
                      a ++ [v0 p; v1 p; v2 p]) []
            = take n (_markers t) ≫=
                (λ mk, [v0 (computedPosition mk); v1 (computedPosition mk);
                        v2 (computedPosition mk)])) as H.
  { specialize (H _ (le_n _)). rewrite firstn_all in H. exact H. }
  induction n as [|n IH]; intros Hn; [reflexivity|].
  rewrite for_loop_S, IH by lia.
  destruct (lookup_lt_is_Some_2 (_markers t) n) as [mk Hmk]; [lia|].
  rewrite (take_S_r _ _ _ Hmk), bind_app.
  rewrite (list_lookup_total_correct _ _ _ Hmk). simpl. reflexivity.
Qed.

Lemma bind3_length (mks : list markerToSolve) :
  length (mks ≫= (λ mk, [v0 (computedPosition mk); v1 (computedPosition mk);
                         v2 (computedPosition mk)])) = 3 * length mks.
Proof.
  induction mks as [|mk mks IH]; [reflexivity|].
  cbn [mbind list_bind]. rewrite length_app. cbn [length].
  change (list_bind _ _ _ mks) with
    (mks ≫= (λ mk, [v0 (computedPosition mk); v1 (computedPosition mk);
                    v2 (computedPosition mk)])).
  rewrite IH. lia.
Qed.

Lemma bind3_lookup (mks : list markerToSolve) (i r : nat) (mk : markerToSolve) :
  mks !! i = Some mk → r < 3 →
  (mks ≫= (λ mk, [v0 (computedPosition mk); v1 (computedPosition mk);
                  v2 (computedPosition mk)])) !! (3 * i + r)
  = Some (vget (computedPosition mk) r).
Proof.
  revert i. induction mks as [|mk0 mks IH]; intros i Hi Hr; [discriminate|].
  destruct i as [|i].
  - injection Hi as ->. destruct r as [|[|[|r]]]; [reflexivity..|lia].
  - simpl in Hi. replace (3 * S i + r) with (3 + (3 * i + r)) by lia.
    cbn [mbind list_bind]. rewrite lookup_app_r by (cbn [length]; lia).
    cbn [length]. replace (3 + (3 * i + r) - 3) with (3 * i + r) by lia.
    apply IH; assumption.
Qed.

(** C10: a marker whose [validExperimentalPosition] is false is left as it
    is, computed position included, by [objectiveFunc], by every residual
    evaluation of the solver and by [iterativeOptimization] as a whole; and
    [getComputedMarkerLocations] returns three components per marker, those
    of this marker being its stored, stale computed position. *)
Theorem stale_computedPosition (t : IKTarget) (i : nat) (mk : markerToSolve) :
  _markers t !! i = Some mk → validExperimentalPosition mk = false →
  (∀ x, _markers (objectiveFunc t x).1 !! i = Some mk) ∧
  (∀ q d, _markers (residualPass t q d).1 !! i = Some mk) ∧
  (∀ results ph s, Reached t results ph s →
                   _markers (s_target s) !! i = Some mk) ∧
  (∀ fuel results r, iterativeOptimization fuel t results = Some r →
                     _markers r.1.1 !! i = Some mk ∧
                     ∀ j, j < 3 →
                          getComputedMarkerLocations r.1.1 !! (3 * i + j)
                          = Some (vget (computedPosition mk) j)) ∧
  length (getComputedMarkerLocations t) = 3 * length (_markers t) ∧
  (∀ j, j < 3 →
        getComputedMarkerLocations t !! (3 * i + j)
        = Some (vget (computedPosition mk) j)).
Proof.
  intros Hi Hv. split; [|split; [|split; [|split; [|split]]]].
  - intros x. apply (objectiveFunc_keeps_invalid t x i mk Hi Hv).
  - intros q d. apply (residualPass_keeps_invalid t q d i mk Hi Hv).
  - intros results ph s Hr.
    destruct (reached_frame t results ph s Hr) as [_ Hk].
    apply (Hk i mk Hi Hv).
  - intros fuel results r Hr.
    destruct (iterativeOptimization_frame fuel t results r Hr) as [_ Hk].
    pose proof (Hk i mk Hi Hv) as Hi'. split; [exact Hi'|].
    intros j Hj. rewrite getComputedMarkerLocations_bind.
    apply bind3_lookup; assumption.
  - rewrite getComputedMarkerLocations_bind. apply bind3_length.
  - intros j Hj. rewrite getComputedMarkerLocations_bind.
    apply bind3_lookup; assumption.
Qed.

(** ** Binding a frame *)

Lemma static_lookup (l l0 : list coordinateInfo) (p : nat) :
  info_static <$> l = info_static <$> l0 →
  info_static (l !!! p) = info_static (l0 !!! p).
Proof.
  intros H. rewrite !list_lookup_total_alt.
  assert ((info_static <$> l) !! p = (info_static <$> l0) !! p) as Hp
    by (rewrite H; reflexivity).
  rewrite !list_lookup_fmap in Hp.
  destruct (l !! p), (l0 !! p); simpl in *; congruence.
Qed.

Lemma static_insert (l : list coordinateInfo) (p : nat) (x : coordinateInfo) :
  info_static x = info_static (l !!! p) →
  info_static <$> <[p := x]> l = info_static <$> l.
Proof.
  intros Hx. destruct (decide (p < length l)) as [Hlt|Hge].
  - rewrite list_fmap_insert. apply list_insert_id.
    rewrite list_lookup_fmap.
    destruct (lookup_lt_is_Some_2 l p Hlt) as [y Hy].
    rewrite Hy. simpl. rewrite Hx, (list_lookup_total_correct _ _ _ Hy).
    reflexivity.
  - rewrite list_insert_ge by lia. reflexivity.
Qed.

Lemma static_weight (l l0 : list coordinateInfo) (p : nat) :
  info_static <$> l = info_static <$> l0 →
  weight (l !!! p) = weight (l0 !!! p) ∧
  experimentalColumn (l !!! p) = experimentalColumn (l0 !!! p) ∧
  coord (l !!! p) = coord (l0 !!! p) ∧
  prescribed (l !!! p) = prescribed (l0 !!! p).
Proof.
  intros H. pose proof (static_lookup l l0 p H) as Hs.
  unfold info_static in Hs. injection Hs as H1 H2 H3 H4 H5. auto.
Qed.

Lemma unprescribed_loop (t : IKTarget) (m : Model) (dataRow : StateVector)
    (q0 : list R) (n : nat) :
  let st := for_loop n (unprescribedStep t m dataRow) (_coordinateInfos t, q0) in
  info_static <$> st.1 = info_static <$> _coordinateInfos t ∧
  length st.2 = length q0 ∧
  (∀ j, j < n → j < length q0 →
        let info := _coordinateInfos t !!! (_unprescribedQs t !!! j) in
        (0 <= experimentalColumn info)%Z →
        st.2 !! j =
        Some (getDataValue dataRow (experimentalColumn info) (vec_get q0 j))) ∧
  (∀ j, n ≤ j → st.2 !! j = q0 !! j).
Proof.
  simpl. induction n as [|n IH].
  - repeat split; auto. intros; lia.
  - rewrite for_loop_S.
    destruct (for_loop n (unprescribedStep t m dataRow) (_coordinateInfos t, q0))
      as [infos q].
    cbn [fst snd] in IH. destruct IH as (Hst & Hlen & Hrows & Hrest).
    unfold unprescribedStep.
    set (p := _unprescribedQs t !!! n).
    destruct (static_weight infos (_coordinateInfos t) p Hst)
      as (Hw & Hcol & _ & _).
    set (q' := if (0 <=? experimentalColumn (infos !!! p))%Z
               then <[n := getDataValue dataRow
                             (experimentalColumn (infos !!! p)) (vec_get q n)]> q
               else <[n := getValue m (coord (infos !!! p))]> q).
    assert (length q' = length q0) as Hlen'.
    { unfold q'. destruct (0 <=? _)%Z; rewrite length_insert; exact Hlen. }
    assert (∀ j, j ≠ n → q' !! j = q !! j) as Hne.
    { intros j Hj. unfold q'.
      destruct (0 <=? _)%Z; rewrite list_lookup_insert_ne by auto; reflexivity. }
    cbn [fst snd]. split; [|split; [exact Hlen'|split]].
    + destruct (nonzero (weight (infos !!! p))); [|exact Hst].
      rewrite static_insert; [exact Hst|reflexivity].
    + intros j Hj Hjlen Hc. destruct (decide (j = n)) as [->|Hjn].
      * fold p in Hc. unfold q'. rewrite Hcol.
        destruct (Z.leb_spec 0 (experimentalColumn (_coordinateInfos t !!! p)));
          [|lia].
        rewrite list_lookup_insert_eq by lia. f_equal. f_equal.
        unfold vec_get. rewrite Hrest by lia. reflexivity.
      * rewrite Hne by exact Hjn. apply Hrows; [lia|exact Hjlen|exact Hc].
    + intros j Hj. rewrite Hne by lia. apply Hrest. lia.
Qed.

Lemma prepareToSolve_state (t : IKTarget) (aIndex : Z) (qGuess : list R) :
  let dataRow := getStateVector (_experimentalDataStorage t) aIndex in
  let m := for_loop (length (_prescribedQs t)) (prescribedStep t dataRow)
                    (_model t) in
  let st := for_loop (length (_unprescribedQs t)) (unprescribedStep t m dataRow)
                     (_coordinateInfos t, qGuess) in
  prepareToSolve t aIndex qGuess =
  (set_markers (set_coordinateInfos (set_model t m) st.1)
     (for_loop (length (_markers t)) (markerBindStep dataRow) (_markers t)),
   st.2).
Proof.
  simpl. unfold prepareToSolve.
  destruct (for_loop (length (_unprescribedQs t)) _ (_coordinateInfos t, qGuess)).
  reflexivity.
Qed.

Lemma prepareToSolve_classification (t : IKTarget) (aIndex : Z)
    (qGuess : list R) :
  classification (prepareToSolve t aIndex qGuess).1 = classification t.
Proof.
  rewrite prepareToSolve_state. unfold classification. cbn.
  match goal with
  | |- context [for_loop ?n (unprescribedStep t ?m ?row) ?a] =>
      destruct (unprescribed_loop t m row qGuess n) as (Hst & _)
  end.
  cbn in Hst. rewrite Hst. reflexivity.
Qed.

Lemma weightedOf_static (t t' : IKTarget) (qs : list nat) :
  info_static <$> _coordinateInfos t' = info_static <$> _coordinateInfos t →
  weightedOf t' qs = weightedOf t qs.
Proof.
  intros H. unfold weightedOf. apply list_filter_iff. intros p.
  destruct (static_weight _ _ p H) as (-> & _). reflexivity.
Qed.

(** C9: for an unprescribed coordinate whose weight is 0 and whose value
    comes from the file ([experimentalColumn >= 0]), [prepareToSolve] sets
    the initial guess [qGuess[i]] from its column of the data row; the
    coordinate is not in the weighted set, so that the pass of the
    residual loop for parameter [i] writes no row, and no term of the
    objective is taken for it. *)
Theorem zero_weight_guess (t : IKTarget) (aIndex : Z) (qGuess : list R)
    (i : nat) :
  well_formed t → i < _np t → i < length qGuess →
  let p := _unprescribedQs t !!! i in
  let info := _coordinateInfos t !!! p in
  weight info = 0%R → (0 <= experimentalColumn info)%Z →
  let t' := (prepareToSolve t aIndex qGuess).1 in
  (prepareToSolve t aIndex qGuess).2 !! i =
    Some (getDataValue (getStateVector (_experimentalDataStorage t) aIndex)
            (experimentalColumn info) (vec_get qGuess i)) ∧
  _unprescribedQs t' !! i = Some p ∧
  (p ∉ _unprescribedWeightedQs t') ∧
  (∀ m st, residualCoordinateStep t' m i st = st) ∧
  (∀ k, k < length (_unprescribedWeightedQs t') →
        _unprescribedWeightedQs t' !!! k ≠ p).
Proof.
  intros Hwf Hi Hq p info Hw Hc t'.
  pose proof (prepareToSolve_classification t aIndex qGuess) as Hcl.
  fold t' in Hcl. unfold classification in Hcl.
  injection Hcl as HP HU HW Hst.
  assert (i < length (_unprescribedQs t)) as Hlt
    by (rewrite <- (wf_np t Hwf); exact Hi).
  destruct (lookup_lt_is_Some_2 _ i Hlt) as [p' Hp'].
  assert (p' = p) as -> by (symmetry; apply list_lookup_total_correct; exact Hp').
  assert (weight (_coordinateInfos t' !!! p) = 0%R) as Hw'.
  { destruct (static_weight _ _ p Hst) as (-> & _). exact Hw. }
  assert (p ∉ _unprescribedWeightedQs t') as Hnot.
  { rewrite HW, (wf_weighted t Hwf). intros Hin.
    apply list_elem_of_filter in Hin. destruct Hin as [Hnz _].
    fold info in Hnz. rewrite Hw, nonzero_0 in Hnz. discriminate. }
  split; [|split; [|split; [|split]]].
  - rewrite prepareToSolve_state. cbn [snd].
    match goal with
    | |- context [for_loop ?n (unprescribedStep t ?m ?row) ?a] =>
        destruct (unprescribed_loop t m row qGuess n) as (_ & _ & Hrows & _)
    end.
    apply Hrows; assumption.
  - rewrite HU. exact Hp'.
  - exact Hnot.
  - intros m [row d]. unfold residualCoordinateStep.
    rewrite HU, (list_lookup_total_correct _ _ _ Hp'), Hw', nonzero_0.
    reflexivity.
  - intros k Hk Heq. apply Hnot.
    rewrite <- Heq. apply list_elem_of_lookup_total_2. exact Hk.
Qed.

(** ** Construction *)

Lemma allCoordinates0_lookup (m : Model) (p : nat) :
  p < length (coordinateNames m) →
  allCoordinates0 m !!! p = initialInfo m p.
Proof.
  intros Hp. apply list_lookup_total_correct. unfold allCoordinates0.
  rewrite list_lookup_fmap, lookup_seq_lt by exact Hp. reflexivity.
Qed.

Lemma coordinateTaskStep_identity (m : Model) (aNameArray : list string)
    (infos infos' : list coordinateInfo) (task : IKTask) :
  coordinateTaskStep m aNameArray infos task = inr infos' →
  length infos' = length infos ∧
  ∀ p, coord (infos' !!! p) = coord (infos !!! p) ∧
       prescribed (infos' !!! p) = prescribed (infos !!! p).
Proof.
  assert (∀ (p0 : nat) (x : coordinateInfo),
            coord x = coord (infos !!! p0) →
            prescribed x = prescribed (infos !!! p0) →
            length (<[p0 := x]> infos) = length infos ∧
            ∀ p, coord (<[p0 := x]> infos !!! p) = coord (infos !!! p) ∧
                 prescribed (<[p0 := x]> infos !!! p) = prescribed (infos !!! p))
    as Hins.
  { intros p0 x Hc Hp. split; [apply length_insert|].
    intros p. destruct (decide (p = p0)) as [->|Hne].
    - destruct (decide (p0 < length infos)) as [Hlt|Hge].
      + rewrite list_lookup_total_insert_eq by exact Hlt. auto.
      + rewrite list_insert_ge by lia. auto.
    - rewrite list_lookup_total_insert_ne by auto. auto. }
  unfold coordinateTaskStep.
  destruct task as [? ? ?|coordName [|] w vt v]; intros H;
    try (injection H as <-; auto).
  destruct (findIndex (coordinateNames m) coordName <? 0)%Z; [discriminate|].
  destruct vt.
  - injection H as <-. apply Hins; reflexivity.
  - injection H as <-. apply Hins; reflexivity.
  - destruct (rfindIndex aNameArray coordName <? 0)%Z; [discriminate|].
    injection H as <-. apply Hins; reflexivity.
Qed.

Lemma coordinateTaskLoop_identity (m : Model) (aNameArray : list string)
    (tasks : list IKTask) (infos infos' : list coordinateInfo) :
  coordinateTaskLoop m aNameArray tasks infos = inr infos' →
  length infos' = length infos ∧
  ∀ p, coord (infos' !!! p) = coord (infos !!! p) ∧
       prescribed (infos' !!! p) = prescribed (infos !!! p).
Proof.
  unfold coordinateTaskLoop. revert infos.
  induction tasks as [|task tasks IH]; intros infos H; simpl in H.
  - injection H as <-. auto.
  - destruct (coordinateTaskStep m aNameArray infos task) as [e|infos1] eqn:H1.
    + exfalso. clear -H. induction tasks as [|? ? IHt]; simpl in H;
        [discriminate|auto].
    + destruct (coordinateTaskStep_identity _ _ _ _ _ H1) as [Hl1 Hp1].
      destruct (IH infos1 H) as [Hl Hp]. split; [congruence|].
      intros p. destruct (Hp p) as [-> ->]. apply Hp1.
Qed.

Lemma filterLoop_spec (infos : list coordinateInfo) :
  filterLoop infos =
  let unpresc := filter (λ p, prescribed (infos !!! p) = false)
                        (seq 0 (length infos)) in
  mkQSets (filter (λ p, prescribed (infos !!! p) = true) (seq 0 (length infos)))
          unpresc
          (filter (λ p, nonzero (weight (infos !!! p)) = true) unpresc).
Proof.
  unfold filterLoop. simpl.
  generalize (length infos) at 1 2 3 4. intros n.
  induction n as [|n IH]; [reflexivity|].
  rewrite for_loop_S, IH, seq_S, !filter_app. cbn [Nat.add].
  unfold filterStep. cbn [qs_prescribed qs_unprescribed qs_unprescribedWeighted].
  destruct (prescribed (infos !!! n)) eqn:Hp.
  - rewrite (filter_singleton_True
               (λ p : nat, prescribed (infos !!! p) = true) n [] Hp).
    rewrite (filter_singleton_False
               (λ p : nat, prescribed (infos !!! p) = false) n [])
      by (rewrite Hp; discriminate).
    rewrite ?filter_nil, !app_nil_r. reflexivity.
  - rewrite (filter_singleton_True
               (λ p : nat, prescribed (infos !!! p) = false) n [] Hp).
    rewrite (filter_singleton_False
               (λ p : nat, prescribed (infos !!! p) = true) n [])
      by (rewrite Hp; discriminate).
    rewrite app_nil_r.
    destruct (nonzero (weight (infos !!! n))) eqn:Hw.
    + rewrite (filter_singleton_True
                 (λ p : nat, nonzero (weight (infos !!! p)) = true) n [] Hw).
      reflexivity.
    + rewrite (filter_singleton_False
                 (λ p : nat, nonzero (weight (infos !!! p)) = true) n [])
        by (rewrite Hw; discriminate).
      rewrite app_nil_r. reflexivity.
Qed.

(** What the constructor establishes. *)
Lemma newIKTarget_well_formed (aModel : Model) (tasks : list IKTask)
    (storage : Storage) (t : IKTarget) :
  newIKTarget aModel tasks storage = inr t →
  well_formed t ∧
  length (_coordinateInfos t) = length (coordinateNames aModel) ∧
  (∀ p, p < length (coordinateNames aModel) →
        prescribed (_coordinateInfos t !!! p) =
        getLocked aModel p || isConstrained aModel p).
Proof.
  unfold newIKTarget, buildCoordinateMap. intros H.
  destruct (buildMarkerMap aModel tasks (getColumnLabels storage))
    as [e|mks]; [discriminate|].
  destruct (coordinateTaskLoop aModel (getColumnLabels storage) tasks
              (allCoordinates0 aModel)) as [e|infos] eqn:Hloop; [discriminate|].
  injection H as <-.
  destruct (coordinateTaskLoop_identity _ _ _ _ _ Hloop) as [Hlen Hid].
  assert (length infos = length (coordinateNames aModel)) as Hn.
  { rewrite Hlen. unfold allCoordinates0. rewrite length_fmap, length_seq.
    reflexivity. }
  rewrite filterLoop_spec. cbn zeta.
  split; [|split].
  - split; cbn; try reflexivity.
    intros p Hp. destruct (Hid p) as [-> _].
    rewrite allCoordinates0_lookup by lia. reflexivity.
  - exact Hn.
  - cbn. intros p Hp. destruct (Hid p) as [_ ->].
    rewrite allCoordinates0_lookup by lia. reflexivity.
Qed.

(** ** Lifetime of the classification *)

Lemma classification_frame (t t' : IKTarget) :
  eval_frame t t' → classification t' = classification t.
Proof.
  intros [Hi Hp Hu Hw _ _ _ _]. unfold classification.
  rewrite Hi, Hp, Hu, Hw. reflexivity.
Qed.

Lemma method_call_classification (t t' : IKTarget) :
  method_call t t' → classification t' = classification t.
Proof.
  intros H. destruct H.
  - apply prepareToSolve_classification.
  - apply classification_frame, objectiveFunc_frame.
  - apply classification_frame, gradientFunc_frame.
  - apply classification_frame. rewrite createJacobian_target.
    apply eval_frame_set_model.
  - apply classification_frame.
    eapply iterativeOptimization_frame; eassumption.
  - apply classification_frame, printPerformance_frame.
  - reflexivity.
  - reflexivity.
Qed.

Lemma lifetime_classification (t t' : IKTarget) :
  rtc method_call t t' → classification t' = classification t.
Proof.
  induction 1 as [|t1 t2 t3 H12 _ IH]; [reflexivity|].
  rewrite IH. apply method_call_classification. exact H12.
Qed.

Lemma well_formed_classification (t t' : IKTarget) :
  classification t' = classification t → _np t' = _np t →
  well_formed t → well_formed t'.
Proof.
  unfold classification. intros Hcl Hnp [w1 w2 w3 w4 w5].
  injection Hcl as HP HU HW Hst.
  assert (length (_coordinateInfos t') = length (_coordinateInfos t)) as Hlen.
  { apply (f_equal length) in Hst. rewrite !length_fmap in Hst. exact Hst. }
  split.
  - congruence.
  - intros p Hp. destruct (static_weight _ _ p Hst) as (_ & _ & -> & _).
    apply w2. lia.
  - rewrite HP, w3, Hlen. apply list_filter_iff. intros p.
    destruct (static_weight _ _ p Hst) as (_ & _ & _ & ->). reflexivity.
  - rewrite HU, w4, Hlen. apply list_filter_iff. intros p.
    destruct (static_weight _ _ p Hst) as (_ & _ & _ & ->). reflexivity.
  - rewrite HW, HU, w5. apply list_filter_iff. intros p.
    destruct (static_weight _ _ p Hst) as (-> & _). reflexivity.
Qed.

(** C6: after construction every model coordinate is in exactly one of the
    prescribed and the unprescribed array; it is in the prescribed one
    exactly when the model reports it locked or constrained, whatever the
    tasks; the weighted array is the unprescribed array restricted to the
    nonzero weights; and no method call, nor any change of the model by the
    caller, alters the three arrays or the weights. *)
Theorem coordinate_partition (aModel : Model) (tasks : list IKTask)
    (storage : Storage) (t : IKTarget) :
  newIKTarget aModel tasks storage = inr t →
  let n := length (coordinateNames aModel) in
  (∀ i, i < n →
        (i ∈ _prescribedQs t ∧ (i ∉ _unprescribedQs t)) ∨
        ((i ∉ _prescribedQs t) ∧ i ∈ _unprescribedQs t)) ∧
  (∀ i, i ∈ _prescribedQs t ∨ i ∈ _unprescribedQs t → i < n) ∧
  NoDup (_prescribedQs t ++ _unprescribedQs t) ∧
  (∀ i, i < n →
        (i ∈ _prescribedQs t ↔
         getLocked aModel i || isConstrained aModel i = true)) ∧
  _unprescribedWeightedQs t =
    filter (λ p, nonzero (weight (_coordinateInfos t !!! p)) = true)
           (_unprescribedQs t) ∧
  (∀ t', rtc method_call t t' →
         _prescribedQs t' = _prescribedQs t ∧
         _unprescribedQs t' = _unprescribedQs t ∧
         _unprescribedWeightedQs t' = _unprescribedWeightedQs t ∧
         _unprescribedWeightedQs t' =
           filter (λ p, nonzero (weight (_coordinateInfos t' !!! p)) = true)
                  (_unprescribedQs t')).
Proof.
  intros Hnew n.
  destruct (newIKTarget_well_formed _ _ _ _ Hnew) as (Hwf & Hlen & Hpres).
  pose proof (wf_prescribed t Hwf) as HP.
  pose proof (wf_unprescribed t Hwf) as HU.
  rewrite Hlen in HP, HU. fold n in HP, HU.
  assert (∀ i, i ∈ _prescribedQs t ↔
               prescribed (_coordinateInfos t !!! i) = true ∧ i < n) as HinP.
  { intros i. rewrite HP, list_elem_of_filter, elem_of_seq. split.
    - intros [H1 H2]. split; [exact H1|lia].
    - intros [H1 H2]. split; [exact H1|lia]. }
  assert (∀ i, i ∈ _unprescribedQs t ↔
               prescribed (_coordinateInfos t !!! i) = false ∧ i < n) as HinU.
  { intros i. rewrite HU, list_elem_of_filter, elem_of_seq. split.
    - intros [H1 H2]. split; [exact H1|lia].
    - intros [H1 H2]. split; [exact H1|lia]. }
  split; [|split; [|split; [|split; [|split]]]].
  - intros i Hi. rewrite !HinP, !HinU.
    destruct (prescribed (_coordinateInfos t !!! i)); [left|right];
      split; try (split; [reflexivity|exact Hi]);
      intros [H _]; discriminate.
  - intros i. rewrite HinP, HinU. intros [[_ H]|[_ H]]; exact H.
  - apply NoDup_app. split; [|split].
    + rewrite HP. apply NoDup_filter, NoDup_seq.
    + intros i. rewrite HinP, HinU. intros [H1 _] [H2 _]. congruence.
    + rewrite HU. apply NoDup_filter, NoDup_seq.
  - intros i Hi. rewrite HinP, <- (Hpres i Hi). split.
    + intros [H _]. exact H.
    + intros H. split; [exact H|exact Hi].
  - apply (wf_weighted t Hwf).
  - intros t' Hrtc.
    pose proof (lifetime_classification t t' Hrtc) as Hcl.
    unfold classification in Hcl. injection Hcl as HP' HU' HW' Hst.
    split; [exact HP'|]. split; [exact HU'|]. split; [exact HW'|].
    rewrite HW', HU', (wf_weighted t Hwf). apply list_filter_iff. intros p.
    destruct (static_weight _ _ p Hst) as (-> & _). reflexivity.
Qed.

(** ** Unfolding the outer loop *)

Lemma solverLoop_stop (fuel gas : nat) (s : SolverState) :
  continues s = false → solverLoop fuel gas s = Some s.
Proof. intros H. destruct gas; simpl; rewrite H; reflexivity. Qed.

Lemma solverLoop_step (fuel gas : nat) (s s' : SolverState) :
  continues s = true → iteration fuel s = Some s' →
  solverLoop fuel (S gas) s = solverLoop fuel gas s'.
Proof. intros Hc Hi. simpl. rewrite Hc, Hi. reflexivity. Qed.

Lemma backtrack_stop (fuel : nat) (s : SolverState) :
  Rgtb (tempDErrorNorm s) (previousDErrorNorm s) = false →
  backtrack fuel s = Some s.
Proof. intros H. destruct fuel; simpl; rewrite H; reflexivity. Qed.


(** ** Construction: which task sets are accepted *)

Lemma findIndexFrom_bounds (i : Z) (l : list string) (s : string) :
  findIndexFrom i l s = (-1)%Z ∨
  (i <= findIndexFrom i l s < i + Z.of_nat (length l))%Z.
Proof.
  revert i. induction l as [|x l IH]; intros i; simpl; [left; reflexivity|].
  destruct (String.eqb x s); [right; lia|].
  destruct (IH (i + 1)%Z) as [->|H]; [left; reflexivity|right; lia].
Qed.

Lemma findIndex_lt (l : list string) (s : string) :
  (0 <= findIndex l s)%Z → Z.to_nat (findIndex l s) < length l.
Proof.
  unfold findIndex. intros H.
  destruct (findIndexFrom_bounds 0 l s) as [Heq|Hb]; lia.
Qed.

Lemma foldl_error {A B E' : Type} (step : A → B → E' + A) (e : E')
    (l : list B) :
  foldl (λ acc x, match acc with inl e => inl e | inr a => step a x end)
        (inl e) l = inl e.
Proof. induction l as [|x l IH]; simpl; auto. Qed.

Lemma buildMarkerStep_accepted (m : Model) (aNameArray : list string)
    (mks : list markerToSolve) (task : IKTask) :
  (∃ mks', buildMarkerStep m aNameArray mks task = inr mks') ↔
  markerTaskAccepted m aNameArray task.
Proof.
  unfold buildMarkerStep, markerTaskAccepted.
  destruct task as [name [|] w|name a w vt v]; try (split; eauto; fail).
  destruct (markerSetGet m name) as [mk|].
  - destruct (nonzero w) eqn:Hw.
    + apply nonzero_true in Hw.
      destruct (Z.ltb_spec (findIndex aNameArray (name +:+ "_tx")) 0).
      * split; [intros [? H']; discriminate|].
        intros [_ H']. specialize (H' Hw). lia.
      * split; [intros _; split; [eauto|intros _; lia]|eauto].
    + apply nonzero_false in Hw. split; [|eauto].
      intros _. split; [eauto|]. intros H. contradiction.
  - split; [intros [? H]; discriminate|]. intros [[? H] _]. discriminate.
Qed.

Lemma buildMarkerMap_accepted_from (m : Model) (aNameArray : list string)
    (tasks : list IKTask) (mks : list markerToSolve) :
  (∃ mks',
     foldl (λ acc task, match acc with
                        | inl e => inl e
                        | inr a => buildMarkerStep m aNameArray a task
                        end) (inr mks) tasks = inr mks') ↔
  Forall (markerTaskAccepted m aNameArray) tasks.
Proof.
  revert mks. induction tasks as [|task tasks IH]; intros mks; simpl.
  - split; [constructor|eauto].
  - rewrite Forall_cons, <- (buildMarkerStep_accepted m aNameArray mks task).
    destruct (buildMarkerStep m aNameArray mks task) as [e|mks1].
    + rewrite foldl_error. split.
      * intros [? H]. discriminate.
      * intros [[? H] _]. discriminate.
    + rewrite IH. split; [intros H; split; eauto|intros [_ H]; exact H].
Qed.

Lemma coordinateTaskStep_accepted (m : Model) (aNameArray : list string)
    (infos : list coordinateInfo) (task : IKTask) :
  (∃ infos', coordinateTaskStep m aNameArray infos task = inr infos') ↔
  coordinateTaskAccepted m aNameArray task.
Proof.
  unfold coordinateTaskStep, coordinateTaskAccepted.
  destruct task as [name a w|name [|] w vt v]; try (split; eauto; fail).
  destruct (Z.ltb_spec (findIndex (coordinateNames m) name) 0).
  - split; [intros [? H']; discriminate|]. intros [H' _]. lia.
  - destruct vt.
    + split; [|eauto]. intros _. split; [lia|discriminate].
    + split; [|eauto]. intros _. split; [lia|discriminate].
    + destruct (Z.ltb_spec (rfindIndex aNameArray name) 0).
      * split; [intros [? H']; discriminate|].
        intros [_ H']. specialize (H' eq_refl). lia.
      * split; [|eauto]. intros _. split; [lia|intros _; lia].
Qed.

Lemma coordinateTaskLoop_accepted (m : Model) (aNameArray : list string)
    (tasks : list IKTask) (infos : list coordinateInfo) :
  (∃ infos', coordinateTaskLoop m aNameArray tasks infos = inr infos') ↔
  Forall (coordinateTaskAccepted m aNameArray) tasks.
Proof.
  unfold coordinateTaskLoop.
  revert infos. induction tasks as [|task tasks IH]; intros infos; simpl.
  - split; [constructor|eauto].
  - rewrite Forall_cons,
      <- (coordinateTaskStep_accepted m aNameArray infos task).
    destruct (coordinateTaskStep m aNameArray infos task) as [e|infos1].
    + rewrite foldl_error. split.
      * intros [? H]. discriminate.
      * intros [[? H] _]. discriminate.
    + rewrite IH. split; [intros H; split; eauto|intros [_ H]; exact H].
Qed.

(** X1: the constructor yields a target exactly when every task of the set
    is accepted by both passes: every applied marker task names a marker of
    the model and, unless its weight is zero, has its [_tx] column; every
    applied coordinate task names a coordinate of the model and, if it is
    from the file, has its column.  Otherwise it throws. *)
Theorem construction_succeeds_iff (aModel : Model) (tasks : list IKTask)
    (storage : Storage) :
  (∃ t, newIKTarget aModel tasks storage = inr t) ↔
  Forall (λ task,
            markerTaskAccepted aModel (getColumnLabels storage) task ∧
            coordinateTaskAccepted aModel (getColumnLabels storage) task)
         tasks.
Proof.
  rewrite Forall_and.
  rewrite <- (buildMarkerMap_accepted_from aModel (getColumnLabels storage)
                tasks []).
  rewrite <- (coordinateTaskLoop_accepted aModel (getColumnLabels storage)
                tasks (allCoordinates0 aModel)).
  unfold newIKTarget, buildCoordinateMap, buildMarkerMap.
  destruct (foldl _ (inr []) tasks) as [e|mks].
  - split; [intros [? H]; discriminate|]. intros [[? H] _]. discriminate.
  - destruct (coordinateTaskLoop aModel (getColumnLabels storage) tasks
                (allCoordinates0 aModel)) as [e|infos].
    + split; [intros [? H]; discriminate|]. intros [_ [? H]]. discriminate.
    + split; eauto.
Qed.

(** ** Construction: the markers to solve *)

Lemma buildMarkerStep_static (m : Model) (aNameArray : list string)
    (mks mks' : list markerToSolve) (task : IKTask) :
  buildMarkerStep m aNameArray mks task = inr mks' →
  marker_static <$> mks' =
  (marker_static <$> mks) ++ option_list (markerOfTask m aNameArray task).
Proof.
  unfold buildMarkerStep, markerOfTask.
  destruct task as [name [|] w|name a w vt v];
    try (intros H; injection H as <-; simpl; rewrite app_nil_r; reflexivity).
  destruct (markerSetGet m name) as [mk|]; [|discriminate].
  destruct (nonzero w).
  - destruct (findIndex aNameArray (name +:+ "_tx") <? 0)%Z; [discriminate|].
    intros H. injection H as <-. rewrite fmap_app. reflexivity.
  - intros H. injection H as <-. simpl. rewrite app_nil_r. reflexivity.
Qed.

Lemma buildMarkerMap_static_from (m : Model) (aNameArray : list string)
    (tasks : list IKTask) (mks mks' : list markerToSolve) :
  foldl (λ acc task, match acc with
                     | inl e => inl e
                     | inr a => buildMarkerStep m aNameArray a task
                     end) (inr mks) tasks = inr mks' →
  marker_static <$> mks' =
  (marker_static <$> mks) ++ omap (markerOfTask m aNameArray) tasks.
Proof.
  revert mks. induction tasks as [|task tasks IH]; intros mks H; simpl in H.
  - injection H as <-. simpl. rewrite app_nil_r. reflexivity.
  - destruct (buildMarkerStep m aNameArray mks task) as [e|mks1] eqn:H1.
    + rewrite foldl_error in H. discriminate.
    + rewrite (IH mks1 H), (buildMarkerStep_static _ _ _ _ _ H1).
      rewrite <- assoc_L by apply _. f_equal. simpl.
      destruct (markerOfTask m aNameArray task); reflexivity.
Qed.

Lemma length_omap_le {A B : Type} (f : A → option B) (l : list A) :
  length (omap f l) ≤ length l.
Proof.
  induction l as [|x l IH]; [reflexivity|].
  cbn [omap list_omap length]. destruct (f x); cbn [length];
    fold (omap f l); lia.
Qed.

(** X2: the markers of a constructed target are, in task order, one per
    applied marker task of nonzero weight, with the marker and body of the
    model, the weight of the task and the column of [<name>_tx] less one for
    the time column; a task that is not applied, or whose weight is zero,
    gives none.  So every marker to solve has a nonzero weight. *)
Theorem constructed_markers (aModel : Model) (tasks : list IKTask)
    (storage : Storage) (t : IKTarget) :
  newIKTarget aModel tasks storage = inr t →
  marker_static <$> _markers t =
    omap (markerOfTask aModel (getColumnLabels storage)) tasks ∧
  length (_markers t) ≤ length tasks ∧
  Forall (λ mk, m_weight mk ≠ 0%R) (_markers t).
Proof.
  unfold newIKTarget, buildMarkerMap. intros H.
  destruct (foldl _ (inr []) tasks) as [e|mks] eqn:Hm; [discriminate|].
  destruct (buildCoordinateMap aModel tasks (getColumnLabels storage))
    as [e|[infos s]]; [discriminate|].
  injection H as <-. cbn [_markers].
  pose proof (buildMarkerMap_static_from _ _ _ _ _ Hm) as Hst.
  simpl in Hst. split; [exact Hst|]. split.
  - rewrite <- (length_fmap marker_static), Hst. apply length_omap_le.
  - assert (Forall (λ q : nat * nat * Z * R, q.2 ≠ 0%R)
                   (omap (markerOfTask aModel (getColumnLabels storage)) tasks))
      as Hall.
    { apply Forall_forall. intros q Hq. apply list_elem_of_omap in Hq.
      destruct Hq as (task & _ & Hq). unfold markerOfTask in Hq.
      destruct task as [name [|] w|]; try discriminate.
      destruct (nonzero w) eqn:Hw; [|discriminate].
      destruct (markerSetGet aModel name) as [mk|] eqn:Hget; [|discriminate].
      injection Hq as <-. simpl. apply nonzero_true. exact Hw. }
    rewrite <- Hst in Hall. rewrite Forall_fmap in Hall.
    eapply Forall_impl; [exact Hall|]. intros mk Hmk. exact Hmk.
Qed.

(** ** Construction: the coordinate infos *)

Lemma coordinateTaskLoop_app (m : Model) (aNameArray : list string)
    (l1 l2 : list IKTask) (infos : list coordinateInfo) :
  coordinateTaskLoop m aNameArray (l1 ++ l2) infos =
  match coordinateTaskLoop m aNameArray l1 infos with
  | inl e => inl e
  | inr infos1 => coordinateTaskLoop m aNameArray l2 infos1
  end.
Proof.
  unfold coordinateTaskLoop. rewrite foldl_app.
  destruct (foldl _ (inr infos) l1) as [e|infos1]; [|reflexivity].
  apply foldl_error.
Qed.

Lemma coordinateTaskLoop_cons (m : Model) (aNameArray : list string)
    (task : IKTask) (l : list IKTask) (infos : list coordinateInfo) :
  coordinateTaskLoop m aNameArray (task :: l) infos =
  match coordinateTaskStep m aNameArray infos task with
  | inl e => inl e
  | inr infos1 => coordinateTaskLoop m aNameArray l infos1
  end.
Proof.
  unfold coordinateTaskLoop. simpl.
  destruct (coordinateTaskStep m aNameArray infos task); [|reflexivity].
  apply foldl_error.
Qed.

Lemma coordinateTaskStep_untouched (m : Model) (aNameArray : list string)
    (infos infos' : list coordinateInfo) (task : IKTask) (p : nat) :
  coordinateTaskStep m aNameArray infos task = inr infos' →
  coordinateOfTask m task ≠ Some p →
  infos' !!! p = infos !!! p.
Proof.
  unfold coordinateTaskStep, coordinateOfTask.
  destruct task as [? ? ?|coordName [|] w vt v]; intros H Hp;
    try (injection H as <-; reflexivity).
  assert (Z.to_nat (findIndex (coordinateNames m) coordName) ≠ p) as Hne
    by congruence.
  destruct (findIndex (coordinateNames m) coordName <? 0)%Z; [discriminate|].
  destruct vt.
  - injection H as <-. apply list_lookup_total_insert_ne. exact Hne.
  - injection H as <-. apply list_lookup_total_insert_ne. exact Hne.
  - destruct (rfindIndex aNameArray coordName <? 0)%Z; [discriminate|].
    injection H as <-. apply list_lookup_total_insert_ne. exact Hne.
Qed.

Lemma coordinateTaskLoop_untouched (m : Model) (aNameArray : list string)
    (tasks : list IKTask) (infos infos' : list coordinateInfo) (p : nat) :
  coordinateTaskLoop m aNameArray tasks infos = inr infos' →
  Forall (λ task, coordinateOfTask m task ≠ Some p) tasks →
  infos' !!! p = infos !!! p.
Proof.
  revert infos. induction tasks as [|task tasks IH]; intros infos H Hall.
  - injection H as <-. reflexivity.
  - rewrite coordinateTaskLoop_cons in H. apply Forall_cons in Hall.
    destruct Hall as [Hp Hall].
    destruct (coordinateTaskStep m aNameArray infos task) as [e|infos1] eqn:H1;
      [discriminate|].
    rewrite (IH infos1 H Hall).
    eapply coordinateTaskStep_untouched; eassumption.
Qed.

Lemma newIKTarget_infos (aModel : Model) (tasks : list IKTask)
    (storage : Storage) (t : IKTarget) :
  newIKTarget aModel tasks storage = inr t →
  coordinateTaskLoop aModel (getColumnLabels storage) tasks
    (allCoordinates0 aModel) = inr (_coordinateInfos t).
Proof.
  unfold newIKTarget, buildCoordinateMap. intros H.
  destruct (buildMarkerMap aModel tasks (getColumnLabels storage));
    [discriminate|].
  destruct (coordinateTaskLoop aModel (getColumnLabels storage) tasks
              (allCoordinates0 aModel)); [discriminate|].
  injection H as <-. reflexivity.
Qed.

(** X3: a coordinate of the model that no applied coordinate task names is
    given weight 0, no file column and the default value of the model as its
    constant value; it is never among the weighted coordinates. *)
Theorem untasked_coordinate_defaults (aModel : Model) (tasks : list IKTask)
    (storage : Storage) (t : IKTarget) (p : nat) :
  newIKTarget aModel tasks storage = inr t →
  p < length (coordinateNames aModel) →
  Forall (λ task, coordinateOfTask aModel task ≠ Some p) tasks →
  weight (_coordinateInfos t !!! p) = 0%R ∧
  experimentalColumn (_coordinateInfos t !!! p) = (-1)%Z ∧
  constantExperimentalValue (_coordinateInfos t !!! p)
    = getDefaultValue aModel p ∧
  (p ∉ _unprescribedWeightedQs t).
Proof.
  intros Hnew Hp Hall.
  pose proof (newIKTarget_infos _ _ _ _ Hnew) as Hloop.
  pose proof (coordinateTaskLoop_untouched _ _ _ _ _ p Hloop Hall) as Heq.
  rewrite allCoordinates0_lookup in Heq by exact Hp.
  rewrite Heq. split; [reflexivity|]. split; [reflexivity|].
  split; [reflexivity|].
  destruct (newIKTarget_well_formed _ _ _ _ Hnew) as (Hwf & _).
  rewrite (wf_weighted t Hwf). intros Hin.
  apply list_elem_of_filter in Hin. destruct Hin as [Hnz _].
  rewrite Heq in Hnz. simpl in Hnz. rewrite nonzero_0 in Hnz. discriminate.
Qed.

Lemma coordinateTaskStep_addressed (m : Model) (aNameArray : list string)
    (infos infos' : list coordinateInfo) (coordName : string) (w : R)
    (vt : ValueType) (v : R) :
  coordinateTaskStep m aNameArray infos
    (IKCoordinateTask coordName true w vt v) = inr infos' →
  length infos = length (coordinateNames m) →
  let p := Z.to_nat (findIndex (coordinateNames m) coordName) in
  p < length (coordinateNames m) ∧
  weight (infos' !!! p) = w ∧
  experimentalColumn (infos' !!! p) =
    match vt with
    | FromFile => (rfindIndex aNameArray coordName - 1)%Z
    | _ => experimentalColumn (infos !!! p)
    end ∧
  constantExperimentalValue (infos' !!! p) =
    match vt with
    | ManualValue => v
    | _ => constantExperimentalValue (infos !!! p)
    end.
Proof.
  intros H Hlen p. unfold coordinateTaskStep in H. fold p in H.
  destruct (Z.ltb_spec (findIndex (coordinateNames m) coordName) 0);
    [discriminate|].
  assert (p < length (coordinateNames m)) as Hp
    by (apply findIndex_lt; assumption).
  split; [exact Hp|].
  destruct vt.
  - injection H as <-.
    rewrite list_lookup_total_insert_eq by lia. auto.
  - injection H as <-.
    rewrite list_lookup_total_insert_eq by lia. auto.
  - destruct (rfindIndex aNameArray coordName <? 0)%Z; [discriminate|].
    injection H as <-.
    rewrite list_lookup_total_insert_eq by lia. auto.
Qed.

(** X4: when several applied coordinate tasks name the same coordinate, the
    last one decides: the coordinate has its weight, the file column less
    one if it is from the file, its value as constant value if it is manual.
    What the last task does not write stays as the tasks before it left it:
    after a manual or default task the file column of an earlier from-file
    task for the same coordinate is still in force. *)
Theorem last_coordinate_task_decides (aModel : Model)
    (pre post : list IKTask) (coordName : string) (w : R) (vt : ValueType)
    (v : R) (storage : Storage) (t1 t : IKTarget) :
  newIKTarget aModel pre storage = inr t1 →
  newIKTarget aModel (pre ++ IKCoordinateTask coordName true w vt v :: post)
    storage = inr t →
  let p := Z.to_nat (findIndex (coordinateNames aModel) coordName) in
  Forall (λ task, coordinateOfTask aModel task ≠ Some p) post →
  p < length (coordinateNames aModel) ∧
  weight (_coordinateInfos t !!! p) = w ∧
  experimentalColumn (_coordinateInfos t !!! p) =
    match vt with
    | FromFile => (rfindIndex (getColumnLabels storage) coordName - 1)%Z
    | _ => experimentalColumn (_coordinateInfos t1 !!! p)
    end ∧
  constantExperimentalValue (_coordinateInfos t !!! p) =
    match vt with
    | ManualValue => v
    | _ => constantExperimentalValue (_coordinateInfos t1 !!! p)
    end.
Proof.
  intros H1 H p Hpost.
  pose proof (newIKTarget_infos _ _ _ _ H1) as Hl1.
  pose proof (newIKTarget_infos _ _ _ _ H) as Hl.
  rewrite coordinateTaskLoop_app, Hl1, coordinateTaskLoop_cons in Hl.
  destruct (coordinateTaskStep aModel (getColumnLabels storage)
              (_coordinateInfos t1) (IKCoordinateTask coordName true w vt v))
    as [e|infos2] eqn:Hstep; [discriminate|].
  rewrite (coordinateTaskLoop_untouched _ _ _ _ _ p Hl Hpost).
  apply (coordinateTaskStep_addressed _ _ _ _ _ _ _ _ Hstep).
  destruct (newIKTarget_well_formed _ _ _ _ H1) as (_ & Hlen & _).
  exact Hlen.
Qed.

(** ** Construction: parameters and steps *)

Lemma fill_loop {A : Type} (n : nat) (x y : A) :
  for_loop n (λ i l, <[i := y]> l) (replicate n x) = replicate n y.
Proof.
  enough (∀ k, k ≤ n →
            for_loop k (λ i l, <[i := y]> l) (replicate n x)
            = replicate k y ++ replicate (n - k) x) as H.
  { rewrite (H n (le_n _)), Nat.sub_diag. apply app_nil_r. }
  induction k as [|k IH]; intros Hk.
  - rewrite Nat.sub_0_r. reflexivity.
  - rewrite for_loop_S, IH by lia.
    rewrite replicate_S_end, <- assoc_L by apply _.
    replace (n - k) with (S (n - S k)) by lia.
    assert (∀ l : list A,
              <[k := y]> (replicate k y ++ l) = replicate k y ++ <[0 := y]> l)
      as Hins.
    { intros l. replace k with (length (replicate k y) + 0) at 1
        by (rewrite length_replicate; lia).
      apply insert_app_r. }
    rewrite Hins. reflexivity.
Qed.

(** X5: a constructed target has one parameter per unprescribed
    coordinate and one finite-difference step per parameter, each equal to
    the perturbation 1e-3; it is not interrupted, does not print, and holds
    the model it was given. *)
Theorem constructed_parameters (aModel : Model) (tasks : list IKTask)
    (storage : Storage) (t : IKTarget) :
  newIKTarget aModel tasks storage = inr t →
  _np t = length (_unprescribedQs t) ∧
  _dx t = replicate (_np t) _perturbation ∧
  (∀ i, i < _np t → vec_get (_dx t) i = 1e-3%R) ∧
  _interrupted t = false ∧
  _printPerformanceValues t = false ∧
  _model t = aModel.
Proof.
  unfold newIKTarget. intros H.
  destruct (buildMarkerMap aModel tasks (getColumnLabels storage));
    [discriminate|].
  destruct (buildCoordinateMap aModel tasks (getColumnLabels storage))
    as [e|[infos s]]; [discriminate|].
  injection H as <-. cbn. rewrite fill_loop.
  repeat split; try reflexivity.
  intros i Hi. apply vec_get_lookup, lookup_replicate_2. exact Hi.
Qed.

(** ** Binding a frame: markers *)

Lemma markerBind_loop (dataRow : StateVector) (mks0 : list markerToSolve)
    (n : nat) :
  n ≤ length mks0 →
  for_loop n (markerBindStep dataRow) mks0 =
  (boundMarker dataRow <$> take n mks0) ++ drop n mks0.
Proof.
  induction n as [|n IH]; intros Hn; [reflexivity|].
  rewrite for_loop_S, IH by lia.
  destruct (lookup_lt_is_Some_2 mks0 n) as [mk Hmk]; [lia|].
  assert (length (boundMarker dataRow <$> take n mks0) = n) as Hlen
    by (rewrite length_fmap, length_take; lia).
  unfold markerBindStep.
  assert (((boundMarker dataRow <$> take n mks0) ++ drop n mks0) !!! n = mk)
    as ->.
  { apply list_lookup_total_correct. rewrite lookup_app_r by lia.
    rewrite Hlen, Nat.sub_diag, (drop_S _ _ _ Hmk). reflexivity. }
  rewrite (take_S_r _ _ _ Hmk), fmap_app, <- app_assoc.
  rewrite (drop_S _ _ _ Hmk).
  replace n with (length (boundMarker dataRow <$> take n mks0) + 0) at 1 by lia.
  rewrite insert_app_r. reflexivity.
Qed.

Lemma prepareToSolve_markers (t : IKTarget) (aIndex : Z) (qGuess : list R) :
  _markers (prepareToSolve t aIndex qGuess).1 =
  boundMarker (getStateVector (_experimentalDataStorage t) aIndex)
    <$> _markers t.
Proof.
  rewrite prepareToSolve_state. cbn [fst _markers set_markers].
  rewrite markerBind_loop by reflexivity.
  rewrite firstn_all, drop_all. apply app_nil_r.
Qed.

(** X6: [prepareToSolve] rebinds every marker to the frame: the three
    components of its experimental position are read from its column and the
    two after it, it is valid exactly when none of them is not-a-number, and
    nothing else of the marker changes; its computed position in particular
    is the one of the frame before. *)
Theorem prepareToSolve_binds_markers (t : IKTarget) (aIndex : Z)
    (qGuess : list R) (i : nat) (mk : markerToSolve) :
  _markers t !! i = Some mk →
  let dataRow := getStateVector (_experimentalDataStorage t) aIndex in
  let c := m_experimentalColumn mk in
  ∃ mk',
    _markers (prepareToSolve t aIndex qGuess).1 !! i = Some mk' ∧
    length (_markers (prepareToSolve t aIndex qGuess).1) = length (_markers t) ∧
    vget (experimentalPosition mk') 0 =
      getDataValue dataRow c (vget (experimentalPosition mk) 0) ∧
    vget (experimentalPosition mk') 1 =
      getDataValue dataRow (c + 1) (vget (experimentalPosition mk) 1) ∧
    vget (experimentalPosition mk') 2 =
      getDataValue dataRow (c + 2) (vget (experimentalPosition mk) 2) ∧
    (validExperimentalPosition mk' = true ↔
     isNAN (vget (experimentalPosition mk') 0) = false ∧
     isNAN (vget (experimentalPosition mk') 1) = false ∧
     isNAN (vget (experimentalPosition mk') 2) = false) ∧
    computedPosition mk' = computedPosition mk ∧
    marker_static mk' = marker_static mk.
Proof.
  intros Hi dataRow c. exists (boundMarker dataRow mk).
  rewrite prepareToSolve_markers. fold dataRow.
  split; [rewrite list_lookup_fmap, Hi; reflexivity|].
  split; [apply length_fmap|].
  unfold boundMarker. fold c. cbn.
  repeat split; try reflexivity.
  1-3: apply negb_true_iff, orb_false_iff in H; destruct H as [H H2];
    apply orb_false_iff in H; destruct H as [H0 H1]; assumption.
  intros (H0 & H1 & H2). rewrite H0, H1, H2. reflexivity.
Qed.

(** ** Binding a frame: unprescribed coordinates *)

Lemma unprescribed_targets (t : IKTarget) (m : Model) (dataRow : StateVector)
    (q0 : list R) (n : nat) :
  NoDup (_unprescribedQs t) →
  (∀ p, p ∈ _unprescribedQs t → p < length (_coordinateInfos t)) →
  n ≤ length (_unprescribedQs t) →
  length (_unprescribedQs t) ≤ length q0 →
  let st := for_loop n (unprescribedStep t m dataRow) (_coordinateInfos t, q0) in
  (∀ j, j < n → st.2 !! j = Some (guessOf t m dataRow q0 j)) ∧
  (∀ j, n ≤ j → st.2 !! j = q0 !! j) ∧
  length st.2 = length q0 ∧
  info_static <$> st.1 = info_static <$> _coordinateInfos t ∧
  (∀ j, j < n →
        experimentalValue (st.1 !!! (_unprescribedQs t !!! j)) =
        let info := _coordinateInfos t !!! (_unprescribedQs t !!! j) in
        if nonzero (weight info)
        then if (0 <=? experimentalColumn info)%Z
             then guessOf t m dataRow q0 j
             else constantExperimentalValue info
        else experimentalValue info) ∧
  (∀ p, (∀ j, j < n → _unprescribedQs t !!! j ≠ p) →
        st.1 !!! p = _coordinateInfos t !!! p).
Proof.
  intros Hnd Hbound Hn Hq. cbn zeta.
  induction n as [|n IH].
  - repeat split; auto; intros; lia.
  - rewrite for_loop_S.
    destruct (for_loop n (unprescribedStep t m dataRow) (_coordinateInfos t, q0))
      as [infos q].
    cbn [fst snd] in IH.
    destruct IH as (Hg & Hrest & Hlen & Hst & Hev & Hun); [lia|].
    assert (n < length (_unprescribedQs t)) as Hlt by lia.
    destruct (lookup_lt_is_Some_2 _ n Hlt) as [p Hp].
    pose proof (list_lookup_total_correct _ _ _ Hp) as Hp'.
    assert (p < length infos) as Hpl.
    { apply (f_equal length) in Hst. rewrite !length_fmap in Hst.
      rewrite Hst. apply Hbound. eapply list_elem_of_lookup_2. exact Hp. }
    assert (∀ j, j < n → _unprescribedQs t !!! j ≠ p) as Hdistinct.
    { intros j Hj Heq.
      assert (_unprescribedQs t !! j = Some p) as Hjp.
      { rewrite <- Heq. apply list_lookup_lookup_total_lt. lia. }
      pose proof (NoDup_lookup _ _ _ _ Hnd Hjp Hp). lia. }
    assert (infos !!! p = _coordinateInfos t !!! p) as Hsame
      by (apply Hun; exact Hdistinct).
    unfold unprescribedStep. rewrite Hp', Hsame.
    set (info := _coordinateInfos t !!! p).
    assert (vec_get q n = vec_get q0 n) as Hqn
      by (unfold vec_get; rewrite Hrest by lia; reflexivity).
    set (q' := if (0 <=? experimentalColumn info)%Z
               then <[n := getDataValue dataRow (experimentalColumn info)
                             (vec_get q n)]> q
               else <[n := getValue m (coord info)]> q).
    assert (q' !! n = Some (guessOf t m dataRow q0 n)) as Hq'n.
    { unfold q', guessOf. rewrite Hp'. fold info.
      destruct (0 <=? experimentalColumn info)%Z;
        rewrite list_lookup_insert_eq by lia; rewrite ?Hqn; reflexivity. }
    assert (∀ j, j ≠ n → q' !! j = q !! j) as Hne.
    { intros j Hj. unfold q'.
      destruct (0 <=? _)%Z; rewrite list_lookup_insert_ne by auto; reflexivity. }
    assert (length q' = length q0) as Hlen'.
    { unfold q'. destruct (0 <=? _)%Z; rewrite length_insert; exact Hlen. }
    cbn [fst snd].
    split; [|split; [|split; [exact Hlen'|split; [|split]]]].
    + intros j Hj. destruct (decide (j = n)) as [->|Hjn]; [exact Hq'n|].
      rewrite Hne by exact Hjn. apply Hg. lia.
    + intros j Hj. rewrite Hne by lia. apply Hrest. lia.
    + destruct (nonzero (weight info)); [|exact Hst].
      rewrite static_insert; [exact Hst|]. rewrite Hsame. reflexivity.
    + intros j Hj. destruct (decide (j = n)) as [->|Hjn].
      * rewrite Hp'. fold info. cbn zeta.
        destruct (nonzero (weight info)); [|rewrite Hsame; reflexivity].
        rewrite list_lookup_total_insert_eq by exact Hpl.
        cbn [experimentalValue set_experimentalValue].
        rewrite (vec_get_lookup _ _ _ Hq'n). reflexivity.
      * assert (_unprescribedQs t !!! j ≠ p) as Hjp by (apply Hdistinct; lia).
        destruct (nonzero (weight info)); [|apply Hev; lia].
        rewrite list_lookup_total_insert_ne by auto. apply Hev. lia.
    + intros p0 Hp0.
      assert (p0 ≠ p) as Hne0.
      { intros ->. apply (Hp0 n); [lia|exact Hp']. }
      destruct (nonzero (weight info)); [|apply Hun; intros; apply Hp0; lia].
      rewrite list_lookup_total_insert_ne by auto.
      apply Hun. intros; apply Hp0; lia.
Qed.

Lemma well_formed_unprescribed (t : IKTarget) :
  well_formed t →
  NoDup (_unprescribedQs t) ∧
  (∀ p, p ∈ _unprescribedQs t →
        p < length (_coordinateInfos t) ∧
        prescribed (_coordinateInfos t !!! p) = false) ∧
  (∀ p, p ∈ _prescribedQs t →
        p < length (_coordinateInfos t) ∧
        prescribed (_coordinateInfos t !!! p) = true).
Proof.
  intros Hwf. rewrite (wf_unprescribed t Hwf), (wf_prescribed t Hwf).
  split; [apply NoDup_filter, NoDup_seq|]. split.
  - intros p Hp. apply list_elem_of_filter in Hp. destruct Hp as [H1 H2].
    apply elem_of_seq in H2. split; [lia|exact H1].
  - intros p Hp. apply list_elem_of_filter in Hp. destruct Hp as [H1 H2].
    apply elem_of_seq in H2. split; [lia|exact H1].
Qed.

(** X7: [prepareToSolve], given a buffer with a slot per parameter, leaves
    in slot [i] the value of the file column of the coordinate if it has
    one, else the value the coordinate has in the model once the prescribed
    coordinates are set.  A weighted coordinate gets as target this very
    guess if it has a file column, else its constant value; the target of a
    coordinate of weight 0 is not written; and the infos of the prescribed
    coordinates are left as they are. *)
Theorem prepareToSolve_guess_and_target (t : IKTarget) (aIndex : Z)
    (qGuess : list R) :
  well_formed t → _np t ≤ length qGuess →
  let dataRow := getStateVector (_experimentalDataStorage t) aIndex in
  let t' := (prepareToSolve t aIndex qGuess).1 in
  let qGuess' := (prepareToSolve t aIndex qGuess).2 in
  length qGuess' = length qGuess ∧
  (∀ i, _np t ≤ i → qGuess' !! i = qGuess !! i) ∧
  (∀ i, i < _np t →
        let info := _coordinateInfos t !!! (_unprescribedQs t !!! i) in
        qGuess' !! i = Some (guessOf t (_model t') dataRow qGuess i) ∧
        experimentalValue (_coordinateInfos t' !!! (_unprescribedQs t !!! i)) =
          if nonzero (weight info)
          then if (0 <=? experimentalColumn info)%Z
               then guessOf t (_model t') dataRow qGuess i
               else constantExperimentalValue info
          else experimentalValue info) ∧
  (∀ p, p ∈ _prescribedQs t →
        _coordinateInfos t' !!! p = _coordinateInfos t !!! p).
Proof.
  intros Hwf Hq dataRow t' qGuess'.
  destruct (well_formed_unprescribed t Hwf) as (Hnd & HU & HP).
  pose proof (wf_np t Hwf) as Hnp.
  subst t' qGuess'. rewrite prepareToSolve_state. fold dataRow.
  cbn [fst snd _model _coordinateInfos set_markers set_coordinateInfos
       set_model].
  match goal with
  | |- context [for_loop ?n (unprescribedStep t ?m dataRow) ?a] =>
      destruct (unprescribed_targets t m dataRow qGuess n Hnd) as
        (Hg & Hrest & Hlen & _ & Hev & Hun);
        [intros p Hp; apply HU; exact Hp|lia|lia|]
  end.
  cbn zeta in Hg, Hrest, Hlen, Hev, Hun.
  split; [exact Hlen|]. split; [intros i Hi; apply Hrest; lia|]. split.
  - intros i Hi. split; [apply Hg; lia|apply Hev; lia].
  - intros p Hp. apply Hun. intros j Hj Heq.
    destruct (HP p Hp) as [_ Hpt].
    assert (_unprescribedQs t !!! j ∈ _unprescribedQs t) as Hin
      by (apply list_elem_of_lookup_total_2; exact Hj).
    destruct (HU _ Hin) as [_ Hpf]. rewrite Heq in Hpf. congruence.
Qed.

(** ** The arrays handed to the caller *)

Lemma flatten3_loop (f : markerToSolve → Vec3) (mks : list markerToSolve) :
  for_loop (length mks)
    (λ i a, let p := f (mks !!! i) in a ++ [v0 p; v1 p; v2 p]) []
  = mks ≫= (λ mk, [v0 (f mk); v1 (f mk); v2 (f mk)]).
Proof.
  enough (∀ n, n ≤ length mks →
            for_loop n
              (λ i a, let p := f (mks !!! i) in a ++ [v0 p; v1 p; v2 p]) []
            = take n mks ≫= (λ mk, [v0 (f mk); v1 (f mk); v2 (f mk)])) as H.
  { specialize (H _ (le_n _)). rewrite firstn_all in H. exact H. }
  induction n as [|n IH]; intros Hn; [reflexivity|].
  rewrite for_loop_S, IH by lia.
  destruct (lookup_lt_is_Some_2 mks n) as [mk Hmk]; [lia|].
  rewrite (take_S_r _ _ _ Hmk), bind_app.
  rewrite (list_lookup_total_correct _ _ _ Hmk). simpl. reflexivity.
Qed.

Lemma flatten3_length (f : markerToSolve → Vec3) (mks : list markerToSolve) :
  length (mks ≫= (λ mk, [v0 (f mk); v1 (f mk); v2 (f mk)])) = 3 * length mks.
Proof.
  induction mks as [|mk mks IH]; [reflexivity|].
  cbn [mbind list_bind]. rewrite length_app. cbn [length].
  change (list_bind _ _ _ mks) with
    (mks ≫= (λ mk, [v0 (f mk); v1 (f mk); v2 (f mk)])).
  rewrite IH. lia.
Qed.

Lemma flatten3_lookup (f : markerToSolve → Vec3) (mks : list markerToSolve)
    (i r : nat) (mk : markerToSolve) :
  mks !! i = Some mk → r < 3 →
  (mks ≫= (λ mk, [v0 (f mk); v1 (f mk); v2 (f mk)])) !! (3 * i + r)
  = Some (vget (f mk) r).
Proof.
  revert i. induction mks as [|mk0 mks IH]; intros i Hi Hr; [discriminate|].
  destruct i as [|i].
  - injection Hi as ->. destruct r as [|[|[|r]]]; [reflexivity..|lia].
  - simpl in Hi. replace (3 * S i + r) with (3 + (3 * i + r)) by lia.
    cbn [mbind list_bind]. rewrite lookup_app_r by (cbn [length]; lia).
    cbn [length]. replace (3 + (3 * i + r) - 3) with (3 * i + r) by lia.
    apply IH; assumption.
Qed.

(** X8: after [prepareToSolve], [getExperimentalMarkerLocations] returns
    three numbers per marker, in marker order: those read for the frame from
    the column of the marker and the two columns after it. *)
Theorem experimental_locations_of_frame (t : IKTarget) (aIndex : Z)
    (qGuess : list R) (i r : nat) (mk : markerToSolve) :
  _markers t !! i = Some mk → r < 3 →
  let t' := (prepareToSolve t aIndex qGuess).1 in
  length (getExperimentalMarkerLocations t') = 3 * length (_markers t) ∧
  getExperimentalMarkerLocations t' !! (3 * i + r) =
    Some (getDataValue (getStateVector (_experimentalDataStorage t) aIndex)
            (m_experimentalColumn mk + Z.of_nat r)
            (vget (experimentalPosition mk) r)).
Proof.
  intros Hi Hr t'. unfold getExperimentalMarkerLocations.
  rewrite (flatten3_loop experimentalPosition).
  subst t'. rewrite prepareToSolve_markers. split.
  - rewrite flatten3_length, length_fmap. reflexivity.
  - rewrite (flatten3_lookup experimentalPosition _ i r
               (boundMarker (getStateVector (_experimentalDataStorage t) aIndex)
                  mk)); [|rewrite list_lookup_fmap, Hi; reflexivity|exact Hr].
    f_equal. unfold boundMarker. cbn.
    destruct r as [|[|[|r]]]; [| | |lia]; cbn.
    + rewrite Z.add_0_r. reflexivity.
    + reflexivity.
    + reflexivity.
Qed.

(** X9: after an evaluation of the objective at [x] that is not
    interrupted, [getComputedMarkerLocations] returns, for a marker with a
    valid experimental position, its position transformed in the model at
    [x], and for any other marker the position it had stored before. *)
Theorem computed_locations_of_evaluation (t : IKTarget) (x : list R)
    (i r : nat) (mk : markerToSolve) :
  _interrupted t = false → _markers t !! i = Some mk → r < 3 →
  let t' := (objectiveFunc t x).1 in
  length (getComputedMarkerLocations t') = 3 * length (_markers t) ∧
  getComputedMarkerLocations t' !! (3 * i + r) =
    Some (if validExperimentalPosition mk
          then vget (markerGlobalPos
                       (setParameters t (vec_get x) (_model t)) mk) r
          else vget (computedPosition mk) r).
Proof.
  intros Hint Hi Hr t'. unfold getComputedMarkerLocations.
  rewrite (flatten3_loop computedPosition).
  destruct (objectiveFunc_eval t x Hint) as (t1 & Heq & _ & Hmks).
  subst t'. rewrite Heq. cbn [fst]. rewrite Hmks. split.
  - rewrite flatten3_length, length_fmap. reflexivity.
  - rewrite (flatten3_lookup computedPosition _ i r
               (evaluated (setParameters t (vec_get x) (_model t)) mk));
      [|rewrite list_lookup_fmap, Hi; reflexivity|exact Hr].
    f_equal. unfold evaluated.
    destruct (validExperimentalPosition mk); reflexivity.
Qed.

(** ** The error report *)

Lemma worst_at_0 (valid : nat → bool) (err : nat → R) :
  worst_at valid err 0 0%R (-1)%Z.
Proof. split; [intros k Hk; lia|left; split; reflexivity]. Qed.

Lemma worst_at_nonneg (valid : nat → bool) (err : nat → R) (n : nat)
    (mx : R) (w : Z) :
  worst_at valid err n mx w → (0 <= mx)%R.
Proof. intros [_ [[-> _]|(k & _ & _ & _ & _ & H & _)]]; lra. Qed.

Lemma worst_at_skip (valid : nat → bool) (err : nat → R) (n : nat)
    (mx : R) (w : Z) :
  valid n = false → worst_at valid err n mx w →
  worst_at valid err (S n) mx w.
Proof.
  intros Hv [Hle Hw]. split.
  - intros k Hk Hvk. destruct (decide (k = n)) as [->|Hne]; [congruence|].
    apply Hle; [lia|exact Hvk].
  - destruct Hw as [Hw|(k & Hk & Hrest)]; [left; exact Hw|].
    right. exists k. split; [lia|exact Hrest].
Qed.

Lemma worst_at_take (valid : nat → bool) (err : nat → R) (n : nat)
    (mx : R) (w : Z) :
  valid n = true → worst_at valid err n mx w →
  worst_at valid err (S n)
    (if Rgtb (err n) mx then err n else mx)
    (if Rgtb (err n) mx then Z.of_nat n else w).
Proof.
  intros Hv Hw. pose proof (worst_at_nonneg _ _ _ _ _ Hw) as H0.
  destruct Hw as [Hle Hw].
  destruct (Rgtb (err n) mx) eqn:Hgt.
  - apply Rgtb_true_gt in Hgt. split.
    + intros k Hk Hvk. destruct (decide (k = n)) as [->|Hne]; [lra|].
      specialize (Hle k ltac:(lia) Hvk). lra.
    + right. exists n. repeat split; [lia|exact Hv|lra|].
      intros j Hj Hvj. specialize (Hle j Hj Hvj). lra.
  - apply Rgtb_false_le in Hgt. split.
    + intros k Hk Hvk. destruct (decide (k = n)) as [->|Hne]; [lra|].
      apply Hle; [lia|exact Hvk].
    + destruct Hw as [Hw|(k & Hk & Hrest)]; [left; exact Hw|].
      right. exists k. split; [lia|exact Hrest].
Qed.

Lemma worst_at_ext (valid valid' : nat → bool) (err err' : nat → R) (n : nat)
    (mx : R) (w : Z) :
  (∀ k, k < n → valid' k = valid k ∧ err' k = err k) →
  worst_at valid err n mx w → worst_at valid' err' n mx w.
Proof.
  intros Hext [Hle Hw]. split.
  - intros k Hk Hvk. destruct (Hext k Hk) as [Hv He].
    rewrite He. apply Hle; [exact Hk|congruence].
  - destruct Hw as [Hw|(k & Hk & Hwk & Hvk & Hek & Hpos & Hfirst)];
      [left; exact Hw|].
    right. exists k. destruct (Hext k Hk) as [Hv He].
    repeat split; [exact Hk|exact Hwk|congruence|congruence|exact Hpos|].
    intros j Hj Hvj. destruct (Hext j ltac:(lia)) as [Hv' He'].
    rewrite He'. apply Hfirst; [exact Hj|congruence].
Qed.

Lemma worst_at_name (valid : nat → bool) (err : nat → R) (name : nat → string)
    (n : nat) (mx : R) (w : Z) :
  worst_at valid err n mx w →
  is_worst valid err name n mx
    (if (w <? 0)%Z then EmptyString else name (Z.to_nat w)).
Proof.
  intros [Hle Hw]. split; [exact Hle|].
  destruct Hw as [[-> ->]|(k & Hk & -> & Hvk & Hek & Hpos & Hfirst)].
  - left. split; reflexivity.
  - right. exists k.
    replace (Z.of_nat k <? 0)%Z with false by (symmetry; apply Z.ltb_ge; lia).
    rewrite Nat2Z.id. repeat split; assumption.
Qed.

Lemma objective_marker_worst (m : Model) (mks0 : list markerToSolve) (n : nat) :
  n ≤ length mks0 →
  let st := for_loop n (objectiveMarkerStep m) (mks0, tally0) in
  worst_at (λ k, validExperimentalPosition (mks0 !!! k))
           (λ k, markerSquaredError (evaluated m (mks0 !!! k)))
           n (maxMarkerError st.2) (worstMarker st.2) ∧
  maxCoordinateError st.2 = 0%R ∧ worstCoordinate st.2 = (-1)%Z.
Proof.
  cbn zeta. induction n as [|n IH]; intros Hn.
  - rewrite for_loop_0. split; [apply worst_at_0|split; reflexivity].
  - rewrite for_loop_S.
    destruct (objective_marker_loop m mks0 tally0 n ltac:(lia)) as [Hmks _].
    destruct (IH ltac:(lia)) as (Hw & Hc1 & Hc2).
    destruct (for_loop n (objectiveMarkerStep m) (mks0, tally0)) as [mks a].
    cbn [fst snd] in *. subst mks. unfold objectiveMarkerStep.
    rewrite (evaluated_prefix_lookup m mks0 n) by lia.
    destruct (validExperimentalPosition (mks0 !!! n)) eqn:Hv; cbn [negb snd].
    + split; [|split; assumption].
      pose proof (worst_at_take _ _ n _ _ Hv Hw) as H. cbn beta in H.
      rewrite (evaluated_valid m _ Hv) in H. exact H.
    + split; [|split; assumption].
      apply worst_at_skip; assumption.
Qed.

Lemma final_marker_worst (t : IKTarget) (n : nat) :
  let a := for_loop n (finalMarkerStep t) tally0 in
  worst_at (λ k, validExperimentalPosition (_markers t !!! k))
           (λ k, markerSquaredError (_markers t !!! k))
           n (maxMarkerError a) (worstMarker a) ∧
  maxCoordinateError a = 0%R ∧ worstCoordinate a = (-1)%Z.
Proof.
  cbn zeta. induction n as [|n IH].
  - rewrite for_loop_0. split; [apply worst_at_0|split; reflexivity].
  - rewrite for_loop_S. destruct IH as (Hw & Hc1 & Hc2).
    generalize dependent (for_loop n (finalMarkerStep t) tally0).
    intros a Hw Hc1 Hc2. unfold finalMarkerStep.
    destruct (validExperimentalPosition (_markers t !!! n)) eqn:Hv; cbn [negb].
    + split; [|split; assumption].
      exact (worst_at_take _ _ n _ _ Hv Hw).
    + split; [|split; assumption].
      apply worst_at_skip; assumption.
Qed.

Lemma tallyCoordinate_worst (t : IKTarget) (m : Model) (a0 : Tally) (n : nat) :
  maxCoordinateError a0 = 0%R → worstCoordinate a0 = (-1)%Z →
  let a := for_loop n (tallyCoordinate t m) a0 in
  worst_at (λ _, true) (coordinateSquaredError t m)
           n (maxCoordinateError a) (worstCoordinate a) ∧
  maxMarkerError a = maxMarkerError a0 ∧ worstMarker a = worstMarker a0.
Proof.
  intros H1 H2. cbn zeta. induction n as [|n IH].
  - rewrite for_loop_0, H1, H2.
    split; [apply worst_at_0|split; reflexivity].
  - rewrite for_loop_S. destruct IH as (Hw & Hm1 & Hm2).
    split; [|split; assumption].
    exact (worst_at_take (λ _, true) (coordinateSquaredError t m) n _ _
             eq_refl Hw).
Qed.

(** The report written when [_printPerformanceValues] is set. *)
Lemma reportErrors_worst (t : IKTarget) (a : Tally) :
  _printPerformanceValues t = true →
  worst_at (λ k, validExperimentalPosition (_markers t !!! k))
           (λ k, markerSquaredError (_markers t !!! k))
           (length (_markers t)) (maxMarkerError a) (worstMarker a) →
  worst_at (λ _, true) (coordinateSquaredError t (_model t))
           (length (_unprescribedWeightedQs t))
           (maxCoordinateError a) (worstCoordinate a) →
  worst_reported (reportErrors t a) ∧
  _printPerformanceValues (reportErrors t a) = true.
Proof.
  intros Hp Hm Hc. unfold reportErrors. rewrite Hp. cbn [orb].
  split; [|exact Hp]. split.
  - exact (worst_at_name _ _
             (λ k, markerName (_model t) (marker (_markers t !!! k)))
             _ _ _ Hm).
  - exact (worst_at_name _ _
             (λ k, List.nth (coord (_coordinateInfos t !!!
                                      (_unprescribedWeightedQs t !!! k)))
                            (coordinateNames (_model t)) EmptyString)
             _ _ _ Hc).
Qed.

Lemma worst_reported_flag (t : IKTarget) (b : bool) :
  worst_reported t → worst_reported (set_printPerformanceValues t b).
Proof. intros H. exact H. Qed.

Lemma objectiveFunc_report (t : IKTarget) (x : list R) :
  _interrupted t = false → _printPerformanceValues t = true →
  worst_reported (objectiveFunc t x).1 ∧
  _printPerformanceValues (objectiveFunc t x).1 = true ∧
  ∃ f, (objectiveFunc t x).2 = inr (0%Z, f).
Proof.
  intros Hint Hp. unfold objectiveFunc. rewrite Hint.
  set (m := setParameters t (vec_get x) (_model t)).
  destruct (objective_markers m (_markers t) tally0) as [Hmks _].
  destruct (objective_marker_worst m (_markers t) (length (_markers t))
              (le_n _)) as (Hw & Hc1 & Hc2).
  destruct (for_loop (length (_markers t)) (objectiveMarkerStep m)
              (_markers t, tally0)) as [mks a].
  cbn [fst snd] in *. subst mks.
  destruct (tallyCoordinate_worst t m a (length (_unprescribedWeightedQs t))
              Hc1 Hc2) as (Hcw & Hm1 & Hm2).
  cbn zeta in Hcw, Hm1, Hm2.
  set (a' := for_loop (length (_unprescribedWeightedQs t))
               (tallyCoordinate t m) a) in *.
  set (t1 := set_markers (set_model t m) (evaluated m <$> _markers t)).
  destruct (reportErrors_worst t1 a' Hp) as [Hrep Hflag].
  - rewrite Hm1, Hm2. subst t1. cbn [_markers set_markers].
    rewrite length_fmap.
    eapply worst_at_ext; [|exact Hw].
    intros k Hk. cbn beta.
    rewrite (list_lookup_total_fmap (evaluated m) (_markers t) k Hk).
    split; [|reflexivity].
    unfold evaluated.
    destruct (validExperimentalPosition (_markers t !!! k)) eqn:Hv;
      [exact Hv|exact Hv].
  - exact Hcw.
  - split; [exact Hrep|]. split; [exact Hflag|]. eexists. reflexivity.
Qed.

(** X10: [printPerformance] on a target that is not interrupted throws
    nothing, leaves [_printPerformanceValues] cleared, and leaves an error
    report that describes the target it returns: the reported marker error
    bounds the squared error of every marker with a valid experimental
    position and is that of the first marker attaining it, under its name;
    likewise for the weighted coordinates; with no positive error the
    reported error is 0 and the name is empty. *)
Theorem printPerformance_report (t : IKTarget) (x : list R) :
  _interrupted t = false →
  (printPerformance t x).2 = None ∧
  _printPerformanceValues (printPerformance t x).1 = false ∧
  worst_reported (printPerformance t x).1.
Proof.
  intros Hint. unfold printPerformance.
  destruct (objectiveFunc_report (set_printPerformanceValues t true) x Hint
              eq_refl) as (Hrep & _ & f & Hf).
  destruct (objectiveFunc (set_printPerformanceValues t true) x) as [t' r].
  cbn [fst snd] in *. subst r. cbn [fst snd].
  split; [reflexivity|]. split; [reflexivity|].
  apply worst_reported_flag. exact Hrep.
Qed.

(** X11: [printPerformance] on an interrupted target hands the exception
    on and returns with [_printPerformanceValues] still set: nothing else of
    the target has changed. *)
Theorem printPerformance_interrupted (t : IKTarget) (x : list R) :
  _interrupted t = true →
  printPerformance t x =
    (set_printPerformanceValues t true, Some InterruptedException) ∧
  _printPerformanceValues (printPerformance t x).1 = true.
Proof.
  intros Hint. unfold printPerformance, objectiveFunc.
  cbn [_interrupted set_printPerformanceValues]. rewrite Hint.
  split; reflexivity.
Qed.

Lemma reportErrors_quiet (t : IKTarget) (a : Tally) :
  _printPerformanceValues t = false → reportErrors t a = t.
Proof.
  intros Hp. unfold reportErrors, debug. rewrite Hp, andb_false_r.
  reflexivity.
Qed.

Lemma residualPass_report (t : IKTarget) (q : nat → R) (d : list R) :
  _printPerformanceValues (residualPass t q d).1 = _printPerformanceValues t ∧
  errorReport (residualPass t q d).1 = errorReport t.
Proof. rewrite residualPass_target. split; reflexivity. Qed.

(** The solver reads and writes neither the reporting flag nor the report
    before the loop has ended. *)
Lemma reached_report (t : IKTarget) (results : list R) (ph : phase)
    (s : SolverState) :
  Reached t results ph s →
  _printPerformanceValues (s_target s) = _printPerformanceValues t ∧
  errorReport (s_target s) = errorReport t.
Proof.
  intros Hr. induction Hr as [|s Hr IH Hc|s Hr IH Hgt|s Hr IH Hle].
  - destruct (solverInit_eval t results) as (Ht & _). cbn zeta in Ht.
    rewrite Ht. apply residualPass_report.
  - destruct (solveStep_eval s) as (m & q & Ht & _). cbn zeta in Ht.
    rewrite Ht.
    destruct (residualPass_report (set_model (s_target s) m) q (s_dError s))
      as [-> ->].
    exact IH.
  - destruct (halveStep_eval s) as (q & Ht & _). cbn zeta in Ht.
    rewrite Ht.
    destruct (residualPass_report (s_target s) q (s_dError s)) as [-> ->].
    exact IH.
  - exact IH.
Qed.

Lemma solverFinish_report (s : SolverState) :
  _printPerformanceValues (s_target s) = true →
  worst_reported (solverFinish s).1.1 ∧
  _printPerformanceValues (solverFinish s).1.1 = true.
Proof.
  intros Hp. unfold solverFinish. cbn [fst].
  set (m := setParameters (s_target s) (vec_get (s_results s))
              (_model (s_target s))).
  set (t1 := set_model (s_target s) m).
  destruct (final_marker_worst t1 (length (_markers t1))) as (Hw & Hc1 & Hc2).
  cbn zeta in Hw, Hc1, Hc2.
  set (a := for_loop (length (_markers t1)) (finalMarkerStep t1) tally0) in *.
  destruct (tallyCoordinate_worst t1 m a (length (_unprescribedWeightedQs t1))
              Hc1 Hc2) as (Hcw & Hm1 & Hm2).
  cbn zeta in Hcw, Hm1, Hm2.
  apply reportErrors_worst.
  - exact Hp.
  - rewrite Hm1, Hm2. exact Hw.
  - exact Hcw.
Qed.

(** X12: when [_printPerformanceValues] is set, [iterativeOptimization]
    returns with an error report that describes the target it returns: the
    worst squared marker error over the computed positions stored by the
    last evaluation, with the name of the first marker attaining it, and
    the worst squared coordinate error in the model with [results] applied;
    the flag stays set. *)
Theorem iterativeOptimization_report (fuel : nat) (t : IKTarget)
    (results : list R) (r : IKTarget * list R * Z) :
  _printPerformanceValues t = true →
  iterativeOptimization fuel t results = Some r →
  worst_reported r.1.1 ∧ _printPerformanceValues r.1.1 = true.
Proof.
  unfold iterativeOptimization. intros Hp Hr.
  destruct (solverLoop fuel maxIter (solverInit t results)) as [s|] eqn:Hl;
    [|discriminate].
  injection Hr as <-.
  destruct (solverLoop_reached t results fuel maxIter _ s
              (reach_init t results) Hl) as [Hreach _].
  destruct (reached_report t results LoopHead s Hreach) as [Hflag _].
  apply solverFinish_report. rewrite Hflag. exact Hp.
Qed.

(** X13: while [_printPerformanceValues] is clear, neither [objectiveFunc]
    nor [iterativeOptimization] writes the error report: the four reported
    quantities are those left by the last reporting call. *)
Theorem report_kept_when_not_printing (t : IKTarget) :
  _printPerformanceValues t = false →
  (∀ x, errorReport (objectiveFunc t x).1 = errorReport t ∧
        _printPerformanceValues (objectiveFunc t x).1 = false) ∧
  (∀ fuel results r,
     iterativeOptimization fuel t results = Some r →
     errorReport r.1.1 = errorReport t ∧
     _printPerformanceValues r.1.1 = false).
Proof.
  intros Hp. split.
  - intros x. destruct (objectiveFunc_state t x) as [->|[a ->]].
    + split; [reflexivity|exact Hp].
    + rewrite reportErrors_quiet by exact Hp. split; [reflexivity|exact Hp].
  - intros fuel results r. unfold iterativeOptimization. intros Hr.
    destruct (solverLoop fuel maxIter (solverInit t results)) as [s|] eqn:Hl;
      [|discriminate].
    injection Hr as <-.
    destruct (solverLoop_reached t results fuel maxIter _ s
                (reach_init t results) Hl) as [Hreach _].
    destruct (reached_report t results LoopHead s Hreach) as [Hflag Hrep].
    unfold solverFinish. cbn [fst].
    rewrite reportErrors_quiet by (cbn; rewrite Hflag; exact Hp).
    split; [exact Hrep|]. cbn. rewrite Hflag. exact Hp.
Qed.

(** ** The lifetime of a target *)

Lemma prepareToSolve_interrupted (t : IKTarget) (aIndex : Z) (qGuess : list R) :
  _interrupted (prepareToSolve t aIndex qGuess).1 = _interrupted t.
Proof. rewrite prepareToSolve_state. reflexivity. Qed.

Lemma method_call_interrupted (t t' : IKTarget) :
  method_call t t' → _interrupted t = true → _interrupted t' = true.
Proof.
  intros H Hint. destruct H.
  - rewrite prepareToSolve_interrupted. exact Hint.
  - rewrite (ef_interrupted _ _ (objectiveFunc_frame t x)). exact Hint.
  - rewrite (ef_interrupted _ _ (gradientFunc_frame t x dpdx)). exact Hint.
  - rewrite createJacobian_target. exact Hint.
  - destruct (iterativeOptimization_frame fuel t results r H) as [Hf _].
    rewrite (ef_interrupted _ _ Hf). exact Hint.
  - rewrite (ef_interrupted _ _ (printPerformance_frame t x)). exact Hint.
  - reflexivity.
  - exact Hint.
Qed.

(** X14: an interruption is final.  Once [_interrupted] is set, no sequence
    of calls of the methods of the target, and no change of the model by
    the caller, clears it: every later [objectiveFunc] and
    [printPerformance] throws the interruption. *)
Theorem interrupt_is_final (t t' : IKTarget) :
  rtc method_call t t' → _interrupted t = true →
  _interrupted t' = true ∧
  ∀ x, objectiveFunc t' x = (t', inl InterruptedException) ∧
       (printPerformance t' x).2 = Some InterruptedException.
Proof.
  intros Hrtc Hint.
  assert (_interrupted t' = true) as Hint'.
  { induction Hrtc as [|t1 t2 t3 H12 _ IH]; [exact Hint|].
    apply IH. eapply method_call_interrupted; eassumption. }
  split; [exact Hint'|]. intros x. split.
  - unfold objectiveFunc. rewrite Hint'. reflexivity.
  - unfold printPerformance, objectiveFunc.
    cbn [_interrupted set_printPerformanceValues]. rewrite Hint'. reflexivity.
Qed.

(** X15: only [prepareToSolve] changes the frame a target is bound to.
    Every other call leaves the experimental position, validity, weight and
    column of every marker, the whole table of coordinates with the
    experimental values, the perturbation steps and the number of
    parameters as they were. *)
Theorem bound_frame_is_stable (t t' : IKTarget) :
  method_call t t' →
  (∃ aIndex qGuess, t' = (prepareToSolve t aIndex qGuess).1) ∨
  (marker_bound <$> _markers t' = marker_bound <$> _markers t ∧
   _coordinateInfos t' = _coordinateInfos t ∧
   _dx t' = _dx t ∧ _np t' = _np t).
Proof.
  intros H.
  assert (∀ t1, eval_frame t t1 →
                marker_bound <$> _markers t1 = marker_bound <$> _markers t ∧
                _coordinateInfos t1 = _coordinateInfos t ∧
                _dx t1 = _dx t ∧ _np t1 = _np t) as Hframe.
  { intros t1 [Hi _ _ _ Hn Hd _ Hm]. repeat split; assumption. }
  destruct H.
  - left. eexists _, _. reflexivity.
  - right. apply Hframe, objectiveFunc_frame.
  - right. apply Hframe, gradientFunc_frame.
  - right. apply Hframe. rewrite createJacobian_target.
    apply eval_frame_set_model.
  - right. apply Hframe. eapply iterativeOptimization_frame. eassumption.
  - right. apply Hframe, printPerformance_frame.
  - right. repeat split; reflexivity.
  - right. repeat split; reflexivity.
Qed.

(** ** The residual vector and the objective *)

Lemma Rsum_filter {A : Type} (P : A → Prop) `{!∀ x, Decision (P x)}
    (g : A → R) (l : list A) :
  Rsum (g <$> filter P l) =
  Rsum ((λ x, if decide (P x) then g x else 0%R) <$> l).
Proof.
  induction l as [|x l IH]; [reflexivity|].
  cbn [fmap list_fmap]. destruct (decide (P x)) as [Hx|Hx].
  - rewrite filter_cons_True by exact Hx. cbn [fmap list_fmap].
    unfold Rsum in *. cbn [foldr]. rewrite IH. reflexivity.
  - rewrite filter_cons_False by exact Hx.
    unfold Rsum in *. cbn [foldr]. rewrite IH. lra.
Qed.

Lemma Rsum_flatten3 (f : markerToSolve → Vec3) (mks : list markerToSolve) :
  Rsum ((λ x, x * x)%R <$>
        (mks ≫= (λ mk, [v0 (f mk); v1 (f mk); v2 (f mk)]))) =
  Rsum ((λ mk, v0 (f mk) * v0 (f mk) + v1 (f mk) * v1 (f mk) +
               v2 (f mk) * v2 (f mk))%R <$> mks).
Proof.
  induction mks as [|mk mks IH]; [reflexivity|].
  cbn [mbind list_bind]. rewrite fmap_app, Rsum_app.
  change (list_bind _ _ _ mks) with
    (mks ≫= (λ mk, [v0 (f mk); v1 (f mk); v2 (f mk)])).
  rewrite IH. cbn [fmap list_fmap]. unfold Rsum. cbn [foldr]. lra.
Qed.

Lemma Rsum_nonneg (l : list R) : Forall (λ x, (0 <= x)%R) l → (0 <= Rsum l)%R.
Proof.
  induction 1 as [|x l Hx _ IH]; unfold Rsum in *; cbn [foldr]; lra.
Qed.

Lemma Rsum_zero_iff (l : list R) :
  Forall (λ x, (0 <= x)%R) l → Rsum l = 0%R ↔ Forall (λ x, x = 0%R) l.
Proof.
  induction 1 as [|x l Hx Hl IH]; [split; [constructor|reflexivity]|].
  pose proof (Rsum_nonneg l Hl) as Hs.
  unfold Rsum in *. cbn [foldr]. split.
  - intros H. constructor; [lra|]. apply IH. lra.
  - intros H. inversion H as [|y l' Hy Hl']; subst.
    apply IH in Hl'. lra.
Qed.

(** A vector with the rows of [ResidualRows] is the residual vector of the
    target. *)
Lemma ResidualRows_eq (t : IKTarget) (d : list R) :
  ResidualRows t d → d = residualVector t.
Proof.
  intros [Hlen Hv Hi Hc]. apply list_eq. intros j.
  unfold residualVector.
  destruct (decide (j < 3 * length (_markers t))) as [Hj|Hj].
  - pose proof (Nat.div_mod_eq j 3) as Hdm.
    pose proof (Nat.mod_upper_bound j 3 ltac:(lia)) as Hr.
    remember (j / 3) as i eqn:Ei. remember (j mod 3) as r eqn:Er.
    clear Ei Er. subst j.
    destruct (lookup_lt_is_Some_2 (_markers t) i ltac:(lia)) as [mk Hmk].
    rewrite lookup_app_l by (rewrite flatten3_length; lia).
    rewrite (flatten3_lookup residualVec _ i r mk Hmk Hr).
    unfold residualVec.
    destruct (validExperimentalPosition mk) eqn:Hvalid.
    + rewrite (Hv i mk r Hmk Hvalid Hr).
      destruct r as [|[|[|r]]]; [reflexivity..|lia].
    + rewrite (Hi i mk r Hmk Hvalid Hr).
      destruct r as [|[|[|r]]]; [reflexivity..|lia].
  - rewrite lookup_app_r by (rewrite flatten3_length; lia).
    rewrite flatten3_length.
    destruct (decide (j < 3 * length (_markers t) +
                          length (_unprescribedWeightedQs t))) as [Hj2|Hj2].
    + destruct (lookup_lt_is_Some_2 (_unprescribedWeightedQs t)
                  (j - 3 * length (_markers t)) ltac:(lia)) as [p Hp].
      rewrite list_lookup_fmap, Hp.
      replace j with (3 * length (_markers t) +
                      (j - 3 * length (_markers t))) at 1 by lia.
      rewrite (Hc _ p Hp). reflexivity.
    + rewrite (lookup_ge_None_2 d j) by lia.
      symmetry. apply lookup_ge_None_2. rewrite length_fmap. lia.
Qed.

Lemma residualVector_squares (t : IKTarget) :
  Forall (λ mk, (0 <= m_weight mk)%R) (_markers t) →
  (∀ p, p ∈ _unprescribedWeightedQs t →
        (0 <= weight (_coordinateInfos t !!! p))%R) →
  Rsum ((λ x, x * x)%R <$> residualVector t) = storedObjective t.
Proof.
  intros Hmw Hcw. unfold residualVector, storedObjective.
  rewrite fmap_app, Rsum_app. f_equal.
  - rewrite Rsum_flatten3, Rsum_filter.
    f_equal. apply list_fmap_ext. intros i mk Hmk.
    rewrite Forall_forall in Hmw.
    pose proof (Hmw mk (list_elem_of_lookup_2 _ _ _ Hmk)) as Hw.
    pose proof (sqrt_sqrt _ Hw) as Hs.
    unfold residualVec, markerTerm.
    destruct (decide (validExperimentalPosition mk = true)) as [Hv|Hv].
    + rewrite Hv. cbn [v0 v1 v2].
      set (s := sqrt (m_weight mk)) in *. rewrite <- Hs. ring.
    + destruct (validExperimentalPosition mk); [congruence|].
      cbn [v0 v1 v2]. ring.
  - rewrite <- list_fmap_compose. f_equal.
    apply list_fmap_ext. intros k p Hp. cbn [compose].
    pose proof (Hcw p (list_elem_of_lookup_2 _ _ _ Hp)) as Hw.
    pose proof (sqrt_sqrt _ Hw) as Hs.
    unfold coordinateRow, coordinateTerm. cbn zeta.
    set (s := sqrt (weight (_coordinateInfos t !!! p))) in *.
    rewrite <- Hs. ring.
Qed.

(** X16: at every control point of [iterativeOptimization], the Euclidean
    norm of the residual vector is the square root of the weighted sum of
    squared errors computed by the objective function's formula over the
    target as it stands, provided no weight is negative. *)
Theorem solver_norm_is_objective (t : IKTarget) (results : list R)
    (ph : phase) (s : SolverState) :
  well_formed t →
  Forall (λ mk, (0 <= m_weight mk)%R) (_markers t) →
  (∀ p, p ∈ _unprescribedWeightedQs t →
        (0 <= weight (_coordinateInfos t !!! p))%R) →
  Reached t results ph s →
  s_dError s = residualVector (s_target s) ∧
  norm (s_dError s) = sqrt (storedObjective (s_target s)).
Proof.
  intros Hwf Hmw Hcw Hr.
  destruct (reached_invariant t results ph s Hwf Hr) as (Hf & _ & Hrows).
  pose proof (ResidualRows_eq _ _ Hrows) as Hd.
  split; [exact Hd|]. unfold norm. rewrite Hd. f_equal.
  apply residualVector_squares.
  - pose proof (ef_markers _ _ Hf) as Hm.
    apply Forall_lookup_2. intros i mk' Hmk'.
    assert ((marker_bound <$> _markers (s_target s)) !! i =
            Some (marker_bound mk')) as Hb
      by (rewrite list_lookup_fmap, Hmk'; reflexivity).
    rewrite Hm, list_lookup_fmap in Hb.
    destruct (_markers t !! i) as [mk|] eqn:Hmk; [|discriminate].
    apply (inj Some) in Hb.
    rewrite Forall_forall in Hmw.
    pose proof (Hmw mk (list_elem_of_lookup_2 _ _ _ Hmk)) as Hw.
    apply (f_equal (λ b, b.1.1.2)) in Hb. cbn in Hb.
    rewrite <- Hb. exact Hw.
  - rewrite (ef_weighted _ _ Hf), (ef_infos _ _ Hf). exact Hcw.
Qed.

Lemma square_nonneg (a : R) : (0 <= a * a)%R.
Proof. pose proof (Rle_0_sqr a) as H. unfold Rsqr in H. exact H. Qed.

Lemma square_zero (a : R) : (a * a = 0)%R → a = 0%R.
Proof. intros H. apply Rmult_integral in H. destruct H; assumption. Qed.

Lemma markerTerm_nonneg (mk : markerToSolve) (g : Vec3) :
  (0 <= m_weight mk)%R → (0 <= markerTerm mk g)%R.
Proof.
  intros Hw. unfold markerTerm. apply Rmult_le_pos; [exact Hw|].
  repeat apply Rplus_le_le_0_compat; apply square_nonneg.
Qed.

Lemma markerTerm_zero (mk : markerToSolve) (g : Vec3) :
  (0 < m_weight mk)%R →
  markerTerm mk g = 0%R ↔ experimentalPosition mk = g.
Proof.
  intros Hw. unfold markerTerm.
  destruct (experimentalPosition mk) as [a0 a1 a2], g as [g0 g1 g2].
  cbn [vget v0 v1 v2]. split.
  - intros H. apply Rmult_integral in H. destruct H as [H|H]; [lra|].
    pose proof (square_nonneg (a0 - g0)) as H0.
    pose proof (square_nonneg (a1 - g1)) as H1.
    pose proof (square_nonneg (a2 - g2)) as H2.
    assert (a0 - g0 = 0)%R by (apply square_zero; lra).
    assert (a1 - g1 = 0)%R by (apply square_zero; lra).
    assert (a2 - g2 = 0)%R by (apply square_zero; lra).
    f_equal; lra.
  - intros H. injection H as -> -> ->. ring.
Qed.

Lemma coordinateTerm_nonneg (t : IKTarget) (m : Model) (p : nat) :
  (0 <= weight (_coordinateInfos t !!! p))%R → (0 <= coordinateTerm t m p)%R.
Proof.
  intros Hw. unfold coordinateTerm. cbn zeta.
  apply Rmult_le_pos; [exact Hw|]. apply square_nonneg.
Qed.

Lemma coordinateTerm_zero (t : IKTarget) (m : Model) (p : nat) :
  (0 < weight (_coordinateInfos t !!! p))%R →
  coordinateTerm t m p = 0%R ↔
  experimentalValue (_coordinateInfos t !!! p) =
    getValue m (coord (_coordinateInfos t !!! p)).
Proof.
  intros Hw. unfold coordinateTerm. cbn zeta. split.
  - intros H. apply Rmult_integral in H. destruct H as [H|H]; [lra|].
    apply square_zero in H. lra.
  - intros ->. ring.
Qed.

(** X17: with positive weights, the value of the objective is never
    negative, and it is 0 exactly when every marker with a valid
    experimental position is transformed onto that position and every
    weighted coordinate has its experimental value, in the model at [x]. *)
Theorem objective_zero_iff_fit (t : IKTarget) (x : list R) (f : R) :
  _interrupted t = false →
  Forall (λ mk, (0 < m_weight mk)%R) (_markers t) →
  (∀ p, p ∈ _unprescribedWeightedQs t →
        (0 < weight (_coordinateInfos t !!! p))%R) →
  (objectiveFunc t x).2 = inr (0%Z, f) →
  let m := setParameters t (vec_get x) (_model t) in
  (0 <= f)%R ∧
  (f = 0%R ↔
   (∀ mk, mk ∈ _markers t → validExperimentalPosition mk = true →
          experimentalPosition mk = markerGlobalPos m mk) ∧
   (∀ p, p ∈ _unprescribedWeightedQs t →
         experimentalValue (_coordinateInfos t !!! p) =
           getValue m (coord (_coordinateInfos t !!! p)))).
Proof.
  intros Hint Hmw Hcw Hf m.
  destruct (objectiveFunc_eval t x Hint) as (t' & Heq & _).
  rewrite Heq in Hf. cbn [snd] in Hf. injection Hf as <-. fold m.
  rewrite Forall_forall in Hmw.
  set (l1 := (λ mk, markerTerm mk (markerGlobalPos m mk)) <$>
             filter (λ mk, validExperimentalPosition mk = true) (_markers t)).
  set (l2 := coordinateTerm t m <$> _unprescribedWeightedQs t).
  assert (Forall (λ x, (0 <= x)%R) l1) as H1.
  { apply Forall_fmap, Forall_forall. intros mk Hin.
    apply list_elem_of_filter in Hin as [_ Hin]. cbn [compose].
    apply markerTerm_nonneg. specialize (Hmw mk Hin). lra. }
  assert (Forall (λ x, (0 <= x)%R) l2) as H2.
  { apply Forall_fmap, Forall_forall. intros p Hin. cbn [compose].
    apply coordinateTerm_nonneg. specialize (Hcw p Hin). lra. }
  pose proof (Rsum_nonneg _ H1) as Hs1.
  pose proof (Rsum_nonneg _ H2) as Hs2.
  split; [lra|]. split.
  - intros Hz.
    assert (Rsum l1 = 0%R) as Hz1 by lra.
    assert (Rsum l2 = 0%R) as Hz2 by lra.
    apply (Rsum_zero_iff _ H1) in Hz1. apply (Rsum_zero_iff _ H2) in Hz2.
    subst l1 l2.
    apply Forall_fmap in Hz1. apply Forall_fmap in Hz2.
    rewrite Forall_forall in Hz1. rewrite Forall_forall in Hz2. split.
    + intros mk Hin Hv.
      apply (markerTerm_zero mk _ (Hmw mk Hin)).
      apply (Hz1 mk). apply list_elem_of_filter. split; assumption.
    + intros p Hin.
      apply (coordinateTerm_zero t m p (Hcw p Hin)). apply (Hz2 p Hin).
  - intros [Hm Hc].
    assert (Rsum l1 = 0%R) as Hz1.
    { apply (Rsum_zero_iff _ H1). subst l1.
      apply Forall_fmap, Forall_forall. intros mk Hin.
      apply list_elem_of_filter in Hin as [Hv Hin]. cbn [compose].
      apply (markerTerm_zero mk _ (Hmw mk Hin)). apply Hm; assumption. }
    assert (Rsum l2 = 0%R) as Hz2.
    { apply (Rsum_zero_iff _ H2). subst l2.
      apply Forall_fmap, Forall_forall. intros p Hin. cbn [compose].
      apply (coordinateTerm_zero t m p (Hcw p Hin)). apply Hc. exact Hin. }
    lra.
Qed.

(** ** The passes of the solver *)

Lemma solverLoop_unfold (fuel gas : nat) (s : SolverState) :
  solverLoop fuel gas s =
  if continues s
  then match gas with
       | 0 => None
       | S gas' =>
           match iteration fuel s with
           | None => None
           | Some s' => solverLoop fuel gas' s'
           end
       end
  else Some s.
Proof. destruct gas; reflexivity. Qed.

Lemma halveStep_dQ (s : SolverState) :
  s_dQ (halveStep s) = (λ v, v * 0.5)%R <$> s_dQ s.
Proof.
  unfold halveStep.
  match goal with
  | |- context [residualPass ?t ?q ?d] => destruct (residualPass t q d)
  end.
  reflexivity.
Qed.

Lemma halveStep_results (s : SolverState) :
  s_results (halveStep s) = s_results s.
Proof. destruct (halveStep_eval s) as (q & H). simpl in H. tauto. Qed.

Lemma solveStep_results (s : SolverState) :
  s_results (solveStep s) = s_results s.
Proof. destruct (solveStep_eval s) as (m & q & H). simpl in H. tauto. Qed.

Lemma solveStep_dQ (s : SolverState) :
  s_dQ (solveStep s) =
  vec_get (dgelsy (createJacobian (s_target s) (s_results s) (s_J s)).2
                  (s_dError s))
    <$> seq 0 (_np (s_target s)).
Proof.
  unfold solveStep.
  rewrite (surjective_pairing (createJacobian _ _ _)).
  rewrite createJacobian_target.
  match goal with
  | |- context [residualPass ?t ?q ?d] => destruct (residualPass t q d)
  end.
  reflexivity.
Qed.

Lemma halvings_state (k : nat) (s : SolverState) :
  s_results (Nat.iter k halveStep s) = s_results s ∧
  s_dQ (Nat.iter k halveStep s) = (λ v, v * (/ 2) ^ k)%R <$> s_dQ s.
Proof.
  induction k as [|k [IHr IHq]].
  - change (Nat.iter 0 halveStep s) with s. split; [reflexivity|].
    rewrite <- (list_fmap_id (s_dQ s)) at 1.
    apply list_fmap_ext. intros i v _. cbn. lra.
  - change (Nat.iter (S k) halveStep s)
      with (halveStep (Nat.iter k halveStep s)).
    rewrite halveStep_results, halveStep_dQ, IHq, <- list_fmap_compose.
    split; [exact IHr|].
    apply list_fmap_ext. intros i v _. cbn. lra.
Qed.

Lemma iteration_results (fuel : nat) (s s' : SolverState) :
  iteration fuel s = Some s' →
  ∃ k, k ≤ fuel ∧
       s_results s' =
       (λ i, vec_get (s_results s) i +
             vec_get ((λ v, v * (/ 2) ^ k) <$> s_dQ (solveStep s)) i)%R
         <$> seq 0 (length (s_results s)).
Proof.
  intros Hi.
  destruct (iteration_accepts fuel s s' Hi) as (k & Hk & -> & _).
  exists k. split; [exact Hk|].
  destruct (halvings_state k (solveStep s)) as [Hr Hq].
  unfold acceptStep. cbn [s_results]. rewrite Hr, Hq, solveStep_results.
  reflexivity.
Qed.

(** X18: the pass of the outer loop that ends after [k] halvings adds to
    each parameter of [results] the least-squares update computed for it
    from the Jacobian and the residual at the start of the pass, scaled by
    [2^-k]; [results] keeps its length. *)
Theorem accepted_update (fuel : nat) (s s' : SolverState) :
  iteration fuel s = Some s' →
  _np (s_target s) ≤ length (s_results s) →
  let J := (createJacobian (s_target s) (s_results s) (s_J s)).2 in
  let sol := dgelsy J (s_dError s) in
  length (s_results s') = length (s_results s) ∧
  ∃ k, k ≤ fuel ∧
       (∀ i, i < _np (s_target s) →
             s_results s' !! i =
             Some (vec_get (s_results s) i + vec_get sol i * (/ 2) ^ k)%R) ∧
       (∀ i, _np (s_target s) ≤ i → s_results s' !! i = s_results s !! i).
Proof.
  intros Hi Hnp J sol.
  destruct (iteration_results fuel s s' Hi) as (k & Hk & Hres).
  split; [rewrite Hres, length_fmap, length_seq; reflexivity|].
  exists k. split; [exact Hk|].
  rewrite solveStep_dQ in Hres. fold J sol in Hres.
  rewrite <- list_fmap_compose in Hres.
  split.
  - intros i Hlt. rewrite Hres, list_lookup_fmap.
    rewrite lookup_seq_lt by lia. cbn [fmap option_fmap option_map].
    f_equal. f_equal. unfold vec_get at 1.
    rewrite list_lookup_fmap, lookup_seq_lt by lia. reflexivity.
  - intros i Hge. rewrite Hres, list_lookup_fmap.
    destruct (decide (i < length (s_results s))) as [Hlt|Hlt].
    + rewrite lookup_seq_lt by lia. cbn [fmap option_fmap option_map].
      destruct (lookup_lt_is_Some_2 (s_results s) i Hlt) as [v Hv].
      unfold vec_get at 1 2. rewrite Hv, list_lookup_fmap.
      rewrite lookup_seq_ge by lia. cbn. f_equal.
      rewrite ?Hv. cbn. lra.
    + rewrite lookup_seq_ge by lia.
      rewrite lookup_ge_None_2 by lia. reflexivity.
Qed.

Lemma iteration_length (fuel : nat) (s s' : SolverState) :
  iteration fuel s = Some s' →
  length (s_results s') = length (s_results s).
Proof.
  intros Hi. destruct (iteration_results fuel s s' Hi) as (k & _ & ->).
  rewrite length_fmap, length_seq. reflexivity.
Qed.

Lemma solverLoop_count (fuel gas : nat) (s s' : SolverState) :
  solverLoop fuel gas s = Some s' →
  iter s ≤ iter s' ∧
  length (s_results s') = length (s_results s) ∧
  (iter s ≤ maxIter → iter s' ≤ maxIter) ∧
  (continues s = true → iter s < iter s').
Proof.
  revert s. induction gas as [|gas IH]; intros s Hl;
    rewrite solverLoop_unfold in Hl;
    destruct (continues s) eqn:Hc; try discriminate.
  - injection Hl as <-. repeat split; auto; discriminate.
  - destruct (iteration fuel s) as [s1|] eqn:Hi; [|discriminate].
    destruct (IH s1 Hl) as (H1 & H2 & H3 & _).
    pose proof (iteration_iter fuel s s1 Hi) as Hit.
    pose proof (iteration_length fuel s s1 Hi) as Hlen.
    apply continues_true_iff in Hc as [_ Hlt].
    repeat split; [lia|congruence|intros _; apply H3; lia|intros _; lia].
  - injection Hl as <-. repeat split; auto; discriminate.
Qed.

Lemma solverInit_continues (t : IKTarget) (results : list R) :
  continues (solverInit t results) = true.
Proof.
  destruct (solverInit_eval t results) as (_ & _ & _ & _ & Hd & Hi).
  apply continues_true_iff. rewrite Hd, Hi. unfold errorTol, maxIter.
  split; [lra|lia].
Qed.

(** X19: a call of [iterativeOptimization] that returns has made at least
    one pass of the outer loop, whatever the initial residual, and at most
    1000; it returns status 0 and [results] with the length it had. *)
Theorem solver_makes_a_pass (fuel : nat) (t : IKTarget) (results : list R)
    (r : IKTarget * list R * Z) :
  iterativeOptimization fuel t results = Some r →
  ∃ s1 s,
    iteration fuel (solverInit t results) = Some s1 ∧
    solverLoop fuel maxIter (solverInit t results) = Some s ∧
    r = solverFinish s ∧
    1 ≤ iter s ∧ iter s ≤ 1000 ∧
    r.2 = 0%Z ∧ length r.1.2 = length results.
Proof.
  unfold iterativeOptimization. intros Hr.
  destruct (solverLoop fuel maxIter (solverInit t results)) as [s|] eqn:Hl;
    [|discriminate].
  injection Hr as <-.
  pose proof (solverInit_continues t results) as Hc.
  destruct (solverLoop_count _ _ _ _ Hl) as (_ & Hlen & Hmax & Hpos).
  destruct (solverInit_eval t results) as (_ & _ & Hres & _ & _ & Hi0).
  rewrite Hi0 in Hmax, Hpos. rewrite Hres in Hlen.
  assert (∃ s1, iteration fuel (solverInit t results) = Some s1) as [s1 Hs1].
  { rewrite solverLoop_unfold, Hc in Hl. unfold maxIter in Hl.
    destruct (iteration fuel (solverInit t results)) as [s1|];
      [eexists; reflexivity|discriminate]. }
  exists s1, s. split; [exact Hs1|]. split; [reflexivity|].
  split; [reflexivity|].
  specialize (Hpos Hc). specialize (Hmax ltac:(lia)). unfold maxIter in Hmax.
  repeat split; [lia|lia|exact Hlen].
Qed.

(** ** A frame without data *)

Lemma frame_all_invalid (t t' : IKTarget) :
  eval_frame t t' →
  Forall (λ mk, validExperimentalPosition mk = false) (_markers t) →
  Forall (λ mk, validExperimentalPosition mk = false) (_markers t').
Proof.
  intros Hf Hall. pose proof (ef_markers _ _ Hf) as Hm.
  apply Forall_lookup_2. intros i mk' Hmk'.
  assert ((marker_bound <$> _markers t') !! i = Some (marker_bound mk')) as Hb
    by (rewrite list_lookup_fmap, Hmk'; reflexivity).
  rewrite Hm, list_lookup_fmap in Hb.
  destruct (_markers t !! i) as [mk|] eqn:Hmk; [|discriminate].
  apply (inj Some) in Hb. apply (f_equal snd) in Hb. cbn in Hb.
  rewrite <- Hb. exact (Forall_lookup_1 _ _ _ _ Hall Hmk).
Qed.

Lemma residual_without_data (t : IKTarget) (d : list R) :
  ResidualRows t d →
  Forall (λ mk, validExperimentalPosition mk = false) (_markers t) →
  _unprescribedWeightedQs t = [] →
  norm d = 0%R.
Proof.
  intros Hrows Hall HW. rewrite (ResidualRows_eq _ _ Hrows).
  unfold norm, residualVector. rewrite HW, fmap_nil, app_nil_r.
  rewrite Rsum_flatten3.
  replace (Rsum _) with 0%R; [apply sqrt_0|].
  symmetry. apply Rsum_zero_iff.
  - apply Forall_fmap, Forall_forall. intros mk _. cbn [compose].
    repeat apply Rplus_le_le_0_compat; apply square_nonneg.
  - apply Forall_fmap, Forall_forall. intros mk Hin. cbn [compose].
    rewrite Forall_forall in Hall. unfold residualVec.
    rewrite (Hall mk Hin). cbn [v0 v1 v2]. ring.
Qed.

Lemma keeps_all_invalid (mks mks' : list markerToSolve) :
  length mks' = length mks →
  Forall (λ mk, validExperimentalPosition mk = false) mks →
  keeps_invalid mks mks' → mks' = mks.
Proof.
  intros Hlen Hall Hk. apply list_eq. intros i.
  destruct (mks !! i) as [mk|] eqn:Hmk.
  - apply Hk; [exact Hmk|]. exact (Forall_lookup_1 _ _ _ _ Hall Hmk).
  - apply lookup_ge_None in Hmk. apply lookup_ge_None. lia.
Qed.

(** X20: on a frame in which no marker has a valid experimental position
    and no unprescribed coordinate is weighted, [iterativeOptimization]
    returns after exactly one pass of the outer loop, without any halving
    and whatever the least-squares routine answers: the residual is the
    zero vector before and after the trial step.  Every marker is returned
    as it was. *)
Theorem frame_without_data (fuel : nat) (t : IKTarget) (results : list R) :
  well_formed t →
  Forall (λ mk, validExperimentalPosition mk = false) (_markers t) →
  _unprescribedWeightedQs t = [] →
  ∃ s,
    iterativeOptimization fuel t results = Some (solverFinish s) ∧
    s = acceptStep (solveStep (solverInit t results)) ∧
    iter s = 1 ∧
    currentDErrorNorm s = 0%R ∧
    _markers (solverFinish s).1.1 = _markers t.
Proof.
  intros Hwf Hall HW.
  set (s0 := solverInit t results).
  assert (∀ ph s, Reached t results ph s →
                  norm (s_dError s) = 0%R ∧ _markers (s_target s) = _markers t)
    as Hzero.
  { intros ph s Hr.
    destruct (reached_invariant t results ph s Hwf Hr) as (Hf & Hk & Hrows).
    split.
    - apply (residual_without_data (s_target s)).
      + exact Hrows.
      + eapply frame_all_invalid; eassumption.
      + rewrite (ef_weighted _ _ Hf). exact HW.
    - apply keeps_all_invalid; [|exact Hall|exact Hk].
      pose proof (ef_markers _ _ Hf) as Hm.
      apply (f_equal length) in Hm. rewrite !length_fmap in Hm. exact Hm. }
  pose proof (reach_init t results) as Hr0. fold s0 in Hr0.
  pose proof (solverInit_continues t results) as Hc0. fold s0 in Hc0.
  pose proof (reach_solve t results s0 Hr0 Hc0) as Hr1.
  destruct (Hzero _ _ Hr0) as [Hn0 _].
  destruct (Hzero _ _ Hr1) as [Hn1 Hm1].
  destruct (solverInit_eval t results) as (_ & Hd0 & _ & Hcur0 & _ & Hi0).
  cbn zeta in Hd0, Hcur0. fold s0 in Hd0, Hcur0, Hi0.
  assert (currentDErrorNorm s0 = 0%R) as Hcur.
  { rewrite Hcur0, <- Hd0. exact Hn0. }
  assert (Rgtb (tempDErrorNorm (solveStep s0))
               (previousDErrorNorm (solveStep s0)) = false) as Hgt.
  { apply Rgtb_false.
    rewrite solveStep_temp, solveStep_previous, Hn1, Hcur. lra. }
  assert (iteration fuel s0 = Some (acceptStep (solveStep s0))) as Hit.
  { unfold iteration. rewrite (backtrack_stop fuel _ Hgt). reflexivity. }
  exists (acceptStep (solveStep s0)).
  assert (continues (acceptStep (solveStep s0)) = false) as Hc1.
  { apply continues_false_iff. left. unfold acceptStep.
    cbn [deltaDErrorNorm]. rewrite Hn1, solveStep_previous, Hcur.
    replace (0 - 0)%R with 0%R by lra. rewrite Rabs_R0.
    unfold errorTol. lra. }
  split; [|split; [reflexivity|split; [|split]]].
  - unfold iterativeOptimization. fold s0.
    rewrite solverLoop_unfold, Hc0. unfold maxIter.
    rewrite Hit, (solverLoop_stop _ _ _ Hc1). reflexivity.
  - unfold acceptStep. cbn [iter]. rewrite solveStep_iter, Hi0. reflexivity.
  - unfold acceptStep. cbn [currentDErrorNorm]. exact Hn1.
  - destruct (solverFinish_target (acceptStep (solveStep s0))) as [_ ->].
    exact Hm1.
Qed.

(** ** The name and value arrays *)

Lemma length_setSize {A : Type} (n : nat) (d : A) (a : list A) :
  length (setSize n d a) = n.
Proof. unfold setSize. rewrite length_app, length_take, length_replicate. lia. Qed.

(** A loop that assigns every slot of a resized array leaves nothing of
    what the array held. *)
Lemma overwrite_loop {A B : Type} (g : B → A) (l : list B) `{!Inhabited B}
    (d : A) (a : list A) :
  for_loop (length l) (λ i acc, <[i := g (l !!! i)]> acc)
           (setSize (length l) d a)
  = g <$> l.
Proof.
  assert (∀ n, n ≤ length l →
            let acc := for_loop n (λ i acc, <[i := g (l !!! i)]> acc)
                         (setSize (length l) d a) in
            length acc = length l ∧
            ∀ j, j < n → acc !! j = Some (g (l !!! j))) as H.
  { induction n as [|n IH]; intros Hn; cbn zeta.
    - rewrite for_loop_0, length_setSize. split; [reflexivity|].
      intros j Hj. lia.
    - rewrite for_loop_S. destruct (IH ltac:(lia)) as [Hlen Hlk].
      split; [rewrite length_insert; exact Hlen|].
      intros j Hj. destruct (decide (j = n)) as [->|Hne].
      + apply list_lookup_insert_eq. lia.
      + rewrite list_lookup_insert_ne by lia. apply Hlk. lia. }
  destruct (H (length l) (le_n _)) as [Hlen Hlk]. cbn zeta in Hlen, Hlk.
  apply list_eq. intros j. rewrite list_lookup_fmap.
  destruct (l !! j) as [x|] eqn:Hx.
  - rewrite Hlk by (eapply lookup_lt_Some; exact Hx).
    rewrite (list_lookup_total_correct _ _ _ Hx). reflexivity.
  - apply lookup_ge_None in Hx. apply lookup_ge_None. lia.
Qed.

Lemma nth_seq_names (names : list string) :
  (λ p, List.nth p names EmptyString) <$> seq 0 (length names) = names.
Proof.
  apply list_eq. intros j. rewrite list_lookup_fmap.
  destruct (names !! j) as [x|] eqn:Hx.
  - rewrite lookup_seq_lt by (eapply lookup_lt_Some; exact Hx).
    cbn. f_equal. apply nth_lookup_Some with (d := EmptyString) in Hx.
    exact Hx.
  - apply lookup_ge_None in Hx. rewrite lookup_seq_ge by lia. reflexivity.
Qed.

(** X21: the two arrays of coordinate names.  Whatever the caller's arrays
    held, [getPrescribedCoordinateNames] and [getUnprescribedCoordinateNames]
    return one name per pointer, in pointer order; on a target as
    constructed the two arrays together are a rearrangement of the names of
    the coordinates of the model: every coordinate is in exactly one. *)
Theorem coordinate_names_partition (aModel : Model) (tasks : list IKTask)
    (storage : Storage) (t : IKTarget) (d d' : string) (a a' : list string) :
  newIKTarget aModel tasks storage = inr t →
  getPrescribedCoordinateNames t d a =
    (λ p, List.nth p (coordinateNames aModel) EmptyString) <$> _prescribedQs t ∧
  getUnprescribedCoordinateNames t d' a' =
    (λ p, List.nth p (coordinateNames aModel) EmptyString) <$> _unprescribedQs t ∧
  getPrescribedCoordinateNames t d a ++ getUnprescribedCoordinateNames t d' a'
    ≡ₚ coordinateNames aModel.
Proof.
  intros Hnew.
  destruct (newIKTarget_well_formed _ _ _ _ Hnew) as (Hwf & Hlen & _).
  assert (_model t = aModel) as Hmodel.
  { revert Hnew. unfold newIKTarget.
    destruct (buildMarkerMap aModel tasks (getColumnLabels storage));
      [discriminate|].
    destruct (buildCoordinateMap aModel tasks (getColumnLabels storage))
      as [e|[infos s]]; [discriminate|].
    intros H. injection H as <-. reflexivity. }
  destruct (well_formed_unprescribed t Hwf) as (_ & HU & HP).
  assert (getPrescribedCoordinateNames t d a =
          (λ p, List.nth p (coordinateNames aModel) EmptyString)
            <$> _prescribedQs t) as H1.
  { unfold getPrescribedCoordinateNames.
    rewrite (overwrite_loop (coordinateName t) (_prescribedQs t)).
    apply list_fmap_ext. intros i p Hp. unfold coordinateName.
    destruct (HP p (list_elem_of_lookup_2 _ _ _ Hp)) as [Hlt _].
    rewrite (wf_coord t Hwf p Hlt), Hmodel. reflexivity. }
  assert (getUnprescribedCoordinateNames t d' a' =
          (λ p, List.nth p (coordinateNames aModel) EmptyString)
            <$> _unprescribedQs t) as H2.
  { unfold getUnprescribedCoordinateNames.
    rewrite (overwrite_loop (coordinateName t) (_unprescribedQs t)).
    apply list_fmap_ext. intros i p Hp. unfold coordinateName.
    destruct (HU p (list_elem_of_lookup_2 _ _ _ Hp)) as [Hlt _].
    rewrite (wf_coord t Hwf p Hlt), Hmodel. reflexivity. }
  split; [exact H1|]. split; [exact H2|].
  rewrite H1, H2, <- fmap_app.
  transitivity ((λ p, List.nth p (coordinateNames aModel) EmptyString)
                  <$> seq 0 (length (coordinateNames aModel)));
    [|rewrite nth_seq_names; reflexivity].
  apply fmap_Permutation.
  rewrite (wf_prescribed t Hwf), (wf_unprescribed t Hwf), Hlen.
  etransitivity; [|apply (filter_app_complement
                            (λ p, prescribed (_coordinateInfos t !!! p) = true))].
  apply Permutation_app; [reflexivity|].
  erewrite list_filter_iff; [reflexivity|]. intros p. cbn beta.
  destruct (prescribed (_coordinateInfos t !!! p));
    [split; [discriminate|intros H; destruct H; reflexivity]
    |split; [intros _ H; discriminate|reflexivity]].
Qed.

(** X22: [getOutputMarkerNames] and [getPrescribedCoordinateValues] return
    one entry per marker and per prescribed coordinate, whatever the
    caller's arrays held: entry [i] of the names is the name of the marker
    whose components are entries [3i..3i+2] of
    [getComputedMarkerLocations], and the values are those the prescribed
    coordinates have in the model of the target. *)
Theorem output_arrays_aligned (t : IKTarget) (d : string) (a : list string)
    (dv : R) (av : list R) (i r : nat) (mk : markerToSolve) :
  _markers t !! i = Some mk → r < 3 →
  length (getOutputMarkerNames t d a) = length (_markers t) ∧
  getOutputMarkerNames t d a !! i = Some (markerName (_model t) (marker mk)) ∧
  getComputedMarkerLocations t !! (3 * i + r) =
    Some (vget (computedPosition mk) r) ∧
  getPrescribedCoordinateValues t dv av =
    (λ p, getValue (_model t) (coord (_coordinateInfos t !!! p)))
      <$> _prescribedQs t.
Proof.
  intros Hi Hr.
  assert (getOutputMarkerNames t d a =
          (λ mk, markerName (_model t) (marker mk)) <$> _markers t) as Hn.
  { unfold getOutputMarkerNames.
    apply (overwrite_loop (λ mk, markerName (_model t) (marker mk))). }
  split; [rewrite Hn, length_fmap; reflexivity|].
  split; [rewrite Hn, list_lookup_fmap, Hi; reflexivity|].
  split.
  - unfold getComputedMarkerLocations.
    rewrite (flatten3_loop computedPosition).
    apply (flatten3_lookup computedPosition); assumption.
  - unfold getPrescribedCoordinateValues.
    apply (overwrite_loop
             (λ p, getValue (_model t) (coord (_coordinateInfos t !!! p)))).
Qed.

End Properties.

(** ** The concrete model: evaluation and instances *)

Ltac ground_eval :=
  repeat (progress (
    unfold solverInit, solveStep, halveStep, acceptStep, createJacobian,
      jacobianLoop, jacobianStep, jacobianMarkerStep, markerWeights,
      markerWeightsStep, residualPass, residualMarkerStep,
      residualComponentStep, residualCoordinateStep, numRows, setParameters,
      trialPoint, for_loop, markerGlobalPos;
    simpl; rewrite ?nonzero_0)).

Lemma nonzero_1 : nonzero 1 = true.
Proof. apply nonzero_true. lra. Qed.

Lemma ground_well_formed_at (q : R) (b : bool) :
  @well_formed groundEngine (groundAt q b).
Proof.
  split; try reflexivity.
  - intros p Hp. simpl in Hp. destruct p as [|p]; [reflexivity|lia].
  - simpl. unfold filter. simpl. rewrite nonzero_0. reflexivity.
Qed.

Lemma ground_well_formed : @well_formed groundEngine groundTarget.
Proof. exact (ground_well_formed_at 0 false). Qed.

Lemma ground_well_formed0 : @well_formed groundEngine groundTarget0.
Proof.
  split; try reflexivity.
  - intros p Hp. simpl in Hp. destruct p as [|p]; [reflexivity|lia].
  - simpl. unfold filter. simpl. rewrite nonzero_0. reflexivity.
Qed.

Lemma ground_solverInit (b : bool) :
  @solverInit groundEngine (groundAt 0 b) [5%R] = groundState0 b.
Proof. ground_eval. reflexivity. Qed.

Lemma ground_solveStep (b : bool) :
  @solveStep groundEngine (groundState0 b) = groundState1 b.
Proof. unfold groundState0. ground_eval. reflexivity. Qed.

Lemma ground_acceptStep (b : bool) :
  @acceptStep groundEngine (groundState1 b) = groundState2 b.
Proof. reflexivity. Qed.

Lemma ground_first_pass (b : bool) (fuel : nat) :
  @continues groundEngine (groundState0 b) = true ∧
  @iteration groundEngine fuel (groundState0 b) = Some (groundState2 b) ∧
  @continues groundEngine (groundState2 b) = false.
Proof.
  split; [|split].
  - apply continues_true_iff. split.
    + simpl. unfold errorTol. lra.
    + simpl. unfold maxIter. lia.
  - unfold iteration. rewrite ground_solveStep.
    rewrite backtrack_stop by (apply Rgtb_false, Rle_refl).
    simpl. rewrite ground_acceptStep. reflexivity.
  - apply continues_false_iff. left. simpl.
    rewrite Rminus_diag, Rabs_R0. unfold errorTol. lra.
Qed.

Lemma ground_run (b : bool) (fuel : nat) :
  @solverLoop groundEngine fuel maxIter (solverInit (groundAt 0 b) [5%R])
  = Some (groundState2 b).
Proof.
  rewrite ground_solverInit.
  destruct (ground_first_pass b fuel) as (Hc & Hi & Hstop).
  change maxIter with (S (pred maxIter)).
  rewrite (solverLoop_step fuel _ _ _ Hc Hi).
  apply solverLoop_stop. exact Hstop.
Qed.

(** C2, counterexample: on the interrupted ground target, whose coordinate
    is at 0, [iterativeOptimization] started at [q = 5] does not fail: it
    returns status 0, having set the coordinate of the model to 5. *)
Lemma iterativeOptimization_runs_when_interrupted :
  @_interrupted groundEngine groundInterrupted = true ∧
  @_model groundEngine groundInterrupted = [0%R] ∧
  ∃ t', @iterativeOptimization groundEngine 0 groundInterrupted [5%R]
        = Some (t', [5%R], 0%Z) ∧
        @_model groundEngine t' = [5%R] ∧
        @_interrupted groundEngine t' = true.
Proof.
  split; [reflexivity|]. split; [reflexivity|].
  unfold iterativeOptimization.
  change groundInterrupted with (groundAt 0 true).
  rewrite (ground_run true 0).
  assert ((5 + 0)%R = 5%R) as H5 by lra.
  exists (groundAt 5 true). unfold groundState2. rewrite H5.
  split; [|split; reflexivity].
  reflexivity.
Qed.

Lemma gradientFunc_forward_difference_witness :
  ∃ t' g,
    @gradientFunc groundEngine groundTarget [5%R] [0%R] = (t', inr (0%Z, g)) ∧
    length g = length [0%R] ∧
    ∀ i, i < @_np groundEngine groundTarget → i < length [0%R] →
         g !! i =
         Some ((objectiveValue (gradientState groundTarget [5%R] i)
                  (perturbed (_dx groundTarget) [5%R] i) -
                objectiveValue (set_calcDerivs groundTarget true) [5%R])
               / vec_get (_dx groundTarget) i)%R.
Proof.
  apply (@gradientFunc_forward_difference groundEngine groundTarget
           [5%R] [0%R]).
  reflexivity.
Defined.

Lemma objectiveFunc_value_witness :
  ∃ t',
    @objectiveFunc groundEngine groundTarget [5%R] =
      (t', inr (0%Z,
                (Rsum ((λ mk, markerTerm mk
                                (markerGlobalPos
                                   (setParameters groundTarget (vec_get [5%R])
                                      (_model groundTarget)) mk)) <$>
                       filter (λ mk, validExperimentalPosition mk = true)
                              (_markers groundTarget)) +
                 Rsum (coordinateTerm groundTarget
                         (setParameters groundTarget (vec_get [5%R])
                            (_model groundTarget)) <$>
                       _unprescribedWeightedQs groundTarget))%R)) ∧
    _model t' = setParameters groundTarget (vec_get [5%R]) (_model groundTarget) ∧
    _markers t' =
      evaluated (setParameters groundTarget (vec_get [5%R]) (_model groundTarget))
        <$> _markers groundTarget.
Proof.
  apply (@objectiveFunc_value groundEngine groundTarget [5%R]).
  reflexivity.
Defined.

Lemma residual_vector_rows_witness :
  let s := @solverInit groundEngine groundTarget [5%R] in
  ResidualRows (s_target s) (s_dError s) ∧
  length (s_dError s) =
    3 * length (_markers groundTarget) +
    length (_unprescribedWeightedQs groundTarget) ∧
  _unprescribedWeightedQs (s_target s) =
    weightedOf groundTarget (_unprescribedQs groundTarget) ∧
  (∃ (m0 : @Model groundEngine) (q : nat → R),
     _model (s_target s) = setParameters groundTarget q m0 ∧
     ∀ i, i < length [5%R] → q i = vec_get (s_results s) i) ∧
  (∀ i mk, _markers (s_target s) !! i = Some mk →
           validExperimentalPosition mk = true →
           let m := _model (s_target s) in
           let globalPos := @transformPosition groundEngine m (body mk)
                              (getOffset m (marker mk)) in
           computedPosition mk = globalPos ∧
           ∀ r, r < 3 →
                s_dError s !! (3 * i + r) =
                Some (sqrt (m_weight mk) *
                      (vget (experimentalPosition mk) r - vget globalPos r))%R).
Proof.
  apply (@residual_vector_rows groundEngine groundTarget [5%R] LoopHead).
  - exact ground_well_formed.
  - apply reach_init.
Defined.

Lemma accepted_norm_nonincreasing_witness :
  let s := groundState0 false in
  let s' := groundState2 false in
  (∃ k, k ≤ 0 ∧
        s' = acceptStep (Nat.iter k halveStep (solveStep s)) ∧
        (∀ j, j < k →
              (tempDErrorNorm (Nat.iter j halveStep (solveStep s))
               > currentDErrorNorm s)%R) ∧
        previousDErrorNorm s' = currentDErrorNorm s ∧
        (currentDErrorNorm s' <= currentDErrorNorm s)%R) ∧
  (∀ n s'', passes 0 n s' = Some s'' →
            (currentDErrorNorm s'' <= currentDErrorNorm s)%R).
Proof.
  apply (@accepted_norm_nonincreasing groundEngine 0).
  exact (proj1 (proj2 (ground_first_pass false 0))).
Defined.

Lemma coordinate_partition_witness :
  @newIKTarget groundEngine [0%R] groundTasks groundStorage = inr groundTarget0 ∧
  (∀ i, i < 1 →
        (i ∈ _prescribedQs groundTarget0 ∧ (i ∉ _unprescribedQs groundTarget0)) ∨
        ((i ∉ _prescribedQs groundTarget0) ∧ i ∈ _unprescribedQs groundTarget0)) ∧
  (∀ t', rtc method_call groundTarget0 t' →
         _prescribedQs t' = [] ∧ _unprescribedQs t' = [0] ∧
         _unprescribedWeightedQs t' = []).
Proof.
  assert (@newIKTarget groundEngine [0%R] groundTasks groundStorage
          = inr groundTarget0) as Hnew.
  { unfold newIKTarget, buildMarkerMap, buildCoordinateMap, coordinateTaskLoop,
      filterLoop, for_loop.
    simpl. unfold filterStep. simpl. rewrite nonzero_1. simpl.
    rewrite nonzero_0. reflexivity. }
  split; [exact Hnew|].
  destruct (@coordinate_partition groundEngine [0%R] groundTasks groundStorage
              groundTarget0 Hnew) as (H1 & _ & _ & _ & _ & H6).
  split; [exact H1|].
  intros t' Hr. destruct (H6 t' Hr) as (HP & HU & HW & _).
  repeat split; assumption.
Defined.

Lemma createJacobian_columns_witness :
  length (@createJacobian groundEngine groundTarget [5%R] [[0; 0; 0]%R]).2
  = @_np groundEngine groundTarget ∧
  ∀ i, i < @_np groundEngine groundTarget →
       ∃ col, (createJacobian groundTarget [5%R] [[0; 0; 0]%R]).2 !! i = Some col ∧
              JacobianColumn groundTarget [5%R] [[0; 0; 0]%R] i col.
Proof.
  apply (@createJacobian_columns groundEngine groundTarget [5%R] [[0; 0; 0]%R]).
  - exact ground_well_formed.
  - reflexivity.
  - reflexivity.
Defined.

Lemma zero_weight_guess_witness :
  let t' := (@prepareToSolve groundEngine groundTarget 0 [0%R]).1 in
  (@prepareToSolve groundEngine groundTarget 0 [0%R]).2 !! 0 =
    Some (@getDataValue groundEngine
            (getStateVector (_experimentalDataStorage groundTarget) 0)
            3 (vec_get [0%R] 0)) ∧
  _unprescribedQs t' !! 0 = Some 0 ∧
  (0 ∉ _unprescribedWeightedQs t') ∧
  (∀ m st, residualCoordinateStep t' m 0 st = st) ∧
  (∀ k, k < length (_unprescribedWeightedQs t') →
        _unprescribedWeightedQs t' !!! k ≠ 0).
Proof.
  apply (@zero_weight_guess groundEngine groundTarget 0 [0%R] 0).
  - exact ground_well_formed.
  - simpl. lia.
  - simpl. lia.
  - reflexivity.
  - simpl. lia.
Defined.

Lemma stale_computedPosition_witness :
  let mk := mkMarker 0 0 0 1 (mkVec3 0 0 0) (mkVec3 0 0 0) false in
  (∀ x, _markers (@objectiveFunc groundEngine groundTarget0 x).1 !! 0 = Some mk) ∧
  (∀ q d, _markers (residualPass groundTarget0 q d).1 !! 0 = Some mk) ∧
  (∀ results ph s, Reached groundTarget0 results ph s →
                   _markers (s_target s) !! 0 = Some mk) ∧
  (∀ fuel results r, iterativeOptimization fuel groundTarget0 results = Some r →
                     _markers r.1.1 !! 0 = Some mk ∧
                     ∀ j, j < 3 →
                          getComputedMarkerLocations r.1.1 !! (3 * 0 + j)
                          = Some (vget (computedPosition mk) j)) ∧
  length (getComputedMarkerLocations groundTarget0)
    = 3 * length (_markers groundTarget0) ∧
  (∀ j, j < 3 →
        getComputedMarkerLocations groundTarget0 !! (3 * 0 + j)
        = Some (vget (computedPosition mk) j)).
Proof.
  apply (@stale_computedPosition groundEngine groundTarget0 0).
  - reflexivity.
  - reflexivity.
Defined.


Lemma objectiveFunc_interrupted_witness :
  @objectiveFunc groundEngine groundInterrupted [5%R]
  = (groundInterrupted, inl InterruptedException).
Proof.
  apply (@objectiveFunc_interrupted groundEngine groundInterrupted [5%R]).
  reflexivity.
Defined.

(** ** The concrete model, run *)

(** Binding frame 0 on the constructed target gives the bound target, and
    the guess of [q] is the value 5 of its column, although its weight is 0. *)
Example ground_prepareToSolve :
  @prepareToSolve groundEngine groundTarget0 0 [0%R] = (groundTarget, [5%R]).
Proof.
  unfold prepareToSolve, for_loop. simpl.
  unfold unprescribedStep, markerBindStep. simpl. rewrite nonzero_0.
  reflexivity.
Qed.

(** The marker is one unit away from its target: the objective is 1. *)
Example ground_objective :
  @objectiveFunc groundEngine groundTarget [5%R]
  = (groundAt 5 false, inr (0%Z, 1%R)).
Proof.
  unfold objectiveFunc, for_loop, setParameters. simpl.
  unfold objectiveMarkerStep, tallyMarker, markerSquaredError, for_loop. simpl.
  unfold reportErrors. simpl. f_equal. f_equal. f_equal. lra.
Qed.

(** The interrupted target throws instead. *)
Example ground_objective_interrupted :
  @objectiveFunc groundEngine groundInterrupted [5%R]
  = (groundInterrupted, inl InterruptedException).
Proof. reflexivity. Qed.

Example ground_locations :
  @getComputedMarkerLocations groundEngine groundTarget = [0; 0; 0]%R.
Proof. reflexivity. Qed.

(** The marker does not move with [q]: the column of the Jacobian is zero. *)
Example ground_jacobian :
  (@createJacobian groundEngine groundTarget [5%R] [[0; 0; 0]%R]).2
  = [[0; 0; 0]%R].
Proof.
  ground_eval. unfold vec_get. simpl.
  rewrite Rminus_diag, !Rmult_0_r. reflexivity.
Qed.

(** ** The concrete model: construction, reporting and further instances *)

Lemma ground_newIKTarget :
  @newIKTarget groundEngine [0%R] groundTasks groundStorage = inr groundTarget0.
Proof.
  unfold newIKTarget, buildMarkerMap, buildCoordinateMap, coordinateTaskLoop,
    filterLoop, for_loop.
  simpl. unfold filterStep. simpl. rewrite nonzero_1. simpl.
  rewrite nonzero_0. reflexivity.
Qed.

Lemma ground_newIKTargetM :
  @newIKTarget groundEngine [0%R] [IKMarkerTask "M" true 1] groundStorage
  = inr groundTargetM.
Proof.
  unfold newIKTarget, buildMarkerMap, buildCoordinateMap, coordinateTaskLoop,
    filterLoop, for_loop.
  simpl. unfold filterStep. simpl. rewrite nonzero_1. simpl.
  rewrite nonzero_0. reflexivity.
Qed.

Lemma ground_printing_run (fuel : nat) :
  @iterativeOptimization groundEngine fuel (groundPrinting 0) [5%R]
  = Some (solverFinish groundPrinting2).
Proof.
  assert (@solverInit groundEngine (groundPrinting 0) [5%R] = groundPrinting0)
    as H0 by (ground_eval; reflexivity).
  assert (@solveStep groundEngine groundPrinting0 = groundPrinting1)
    as H1 by (unfold groundPrinting0; ground_eval; reflexivity).
  assert (@continues groundEngine groundPrinting0 = true) as Hc.
  { apply continues_true_iff. split.
    - simpl. unfold errorTol. lra.
    - simpl. unfold maxIter. lia. }
  assert (@iteration groundEngine fuel groundPrinting0 = Some groundPrinting2)
    as Hi.
  { unfold iteration. rewrite H1.
    rewrite backtrack_stop by (apply Rgtb_false, Rle_refl). reflexivity. }
  assert (@continues groundEngine groundPrinting2 = false) as Hstop.
  { apply continues_false_iff. left. simpl.
    rewrite Rminus_diag, Rabs_R0. unfold errorTol. lra. }
  unfold iterativeOptimization. rewrite H0.
  change maxIter with (S (pred maxIter)).
  rewrite (solverLoop_step fuel _ _ _ Hc Hi).
  rewrite (solverLoop_stop _ _ _ Hstop). reflexivity.
Qed.

Lemma ground_solve (fuel : nat) :
  @iterativeOptimization groundEngine fuel groundTarget [5%R]
  = Some (solverFinish (groundState2 false)).
Proof.
  unfold iterativeOptimization.
  change groundTarget with (groundAt 0 false).
  rewrite (ground_run false fuel). reflexivity.
Qed.

Lemma constructed_markers_witness :
  marker_static <$> _markers groundTarget0 =
    omap (@markerOfTask groundEngine [0%R] (getColumnLabels groundStorage))
         groundTasks ∧
  length (_markers groundTarget0) ≤ length groundTasks ∧
  Forall (λ mk, m_weight mk ≠ 0%R) (_markers groundTarget0).
Proof.
  apply (@constructed_markers groundEngine [0%R] groundTasks groundStorage
           groundTarget0).
  exact ground_newIKTarget.
Defined.

Lemma untasked_coordinate_defaults_witness :
  weight (_coordinateInfos groundTargetM !!! 0) = 0%R ∧
  experimentalColumn (_coordinateInfos groundTargetM !!! 0) = (-1)%Z ∧
  constantExperimentalValue (_coordinateInfos groundTargetM !!! 0)
    = @getDefaultValue groundEngine [0%R] 0 ∧
  (0 ∉ _unprescribedWeightedQs groundTargetM).
Proof.
  apply (@untasked_coordinate_defaults groundEngine [0%R]
           [IKMarkerTask "M" true 1] groundStorage groundTargetM 0).
  - exact ground_newIKTargetM.
  - simpl. lia.
  - repeat constructor. discriminate.
Defined.

Lemma last_coordinate_task_decides_witness :
  let p := Z.to_nat (findIndex (@coordinateNames groundEngine [0%R]) "q") in
  p < length (@coordinateNames groundEngine [0%R]) ∧
  weight (_coordinateInfos groundTarget0 !!! p) = 0%R ∧
  experimentalColumn (_coordinateInfos groundTarget0 !!! p) =
    (rfindIndex (getColumnLabels groundStorage) "q" - 1)%Z ∧
  constantExperimentalValue (_coordinateInfos groundTarget0 !!! p) =
    constantExperimentalValue (_coordinateInfos groundTargetM !!! p).
Proof.
  apply (@last_coordinate_task_decides groundEngine [0%R]
           [IKMarkerTask "M" true 1] [] "q" 0 FromFile 0 groundStorage
           groundTargetM groundTarget0).
  - exact ground_newIKTargetM.
  - exact ground_newIKTarget.
  - constructor.
Defined.

Lemma constructed_parameters_witness :
  _np groundTarget0 = length (_unprescribedQs groundTarget0) ∧
  _dx groundTarget0 = replicate (_np groundTarget0) _perturbation ∧
  (∀ i, i < _np groundTarget0 → vec_get (_dx groundTarget0) i = 1e-3%R) ∧
  _interrupted groundTarget0 = false ∧
  _printPerformanceValues groundTarget0 = false ∧
  _model groundTarget0 = [0%R].
Proof.
  apply (@constructed_parameters groundEngine [0%R] groundTasks groundStorage
           groundTarget0).
  exact ground_newIKTarget.
Defined.

Lemma prepareToSolve_binds_markers_witness :
  let mk := mkMarker 0 0 0 1 (mkVec3 0 0 0) (mkVec3 0 0 0) false in
  let dataRow := getStateVector (_experimentalDataStorage groundTarget0) 0 in
  let c := m_experimentalColumn mk in
  ∃ mk',
    _markers (prepareToSolve groundTarget0 0 [0%R]).1 !! 0 = Some mk' ∧
    length (_markers (prepareToSolve groundTarget0 0 [0%R]).1)
      = length (_markers groundTarget0) ∧
    vget (experimentalPosition mk') 0 =
      @getDataValue groundEngine dataRow c (vget (experimentalPosition mk) 0) ∧
    vget (experimentalPosition mk') 1 =
      @getDataValue groundEngine dataRow (c + 1)
        (vget (experimentalPosition mk) 1) ∧
    vget (experimentalPosition mk') 2 =
      @getDataValue groundEngine dataRow (c + 2)
        (vget (experimentalPosition mk) 2) ∧
    (validExperimentalPosition mk' = true ↔
     @isNAN groundEngine (vget (experimentalPosition mk') 0) = false ∧
     @isNAN groundEngine (vget (experimentalPosition mk') 1) = false ∧
     @isNAN groundEngine (vget (experimentalPosition mk') 2) = false) ∧
    computedPosition mk' = computedPosition mk ∧
    marker_static mk' = marker_static mk.
Proof.
  apply (@prepareToSolve_binds_markers groundEngine groundTarget0 0 [0%R] 0).
  reflexivity.
Defined.

Lemma prepareToSolve_guess_and_target_witness :
  let dataRow := getStateVector (_experimentalDataStorage groundTarget0) 0 in
  let t' := (prepareToSolve groundTarget0 0 [0%R]).1 in
  let qGuess' := (prepareToSolve groundTarget0 0 [0%R]).2 in
  length qGuess' = length [0%R] ∧
  (∀ i, _np groundTarget0 ≤ i → qGuess' !! i = [0%R] !! i) ∧
  (∀ i, i < _np groundTarget0 →
        let info := _coordinateInfos groundTarget0 !!!
                      (_unprescribedQs groundTarget0 !!! i) in
        qGuess' !! i =
          Some (guessOf groundTarget0 (_model t') dataRow [0%R] i) ∧
        experimentalValue
          (_coordinateInfos t' !!! (_unprescribedQs groundTarget0 !!! i)) =
          if nonzero (weight info)
          then if (0 <=? experimentalColumn info)%Z
               then guessOf groundTarget0 (_model t') dataRow [0%R] i
               else constantExperimentalValue info
          else experimentalValue info) ∧
  (∀ p, p ∈ _prescribedQs groundTarget0 →
        _coordinateInfos t' !!! p = _coordinateInfos groundTarget0 !!! p).
Proof.
  apply (@prepareToSolve_guess_and_target groundEngine groundTarget0 0 [0%R]).
  - exact ground_well_formed0.
  - simpl. lia.
Defined.

Lemma experimental_locations_of_frame_witness :
  let mk := mkMarker 0 0 0 1 (mkVec3 0 0 0) (mkVec3 0 0 0) false in
  let t' := (prepareToSolve groundTarget0 0 [0%R]).1 in
  length (getExperimentalMarkerLocations t')
    = 3 * length (_markers groundTarget0) ∧
  getExperimentalMarkerLocations t' !! (3 * 0 + 0) =
    Some (@getDataValue groundEngine
            (getStateVector (_experimentalDataStorage groundTarget0) 0)
            (m_experimentalColumn mk + Z.of_nat 0)
            (vget (experimentalPosition mk) 0)).
Proof.
  apply (@experimental_locations_of_frame groundEngine groundTarget0 0 [0%R]
           0 0).
  - reflexivity.
  - lia.
Defined.

Lemma computed_locations_of_evaluation_witness :
  let mk := mkMarker 0 0 0 1 (mkVec3 0 0 0) (mkVec3 1 0 0) true in
  let t' := (objectiveFunc groundTarget [5%R]).1 in
  length (getComputedMarkerLocations t') = 3 * length (_markers groundTarget) ∧
  getComputedMarkerLocations t' !! (3 * 0 + 0) =
    Some (if validExperimentalPosition mk
          then vget (markerGlobalPos
                       (setParameters groundTarget (vec_get [5%R])
                          (_model groundTarget)) mk) 0
          else vget (computedPosition mk) 0).
Proof.
  apply (@computed_locations_of_evaluation groundEngine groundTarget [5%R]
           0 0).
  - reflexivity.
  - reflexivity.
  - lia.
Defined.

Lemma printPerformance_report_witness :
  (printPerformance groundTarget [5%R]).2 = None ∧
  _printPerformanceValues (printPerformance groundTarget [5%R]).1 = false ∧
  worst_reported (printPerformance groundTarget [5%R]).1.
Proof.
  apply (@printPerformance_report groundEngine groundTarget [5%R]).
  reflexivity.
Defined.

Lemma printPerformance_interrupted_witness :
  printPerformance groundInterrupted [5%R] =
    (set_printPerformanceValues groundInterrupted true,
     Some InterruptedException) ∧
  _printPerformanceValues (printPerformance groundInterrupted [5%R]).1 = true.
Proof.
  apply (@printPerformance_interrupted groundEngine groundInterrupted [5%R]).
  reflexivity.
Defined.

Lemma iterativeOptimization_report_witness :
  worst_reported (solverFinish groundPrinting2).1.1 ∧
  _printPerformanceValues (solverFinish groundPrinting2).1.1 = true.
Proof.
  apply (@iterativeOptimization_report groundEngine 0 (groundPrinting 0)
           [5%R] (solverFinish groundPrinting2)).
  - reflexivity.
  - exact (ground_printing_run 0).
Defined.

Lemma report_kept_when_not_printing_witness :
  (∀ x, errorReport (objectiveFunc groundTarget x).1 = errorReport groundTarget ∧
        _printPerformanceValues (objectiveFunc groundTarget x).1 = false) ∧
  (∀ fuel results r,
     iterativeOptimization fuel groundTarget results = Some r →
     errorReport r.1.1 = errorReport groundTarget ∧
     _printPerformanceValues r.1.1 = false).
Proof.
  apply (@report_kept_when_not_printing groundEngine groundTarget).
  reflexivity.
Defined.

Lemma interrupt_is_final_witness :
  let t' := (prepareToSolve groundInterrupted 0 [0%R]).1 in
  _interrupted t' = true ∧
  ∀ x, objectiveFunc t' x = (t', inl InterruptedException) ∧
       (printPerformance t' x).2 = Some InterruptedException.
Proof.
  apply (@interrupt_is_final groundEngine groundInterrupted
           (prepareToSolve groundInterrupted 0 [0%R]).1).
  - apply rtc_once. apply call_prepareToSolve.
  - reflexivity.
Defined.

Lemma bound_frame_is_stable_witness :
  (∃ aIndex qGuess,
     interrupt groundTarget = (prepareToSolve groundTarget aIndex qGuess).1) ∨
  (marker_bound <$> _markers (interrupt groundTarget)
     = marker_bound <$> _markers groundTarget ∧
   _coordinateInfos (interrupt groundTarget) = _coordinateInfos groundTarget ∧
   _dx (interrupt groundTarget) = _dx groundTarget ∧
   _np (interrupt groundTarget) = _np groundTarget).
Proof.
  apply (@bound_frame_is_stable groundEngine groundTarget
           (interrupt groundTarget)).
  apply call_interrupt.
Defined.

Lemma solver_norm_is_objective_witness :
  s_dError (@solverInit groundEngine groundTarget [5%R]) =
    residualVector (s_target (@solverInit groundEngine groundTarget [5%R])) ∧
  norm (s_dError (@solverInit groundEngine groundTarget [5%R])) =
    sqrt (storedObjective
            (s_target (@solverInit groundEngine groundTarget [5%R]))).
Proof.
  apply (@solver_norm_is_objective groundEngine groundTarget [5%R] LoopHead).
  - exact ground_well_formed.
  - repeat constructor. simpl. lra.
  - intros p Hp. simpl in Hp. inversion Hp.
  - apply reach_init.
Defined.

Lemma objective_zero_iff_fit_witness :
  let m := setParameters groundTarget (vec_get [5%R]) (_model groundTarget) in
  (0 <= 1)%R ∧
  (1%R = 0%R ↔
   (∀ mk, mk ∈ _markers groundTarget → validExperimentalPosition mk = true →
          experimentalPosition mk = markerGlobalPos m mk) ∧
   (∀ p, p ∈ _unprescribedWeightedQs groundTarget →
         experimentalValue (_coordinateInfos groundTarget !!! p) =
           @getValue groundEngine m
             (coord (_coordinateInfos groundTarget !!! p)))).
Proof.
  apply (@objective_zero_iff_fit groundEngine groundTarget [5%R] 1%R).
  - reflexivity.
  - repeat constructor. simpl. lra.
  - intros p Hp. simpl in Hp. inversion Hp.
  - rewrite ground_objective. reflexivity.
Defined.

Lemma accepted_update_witness :
  let s := groundState0 false in
  let s' := groundState2 false in
  let J := (createJacobian (s_target s) (s_results s) (s_J s)).2 in
  let sol := @dgelsy groundEngine J (s_dError s) in
  length (s_results s') = length (s_results s) ∧
  ∃ k, k ≤ 0 ∧
       (∀ i, i < _np (s_target s) →
             s_results s' !! i =
             Some (vec_get (s_results s) i + vec_get sol i * (/ 2) ^ k)%R) ∧
       (∀ i, _np (s_target s) ≤ i → s_results s' !! i = s_results s !! i).
Proof.
  apply (@accepted_update groundEngine 0).
  - exact (proj1 (proj2 (ground_first_pass false 0))).
  - simpl. lia.
Defined.

Lemma solver_makes_a_pass_witness :
  let r := solverFinish (groundState2 false) in
  ∃ s1 s,
    iteration 0 (@solverInit groundEngine groundTarget [5%R]) = Some s1 ∧
    solverLoop 0 maxIter (@solverInit groundEngine groundTarget [5%R])
      = Some s ∧
    r = solverFinish s ∧
    1 ≤ iter s ∧ iter s ≤ 1000 ∧
    r.2 = 0%Z ∧ length r.1.2 = length [5%R].
Proof.
  apply (@solver_makes_a_pass groundEngine 0 groundTarget [5%R]).
  exact (ground_solve 0).
Defined.

Lemma frame_without_data_witness :
  ∃ s,
    @iterativeOptimization groundEngine 0 groundTarget0 [5%R]
      = Some (solverFinish s) ∧
    s = acceptStep (solveStep (solverInit groundTarget0 [5%R])) ∧
    iter s = 1 ∧
    currentDErrorNorm s = 0%R ∧
    _markers (solverFinish s).1.1 = _markers groundTarget0.
Proof.
  apply (@frame_without_data groundEngine 0 groundTarget0 [5%R]).
  - exact ground_well_formed0.
  - repeat constructor.
  - reflexivity.
Defined.

Lemma coordinate_names_partition_witness :
  getPrescribedCoordinateNames groundTarget0 EmptyString [] =
    (λ p, List.nth p (@coordinateNames groundEngine [0%R]) EmptyString)
      <$> _prescribedQs groundTarget0 ∧
  getUnprescribedCoordinateNames groundTarget0 EmptyString [] =
    (λ p, List.nth p (@coordinateNames groundEngine [0%R]) EmptyString)
      <$> _unprescribedQs groundTarget0 ∧
  getPrescribedCoordinateNames groundTarget0 EmptyString [] ++
  getUnprescribedCoordinateNames groundTarget0 EmptyString []
    ≡ₚ @coordinateNames groundEngine [0%R].
Proof.
  apply (@coordinate_names_partition groundEngine [0%R] groundTasks
           groundStorage groundTarget0).
  exact ground_newIKTarget.
Defined.

Lemma output_arrays_aligned_witness :
  let mk := mkMarker 0 0 0 1 (mkVec3 0 0 0) (mkVec3 1 0 0) true in
  length (getOutputMarkerNames groundTarget EmptyString [])
    = length (_markers groundTarget) ∧
  getOutputMarkerNames groundTarget EmptyString [] !! 0 =
    Some (@markerName groundEngine (_model groundTarget) (marker mk)) ∧
  getComputedMarkerLocations groundTarget !! (3 * 0 + 0) =
    Some (vget (computedPosition mk) 0) ∧
  getPrescribedCoordinateValues groundTarget 0%R [] =
    (λ p, @getValue groundEngine (_model groundTarget)
            (coord (_coordinateInfos groundTarget !!! p)))
      <$> _prescribedQs groundTarget.
Proof.
  apply (@output_arrays_aligned groundEngine groundTarget EmptyString []
           0%R [] 0 0).
  - reflexivity.
  - lia.
Defined.
